(** * lifelines/estimation.py: survival estimators, a shallow embedding

    The development follows [src/lifelines/estimation.py]:
    the generic recursion [_additive_estimate], the two fitters built on it
    ([NelsonAalenFitter], [KaplanMeierFitter]), Aalen's additive regression
    ([AalenAdditiveFitter]) and the quantile lookup [qth_survival_times].

    Modelling conventions.
    - Times (the index of the risk-set table, the timeline) are only compared
      and subtracted: they are rationals ([Q]) and every mask of the source
      ([(t_0<=timeline)*(timeline<t)]) is an executable boolean function.
    - Counts ([N], [removed], [observed_deaths], [missing]) are integers ([Z]).
      The risk set [N] is a numpy [int64] (the result of [.sum()]), so the
      powers and products of counts the source takes before it divides
      ([N**3], [(N-i)**2], [N*(N-d)]) wrap around at 64 bits ([wrap64]).
    - Floating-point values are idealised: a [float] is a real number or one
      of the three special values numpy produces ([inf], [-inf], [nan]);
      rounding, overflow and underflow (of [exp] in particular) and the
      sign of zero are not modelled.  Division by zero, [log 0], [sqrt] of a
      negative number and [0 * inf] behave as in numpy (a warning, not an
      exception).
    - A pandas frame with one value column is the list of its rows
      [(index, value)]; the labels of such a column and the plotting hooks
      are not modelled.
    - A Python exception is a value [Err e] of the [result] type. *)

From Stdlib Require Import String.
From Stdlib Require Import Reals Lra Lia ZArith QArith Qreals List Bool Sorted.
Import ListNotations.

Set Implicit Arguments.

(** ** Exceptions *)

Inductive exn : Set :=
| IndexError
| UnboundLocalError
| AttributeError
| AssertionError
| ValueError.

Inductive result (A : Type) : Type :=
| Ok (a : A)
| Err (e : exn).

Arguments Ok {A} a.
Arguments Err {A} e.

Definition bind {A B : Type} (m : result A) (k : A -> result B) : result B :=
  match m with
  | Ok a => k a
  | Err e => Err e
  end.

Notation "x <- m ;; k" := (bind m (fun x => k))
  (at level 61, m at next level, right associativity).
Notation "' p <- m ;; k" := (bind m (fun p => k))
  (at level 61, p pattern, m at next level, right associativity).

(** ** Idealised floating-point values *)

Inductive float : Type :=
| Fin (x : R)
| PInf
| NInf
| NaN.

Definition Rsign (x : R) : comparison :=
  match total_order_T x 0 with
  | inleft (left _) => Lt
  | inleft (right _) => Eq
  | inright _ => Gt
  end.

Definition fneg (a : float) : float :=
  match a with
  | Fin x => Fin (- x)
  | PInf => NInf
  | NInf => PInf
  | NaN => NaN
  end.

Definition fadd (a b : float) : float :=
  match a, b with
  | NaN, _ | _, NaN => NaN
  | Fin x, Fin y => Fin (x + y)
  | PInf, NInf | NInf, PInf => NaN
  | PInf, _ | _, PInf => PInf
  | NInf, _ | _, NInf => NInf
  end.

Definition fsub (a b : float) : float := fadd a (fneg b).

(** [inf] with the sign of a finite non-zero factor; [nan] for a zero one. *)
Definition signed_inf (s : comparison) : float :=
  match s with
  | Gt => PInf
  | Lt => NInf
  | Eq => NaN
  end.

Definition fmul (a b : float) : float :=
  match a, b with
  | NaN, _ | _, NaN => NaN
  | Fin x, Fin y => Fin (x * y)
  | Fin x, PInf | PInf, Fin x => signed_inf (Rsign x)
  | Fin x, NInf | NInf, Fin x => fneg (signed_inf (Rsign x))
  | PInf, PInf | NInf, NInf => PInf
  | PInf, NInf | NInf, PInf => NInf
  end.

Definition fdiv (a b : float) : float :=
  match a, b with
  | NaN, _ | _, NaN => NaN
  | Fin x, Fin y =>
      match Rsign y with
      | Eq => signed_inf (Rsign x)
      | _ => Fin (x / y)
      end
  | Fin _, (PInf | NInf) => Fin 0
  | (PInf | NInf), (PInf | NInf) => NaN
  | PInf, Fin y => match Rsign y with Lt => NInf | _ => PInf end
  | NInf, Fin y => match Rsign y with Lt => PInf | _ => NInf end
  end.

Definition fexp (a : float) : float :=
  match a with
  | Fin x => Fin (exp x)
  | PInf => PInf
  | NInf => Fin 0
  | NaN => NaN
  end.

Definition flog (a : float) : float :=
  match a with
  | Fin x =>
      match Rsign x with
      | Gt => Fin (ln x)
      | Eq => NInf
      | Lt => NaN
      end
  | PInf => PInf
  | NInf | NaN => NaN
  end.

Definition fsqrt (a : float) : float :=
  match a with
  | Fin x =>
      match Rsign x with
      | Lt => NaN
      | _ => Fin (sqrt x)
      end
  | PInf => PInf
  | NInf | NaN => NaN
  end.

Definition of_int (n : Z) : float := Fin (IZR n).

(** Comparisons: anything compared with [nan] is false. *)
Definition fle (a b : float) : Prop :=
  match a, b with
  | NaN, _ | _, NaN => False
  | NInf, _ | _, PInf => True
  | Fin x, Fin y => (x <= y)%R
  | _, _ => False
  end.

Definition flt (a b : float) : Prop :=
  match a, b with
  | NaN, _ | _, NaN => False
  | Fin x, Fin y => (x < y)%R
  | NInf, NInf | PInf, PInf => False
  | NInf, _ | _, PInf => True
  | _, _ => False
  end.

Definition fltb (a b : float) : bool :=
  match a, b with
  | NaN, _ | _, NaN => false
  | Fin x, Fin y => if Rlt_dec x y then true else false
  | NInf, NInf | PInf, PInf => false
  | NInf, _ | _, PInf => true
  | _, _ => false
  end.

(** ** Times *)

Definition Qltb (a b : Q) : bool := negb (Qle_bool b a).

(** ** The risk-set table

    One row per distinct time, ascending; the loop of [_additive_estimate]
    reads a row as [(t, removed, observed_deaths, missing)]. *)

Record RiskSetRow : Set := {
  time : Q;
  removed : Z;
  observed_deaths : Z;
  missing : Z
}.

Definition table := list RiskSetRow.

Definition one_subject (t : Q) (observed : bool) : RiskSetRow :=
  {| time := t;
     removed := 1;
     observed_deaths := if observed then 1 else 0;
     missing := if observed then 0 else 1 |}.

Definition count_subject (observed : bool) (r : RiskSetRow) : RiskSetRow :=
  {| time := time r;
     removed := removed r + 1;
     observed_deaths := observed_deaths r + (if observed then 1 else 0);
     missing := missing r + (if observed then 0 else 1) |}.

Fixpoint tally (t : Q) (observed : bool) (rows : table) : table :=
  match rows with
  | [] => [one_subject t observed]
  | r :: rs =>
      match t ?= time r with
      | Lt => one_subject t observed :: r :: rs
      | Eq => count_subject observed r :: rs
      | Gt => r :: tally t observed rs
      end
  end.

(** Modelled from the spec: [lifelines.utils.dataframe_from_events_censorship]
    is not part of the sources.  Following the spec's RiskSetAggregator
    (section 6) it groups identical times, counts observed and censored exits
    per distinct time, sorts ascending, keeps
    [removed = observed_deaths + missing] on every row and covers every
    subject exactly once; arrays of different lengths are an invalid
    argument. *)
Definition dataframe_from_events_censorship
    (event_times : list Q) (censorship : list bool) : result table :=
  if Nat.eqb (length event_times) (length censorship)
  then Ok (fold_left (fun rows s => tally (fst s) (snd s) rows)
                     (combine event_times censorship) [])
  else Err ValueError.

(** ** [_additive_estimate] *)

Section AdditiveEstimate.

Variable V : Type.
Variable zero : V.
Variable add : V -> V -> V.

Definition frame := list (Q * V).

(** [df.ix[mask] = x] *)
Definition assign (mask : Q -> bool) (x : V) (df : frame) : frame :=
  map (fun row => if mask (fst row) then (fst row, x) else row) df.

(** The local variables of the loop; [t] is unbound before the first
    iteration. *)
Record locals : Type := {
  _additive_estimate_ : frame;
  _additive_var : frame;
  N : Z;
  t_0 : Q;
  v : V;
  v_sq : V;
  t : option Q
}.

Definition loop_body (additive_f variance_f : Z -> Z -> V)
    (s : locals) (r : RiskSetRow) : locals :=
  let times := fun x => Qle_bool (t_0 s) x && Qltb x (time r) in
  let N' := (N s - missing r)%Z in
  {| _additive_estimate_ := assign times (v s) (_additive_estimate_ s);
     _additive_var := assign times (v_sq s) (_additive_var s);
     N := (N' - observed_deaths r)%Z;
     t_0 := time r;
     v := add (v s) (additive_f N' (observed_deaths r));
     v_sq := add (v_sq s) (variance_f N' (observed_deaths r));
     t := Some (time r) |}.

(** [if timeline[0] > 0: timeline = np.insert(timeline,0,0.)] *)
Definition with_origin (timeline : list Q) : result (list Q) :=
  match timeline with
  | [] => Err IndexError
  | t1 :: _ => Ok (if Qltb 0 t1 then 0 :: timeline else timeline)
  end.

Definition total_removed (event_times : table) : Z :=
  fold_left Z.add (map removed event_times) 0%Z.

Definition _additive_estimate (event_times : table) (timeline : list Q)
    (additive_f variance_f : Z -> Z -> V) : result (frame * frame) :=
  timeline <- with_origin timeline ;;
  let zeros := map (fun x => (x, zero)) timeline in
  let s0 :=
    {| _additive_estimate_ := assign (fun x => Qltb x 0) zero zeros;
       _additive_var := assign (fun x => Qltb x 0) zero zeros;
       N := total_removed event_times;
       t_0 := 0;
       v := zero;
       v_sq := zero;
       t := None |} in
  let s := fold_left (loop_body additive_f variance_f) event_times s0 in
  match t s with
  | None => Err UnboundLocalError
  | Some t =>
      Ok (assign (fun x => Qle_bool t x) (v s) (_additive_estimate_ s),
          assign (fun x => Qle_bool t x) (v_sq s) (_additive_var s))
  end.

End AdditiveEstimate.

Arguments with_origin : clear implicits.

(** ** numpy helpers *)

(** [range(int(d))] *)
Definition range (d : Z) : list Z := map Z.of_nat (seq 0 (Z.to_nat d)).

(** [np.sum] of a list of floats; the sum of the empty list is [0.0]. *)
Definition np_sum (l : list float) : float := fold_left fadd l (Fin 0).

(** The value a numpy [int64] operation stores: the integer result taken
    modulo [2^64] into the range from [-2^63] to [2^63 - 1]. *)
Definition wrap64 (z : Z) : Z := ((z + 2 ^ 63) mod 2 ^ 64 - 2 ^ 63)%Z.

(** [N==d==0] *)
Definition both_zero (N d : Z) : bool := (N =? d)%Z && (d =? 0)%Z.

(** [np.ones_like(event_times, dtype=bool)] *)
Definition ones_like (event_times : list Q) : list bool :=
  repeat true (length event_times).

(** A row of a confidence-interval frame: index, upper and lower bound. *)
Record band : Type := { at_time : Q; upper : float; lower : float }.

(** [Index.equals]: the same labels in the same order. *)
Fixpoint index_equals (a b : list Q) : bool :=
  match a, b with
  | [], [] => true
  | x :: a', y :: b' => Qeq_bool x y && index_equals a' b'
  | _, _ => false
  end.

(** [Index.is_unique] *)
Fixpoint is_unique (index : list Q) : bool :=
  match index with
  | [] => true
  | x :: rest => negb (existsb (Qeq_bool x) rest) && is_unique rest
  end.

Definition relabel (x : Q) (b : band) : band :=
  {| at_time := x; upper := upper b; lower := lower b |}.

(** [values.reindex(index)]: the row of [values] with the label, [nan] for
    a label [values] lacks. *)
Definition reindex (index : list Q) (values : list band) : list band :=
  map (fun x =>
         match find (fun b => Qeq_bool (at_time b) x) values with
         | Some b => relabel x b
         | None => {| at_time := x; upper := NaN; lower := NaN |}
         end)
      index.

(** [df[name] = values] on a frame built with [index=self.timeline], for
    [values] a frame on the timeline of the estimate.  When the two indexes
    are equal pandas copies the rows in order; otherwise it aligns the rows
    of [values] with the index by label, which it refuses when [values]
    holds a label twice (cannot reindex from a duplicate axis). *)
Definition set_column (index : list Q) (values : list band)
    : result (list band) :=
  let labels := map at_time values in
  if index_equals labels index
  then Ok (map (fun p => relabel (fst p) (snd p)) (combine index values))
  else if is_unique labels then Ok (reindex index values)
  else Err ValueError.

(** The value [fit] returns: [None] or the fitter itself. *)
Inductive returned (A : Type) : Type :=
| PyNone
| PySelf (self : A).

Arguments PyNone {A}.
Arguments PySelf {A} self.

(** ** [qth_survival_times]

    The argument is a [(n,d)] frame indexed by time or a bare [(n,d)] array;
    both are kept column by column, every column holding the [n] values of
    one curve.  The result has one entry per column: an index label for a
    frame, a position for an array, or [-1]. *)

Inductive survival_functions : Type :=
| DataFrame (index : list Q) (columns : list (list float))
| ndarray (columns : list (list float)).

Inductive located : Type :=
| labels (v : list Q)
| positions (v : list Z).

(** Position of the first [True] of a boolean column. *)
Fixpoint first_true (b : list bool) : option nat :=
  match b with
  | [] => None
  | true :: _ => Some O
  | false :: b' => option_map S (first_true b')
  end.

(** [argmax] of a boolean column: the first occurrence of the maximum, so
    the first [True], or position [0] when there is none. *)
Definition argmax (b : list bool) : nat :=
  match first_true b with
  | Some p => p
  | None => O
  end.

(** [sv_b.iloc[-1,:]] for one column *)
Definition last_row (b : list bool) : bool := last b false.

Fixpoint traverse {A B : Type} (f : A -> result B) (l : list A)
    : result (list B) :=
  match l with
  | [] => Ok []
  | a :: l' => b <- f a ;; bs <- traverse f l' ;; Ok (b :: bs)
  end.

(** [sv_b.idxmax(0)] followed by [v[~sv_b.iloc[-1,:]] = -1]; [idxmax] of an
    empty column raises, the bare [except] then calls [argmax] on the
    frame, which has no such attribute. *)
Definition idxmax_or_sentinel (index : list Q) (b : list bool)
    : result Q :=
  match b with
  | [] => Err AttributeError
  | _ => Ok (if last_row b then nth (argmax b) index (-1) else -1)
  end.

(** [sv_b.argmax(0)] followed by [v[~sv_b[-1,:]] = -1] *)
Definition argmax_or_sentinel (b : list bool) : result Z :=
  match b with
  | [] => Err ValueError
  | _ => Ok (if last_row b then Z.of_nat (argmax b) else (-1)%Z)
  end.

Definition below (q : R) (column : list float) : list bool :=
  map (fun x => fltb x (Fin q)) column.

Definition qth_survival_times (q : R) (survival_functions : survival_functions)
    : result located :=
  if Rle_dec 0 q then
    if Rle_dec q 1 then
      match survival_functions with
      | DataFrame index columns =>
          v <- traverse (fun c => idxmax_or_sentinel index (below q c))
                        columns ;;
          Ok (labels v)
      | ndarray columns =>
          v <- traverse (fun c => argmax_or_sentinel (below q c)) columns ;;
          Ok (positions v)
      end
    else Err AssertionError
  else Err AssertionError.

Definition median_survival_times (survival_functions : survival_functions)
    : result located :=
  qth_survival_times (1/2) survival_functions.

(** ** [NelsonAalenFitter] *)

Module NelsonAalenFitter.

Section WithQuantile.

Variable inv_normal_cdf : R -> R.

(** The attributes set by [fit] are absent ([None]) on a new fitter. *)
Record self : Type := {
  alpha : R;
  nelson_aalen_smoothing : bool;
  censorship : option (list bool);
  event_times : option table;
  timeline : option (list Q);
  cumulative_hazard_ : option (frame float);
  confidence_interval_ : option (list band)
}.

Definition __init__ (alpha : R) (nelson_aalen_smoothing : bool) : self :=
  {| alpha := alpha;
     nelson_aalen_smoothing := nelson_aalen_smoothing;
     censorship := None;
     event_times := None;
     timeline := None;
     cumulative_hazard_ := None;
     confidence_interval_ := None |}.

Definition _variance_f_smooth (N d : Z) : float :=
  if both_zero N d then Fin 0
  else np_sum (map (fun i => fdiv (Fin 1) (of_int (wrap64 ((N - i) ^ 2))))
                   (range d)).

Definition _variance_f_discrete (N d : Z) : float :=
  if both_zero N d then Fin 0
  else fdiv (fmul (fmul (Fin 1) (of_int (N - d))) (of_int d))
            (of_int (wrap64 (N ^ 3))).

Definition _additive_f_smooth (N d : Z) : float :=
  if both_zero N d then Fin 0
  else np_sum (map (fun i => fdiv (Fin 1) (of_int (N - i))) (range d)).

Definition _additive_f_discrete (N d : Z) : float :=
  if both_zero N d then Fin 0
  else fdiv (fmul (Fin 1) (of_int d)) (of_int N).

(** The methods selected by [__init__]. *)
Definition _variance_f (s : self) : Z -> Z -> float :=
  if nelson_aalen_smoothing s then _variance_f_smooth
  else _variance_f_discrete.

Definition _additive_f (s : self) : Z -> Z -> float :=
  if nelson_aalen_smoothing s then _additive_f_smooth
  else _additive_f_discrete.

Definition bounds_row (alpha2 : R) (row : Q * float) (sq : float) : band :=
  let H := snd row in
  {| at_time := fst row;
     upper := fmul H (fexp (fdiv (fmul (Fin alpha2) (fsqrt sq)) H));
     lower := fmul H (fexp (fdiv (fmul (Fin (- alpha2)) (fsqrt sq)) H)) |}.

Definition _bounds (s : self) (cumulative_sq_ : frame float) (alpha : R)
    : result (list band) :=
  let alpha2 := inv_normal_cdf (1 - (1 - alpha) / 2) in
  match timeline s, cumulative_hazard_ s with
  | Some index, Some H =>
      set_column index
                 (map (fun p => bounds_row alpha2 (fst p) (snd p))
                      (combine H (map snd cumulative_sq_)))
  | _, _ => Err AttributeError
  end.

(** Parameters of [fit] carry a trailing quote where an attribute of the
    fitter has the same name. *)
Definition fit (s : self) (event_times' : list Q)
    (censorship' : option (list bool)) (timeline' : option (list Q))
    (alpha' : option R) : result (self * returned self) :=
  let censorship_ :=
    match censorship' with
    | None => ones_like event_times'
    | Some c => c
    end in
  rows <- dataframe_from_events_censorship event_times' censorship_ ;;
  let alpha_ := match alpha' with None => alpha s | Some a => a end in
  let timeline_ :=
    match timeline' with
    | None => map time rows
    | Some tl => tl
    end in
  ' (H, cumulative_sq_) <-
      _additive_estimate (Fin 0) fadd rows timeline_
                         (_additive_f s) (_variance_f s) ;;
  let s1 :=
    {| alpha := alpha s;
       nelson_aalen_smoothing := nelson_aalen_smoothing s;
       censorship := Some censorship_;
       event_times := Some rows;
       timeline := Some timeline_;
       cumulative_hazard_ := Some H;
       confidence_interval_ := confidence_interval_ s |} in
  ci <- _bounds s1 cumulative_sq_ alpha_ ;;
  Ok ({| alpha := alpha s1;
         nelson_aalen_smoothing := nelson_aalen_smoothing s1;
         censorship := censorship s1;
         event_times := event_times s1;
         timeline := timeline s1;
         cumulative_hazard_ := cumulative_hazard_ s1;
         confidence_interval_ := Some ci |},
      PyNone).

End WithQuantile.

End NelsonAalenFitter.

(** ** [KaplanMeierFitter] *)

Module KaplanMeierFitter.

Section WithQuantile.

Variable inv_normal_cdf : R -> R.

Record self : Type := {
  alpha : R;
  censorship : option (list bool);
  event_times : option table;
  timeline : option (list Q);
  survival_function_ : option (frame float);
  median_ : option located;
  confidence_interval_ : option (list band)
}.

Definition __init__ (alpha : R) : self :=
  {| alpha := alpha;
     censorship := None;
     event_times := None;
     timeline := None;
     survival_function_ := None;
     median_ := None;
     confidence_interval_ := None |}.

Definition _additive_f (N d : Z) : float :=
  if both_zero N d then Fin 0
  else flog (fsub (Fin 1) (fdiv (fmul (Fin 1) (of_int d)) (of_int N))).

Definition _variance_f (N d : Z) : float :=
  if both_zero N d then Fin 0
  else fdiv (fmul (Fin 1) (of_int d)) (of_int (wrap64 (N * (N - d)))).

Definition bounds_row (alpha2 : R) (row : Q * float) (sq : float) : band :=
  let v := flog (snd row) in
  {| at_time := fst row;
     upper :=
       fexp (fneg (fexp (fadd (flog (fneg v))
                              (fdiv (fmul (Fin alpha2) (fsqrt sq)) v))));
     lower :=
       fexp (fneg (fexp (fsub (flog (fneg v))
                              (fdiv (fmul (Fin alpha2) (fsqrt sq)) v)))) |}.

Definition _bounds (s : self) (cumulative_sq_ : frame float) (alpha : R)
    : result (list band) :=
  let alpha2 := inv_normal_cdf ((1 + alpha) / 2) in
  match timeline s, survival_function_ s with
  | Some index, Some surv =>
      set_column index
                 (map (fun p => bounds_row alpha2 (fst p) (snd p))
                      (combine surv (map snd cumulative_sq_)))
  | _, _ => Err AttributeError
  end.

(** [not alpha]: no value, or the value [0.0]. *)
Definition falsy (alpha : option R) : bool :=
  match alpha with
  | None => true
  | Some a => match Rsign a with Eq => true | _ => false end
  end.

Definition fit (s : self) (event_times' : list Q)
    (censorship' : option (list bool)) (timeline' : option (list Q))
    (alpha' : option R) : result (self * returned self) :=
  let censorship_ :=
    match censorship' with
    | None => ones_like event_times'
    | Some c => c
    end in
  let alpha_ :=
    match alpha' with
    | Some a => if falsy alpha' then alpha s else a
    | None => alpha s
    end in
  rows <- dataframe_from_events_censorship event_times' censorship_ ;;
  let timeline_ :=
    match timeline' with
    | None => map time rows
    | Some tl => tl
    end in
  ' (log_surivial_function, cumulative_sq_) <-
      _additive_estimate (Fin 0) fadd rows timeline_
                         _additive_f _variance_f ;;
  let surv :=
    map (fun row => (fst row, fexp (snd row))) log_surivial_function in
  m <- median_survival_times (DataFrame (map fst surv) [map snd surv]) ;;
  let s1 :=
    {| alpha := alpha s;
       censorship := Some censorship_;
       event_times := Some rows;
       timeline := Some timeline_;
       survival_function_ := Some surv;
       median_ := Some m;
       confidence_interval_ := confidence_interval_ s |} in
  ci <- _bounds s1 cumulative_sq_ alpha_ ;;
  let s2 :=
    {| alpha := alpha s1;
       censorship := censorship s1;
       event_times := event_times s1;
       timeline := timeline s1;
       survival_function_ := survival_function_ s1;
       median_ := median_ s1;
       confidence_interval_ := Some ci |} in
  Ok (s2, PySelf s2).

End WithQuantile.

End KaplanMeierFitter.

(** ** Arrays of reals *)

Definition vec := list R.

(** A two-dimensional array, row by row. *)
Definition matrix := list vec.

Definition dotp (a b : vec) : R :=
  fold_left Rplus (map (fun p => fst p * snd p)%R (combine a b)) 0%R.

(** [m[:,j]] *)
Definition col (j : nat) (m : matrix) : vec := map (fun row => nth j row 0%R) m.

(** [m.T] for a matrix of [c] columns *)
Definition transpose (c : nat) (m : matrix) : matrix :=
  map (fun j => col j m) (seq 0 c).

(** [dot(a, b)] for [b] of [c] columns *)
Definition dot (c : nat) (a b : matrix) : matrix :=
  map (fun row => map (fun j => dotp row (col j b)) (seq 0 c)) a.

Definition vadd (a b : vec) : vec :=
  map (fun p => fst p + snd p)%R (combine a b).

Definition msub (a b : matrix) : matrix :=
  map (fun p => map (fun q => fst q - snd q)%R (combine (fst p) (snd p)))
      (combine a b).

(** [lam * np.eye(p)] *)
Definition scaled_eye (lam : R) (p : nat) : matrix :=
  map (fun i => map (fun j => lam * (if Nat.eqb i j then 1 else 0))%R
                    (seq 0 p))
      (seq 0 p).

Definition diagonal (m : matrix) : vec :=
  map (fun j => nth j (nth j m []) 0%R) (seq 0 (length m)).

(** [dot(c[:,None], c[None,:]).diagonal()] *)
Definition outer_diagonal (c : vec) : vec :=
  diagonal (dot (length c) (map (fun x => [x]) c) [c]).

(** Modelled from the spec: [lifelines.utils.basis] is not part of the
    sources; [basis n i] is the unit vector [e_i] selecting row [i]
    (section 4.4, step 3), a column of [n] entries. *)
Definition basis (n i : nat) : vec :=
  map (fun k => if Nat.eqb k i then 1%R else 0%R) (seq 0 n).

(** [a[i] = x] for a position inside the array *)
Fixpoint set_nth {A : Type} (i : nat) (x : A) (l : list A) : list A :=
  match l, i with
  | [], _ => []
  | _ :: l', O => x :: l'
  | y :: l', S i' => y :: set_nth i' x l'
  end.

(** [event_times.argsort()]: positions in ascending order of time, ties in
    their original order. *)
Fixpoint insert_by (ts : list Q) (i : nat) (sorted : list nat) : list nat :=
  match sorted with
  | [] => [i]
  | j :: rest =>
      if Qltb (nth i ts 0) (nth j ts 0) then i :: j :: rest
      else j :: insert_by ts i rest
  end.

Definition argsort (ts : list Q) : list nat :=
  fold_left (fun sorted i => insert_by ts i sorted) (seq 0 (length ts)) [].

(** Selection by a boolean mask: the entries at the positions that hold
    [True]; a [True] beyond the end of the array is an index error. *)
Fixpoint select {A : Type} (C : list bool) (l : list A) : result (list A) :=
  match C, l with
  | [], _ => Ok []
  | true :: _, [] => Err IndexError
  | false :: C', [] => select C' []
  | c :: C', x :: l' =>
      r <- select C' l' ;; Ok (if c then x :: r else r)
  end.

(** [gaussian] on the entries of numpy arrays, as [smoothed_hazards_]
    calls it: a zero bandwidth divides by zero with a warning. *)
Definition gaussian (t T : Q) (sigma : R) : float :=
  fmul (fdiv (Fin 1) (fsqrt (Fin (PI * 2 * sigma ^ 2))))
       (fexp (fdiv (Fin (- (1 / 2) * (Q2R t - Q2R T) ^ 2))
                   (Fin (sigma ^ 2)))).

(** [np.dot] of a row of floats with a column of reals *)
Definition fdotp (a : list float) (b : vec) : float :=
  fold_left fadd (map (fun p => fmul (fst p) (Fin (snd p))) (combine a b))
            (Fin 0).

(** [numpy.linalg.inv] in exact arithmetic: the inverse by cofactors, and
    [LinAlgError] ([None]) exactly when the determinant is zero.  The fitter
    below does not depend on it; it instantiates the parameter [inv] of the
    fitter where a fit is run on concrete data. *)

Fixpoint drop_nth {A : Type} (j : nat) (l : list A) : list A :=
  match l, j with
  | [], _ => []
  | _ :: l', O => l'
  | a :: l', S j' => a :: drop_nth j' l'
  end.

(** Expansion along the first row; [k] bounds the size of the matrix. *)
Fixpoint det_upto (k : nat) (m : matrix) : R :=
  match k, m with
  | S k', row :: rest =>
      fold_left Rplus
        (map (fun j => (-1) ^ j * nth j row 0
                       * det_upto k' (map (drop_nth j) rest))%R
             (seq 0 (length row)))
        0%R
  | _, _ => 1%R
  end.

Definition det (m : matrix) : R := det_upto (length m) m.

Definition cofactor (m : matrix) (i j : nat) : R :=
  ((-1) ^ (i + j) * det (map (drop_nth j) (drop_nth i m)))%R.

Definition linalg_inv (m : matrix) : option matrix :=
  match Rsign (det m) with
  | Eq => None
  | _ =>
      Some (map (fun i => map (fun j => cofactor m j i / det m)%R
                              (seq 0 (length m)))
                (seq 0 (length m)))
  end.

(** ** Column labels and design matrices *)

(** A column label: a position ([range(d)]) or a name. *)
Inductive label : Set :=
| Position (i : nat)
| Name (s : string).

(** The covariates [X] given to [fit]: a pandas frame, which carries the
    labels of its columns, or a bare array. *)
Inductive design : Type :=
| Frame (columns : list label) (values : matrix)
| Array (values : matrix).

(** [X.values] for a frame, [X] itself for an array *)
Definition values_of (X : design) : matrix :=
  match X with
  | Frame _ values => values
  | Array values => values
  end.

(** [pd.DataFrame(values, index=index, columns=columns)] for values of [p]
    columns: pandas refuses labels whose number is not [p]. *)
Definition labelled (p : nat) (columns : list label) : result (list label) :=
  if Nat.eqb (length columns) p then Ok columns else Err ValueError.

(** ** [AalenAdditiveFitter]

    [numpy.linalg.inv] and [inv_normal_cdf] are external: the fitter takes
    them as parameters.  [inv m] is [None] when numpy raises [LinAlgError]
    and otherwise a matrix of the shape of [m]. *)

Module AalenAdditiveFitter.

Section WithLinearAlgebra.

Variable inv : matrix -> option matrix.
Variable inv_normal_cdf : R -> R.

(** A frame of several columns: rows of index and values. *)
Definition frames := list (Q * vec).

(** The two blocks of [confidence_intervals_], indexed by ['upper'] and
    ['lower'] and then by the timeline. *)
Record intervals : Type := {
  upper_ : list (Q * list float);
  lower_ : list (Q * list float)
}.

(** [censorship] is [Some None] after a fit that received no censorship
    argument: the attribute then holds Python's [None].  The three frames
    [cumulative_hazards_], [hazards_] and [_variance] share their column
    labels, kept once in [columns_]. *)
Record self : Type := {
  fit_intercept : bool;
  alpha : R;
  penalizer : R;
  columns_ : option (list label);
  cumulative_hazards_ : option frames;
  hazards_ : option frames;
  _variance : option frames;
  timeline : option (list Q);
  X : option design;
  censorship : option (option (list bool));
  confidence_intervals_ : option intervals
}.

Definition __init__ (fit_intercept : bool) (alpha penalizer : R) : self :=
  {| fit_intercept := fit_intercept;
     alpha := alpha;
     penalizer := penalizer;
     columns_ := None;
     cumulative_hazards_ := None;
     hazards_ := None;
     _variance := None;
     timeline := None;
     X := None;
     censorship := None;
     confidence_intervals_ := None |}.

(** [df.ix[mask] = row] and [df.ix[mask] = df.ix[mask].values + row] *)
Definition put (mask : Q -> bool) (row : vec) (df : frames) : frames :=
  map (fun r => if mask (fst r) then (fst r, row) else r) df.

Definition accumulate (mask : Q -> bool) (row : vec) (df : frames) : frames :=
  map (fun r => if mask (fst r) then (fst r, vadd (snd r) row) else r) df.

(** [df.iloc[i] = row] *)
Definition put_at (i : nat) (row : vec) (df : frames) : frames :=
  match nth_error df i with
  | Some r => set_nth i (fst r, row) df
  | None => df
  end.

(** [X_[i,:] = 0] *)
Definition clear_row (i : nat) (X_ : matrix) : matrix :=
  match nth_error X_ i with
  | Some r => set_nth i (map (fun _ => 0%R) r) X_
  | None => X_
  end.

(** The variables the loop of [fit] updates; [V] is unbound until an
    inversion has succeeded. *)
Record locals : Type := {
  X_ : matrix;
  cumulative : frames;
  hazards : frames;
  variance : frames;
  t_0 : Q;
  cum_v : vec;
  v : vec;
  V : option matrix
}.

Definition loop_body (n p : nat) (penalizer_ : matrix) (observed : list bool)
    (acc : result locals) (step : nat * Q) : result locals :=
  s <- acc ;;
  let i := fst step in
  let time := snd step in
  let relevant_times := fun x => Qltb (t_0 s) x && Qle_bool x time in
  let X1 := if nth i observed true then X_ s else clear_row i (X_ s) in
  match inv (msub (dot p (transpose p X1) X1) penalizer_) with
  | None =>
      match V s with
      | None => Err UnboundLocalError
      | Some V_ =>
          Ok {| X_ := clear_row i X1;
                cumulative := put relevant_times (cum_v s) (cumulative s);
                hazards := put_at i (v s) (hazards s);
                variance :=
                  put relevant_times (outer_diagonal (col i V_)) (variance s);
                t_0 := time;
                cum_v := cum_v s;
                v := v s;
                V := Some V_ |}
      end
  | Some m =>
      let V_ := dot n m (transpose p X1) in
      let v_ := map (fun row => dotp row (basis n i)) V_ in
      let cum_v_ := vadd (cum_v s) v_ in
      Ok {| X_ := clear_row i X1;
            cumulative := accumulate relevant_times cum_v_ (cumulative s);
            hazards :=
              put_at i (vadd (nth i (map snd (hazards s)) []) v_) (hazards s);
            variance :=
              accumulate relevant_times (outer_diagonal (col i V_))
                         (variance s);
            t_0 := time;
            cum_v := cum_v_;
            v := v_;
            V := Some V_ |}
  end.

Definition enumerate {A : Type} (l : list A) : list (nat * A) :=
  combine (seq 0 (length l)) l.

(** [cum + alpha2*np.sqrt(var)] and [cum - alpha2*np.sqrt(var)], with
    [op] the addition or the subtraction. *)
Definition interval_rows (op : float -> float -> float) (alpha2 : R)
    (cum var : frames) : list (Q * list float) :=
  map (fun p =>
         (fst (fst p),
          map (fun q => op (Fin (fst q))
                           (fmul (Fin alpha2) (fsqrt (Fin (snd q)))))
              (combine (snd (fst p)) (snd (snd p)))))
      (combine cum var).

Definition _compute_confidence_intervals (s : self) : result intervals :=
  let alpha2 := inv_normal_cdf (1 - (1 - alpha s) / 2) in
  match cumulative_hazards_ s, _variance s with
  | Some cum, Some var =>
      Ok {| upper_ := interval_rows fadd alpha2 cum var;
            lower_ := interval_rows fsub alpha2 cum var |}
  | _, _ => Err AttributeError
  end.

(** [censorship.reshape(n)], or all ones when no censorship is given *)
Definition observed_of (n : nat) (censorship' : option (list bool))
    : result (list bool) :=
  match censorship' with
  | None => Ok (repeat true n)
  | Some c => if Nat.eqb (length c) n then Ok c else Err ValueError
  end.

(** The labels [fit] gives to the columns of its frames: those given, else
    those of a frame [X], else the positions; ["baseline"] is appended in
    every case. *)
Definition column_labels (d : nat) (X' : design)
    (columns' : option (list label)) : list label :=
  let given :=
    match columns', X' with
    | None, Frame c _ => Some c
    | _, _ => columns'
    end in
  match given with
  | None => map Position (seq 0 d) ++ [Name "baseline"%string]
  | Some c => c ++ [Name "baseline"%string]
  end.

(** [event_times] is the row of a [(1,n)] array and [X'] an [(n,d)] frame
    or array; arrays whose lengths disagree make numpy raise. *)
Definition fit (s : self) (event_times : list Q) (X' : design)
    (timeline' : option (list Q)) (censorship' : option (list bool))
    (columns' : option (list label)) : result (self * returned self) :=
  let n := length (values_of X') in
  let d := length (hd [] (values_of X')) in
  if negb (Nat.eqb (length event_times) n)
  then Err (if Nat.ltb n (length event_times) then IndexError
            else ValueError)
  else
  let ix := argsort event_times in
  let p := (d + (if fit_intercept s then 1 else 0))%nat in
  let X0 :=
    map (fun i => nth i (values_of X') []
                  ++ (if fit_intercept s then [1%R] else []))
        ix in
  let sorted_event_times := map (fun i => nth i event_times 0) ix in
  observed <- observed_of n censorship' ;;
  timeline_ <-
    with_origin (match timeline' with
                 | None => sorted_event_times
                 | Some tl => tl
                 end) ;;
  let zeros := map (fun x => (x, repeat 0%R p)) timeline_ in
  columns <- labelled p (column_labels d X' columns') ;;
  let penalizer_ := scaled_eye (penalizer s) p in
  match sorted_event_times with
  | [] => Err IndexError
  | first_time :: _ =>
      let s0 :=
        {| X_ := X0;
           cumulative := zeros;
           hazards := map (fun x => (x, repeat 0%R p)) sorted_event_times;
           variance := zeros;
           t_0 := first_time;
           cum_v := repeat 0%R p;
           v := repeat 0%R p;
           V := None |} in
      st <- fold_left (loop_body n p penalizer_ observed)
                      (enumerate sorted_event_times) (Ok s0) ;;
      match V st with
      | None => Err UnboundLocalError
      | Some V_ =>
          let time := last sorted_event_times 0 in
          let i := (n - 1)%nat in
          let relevant_times := fun x => Qltb time x in
          let s1 :=
            {| fit_intercept := fit_intercept s;
               alpha := alpha s;
               penalizer := penalizer s;
               columns_ := Some columns;
               cumulative_hazards_ :=
                 Some (put relevant_times (cum_v st) (cumulative st));
               hazards_ := Some (put_at i (v st) (hazards st));
               _variance :=
                 Some (put relevant_times (outer_diagonal (col i V_))
                           (variance st));
               timeline := Some timeline_;
               X := Some X';
               censorship := Some censorship';
               confidence_intervals_ := confidence_intervals_ s |} in
          ci <- _compute_confidence_intervals s1 ;;
          let s2 :=
            {| fit_intercept := fit_intercept s1;
               alpha := alpha s1;
               penalizer := penalizer s1;
               columns_ := columns_ s1;
               cumulative_hazards_ := cumulative_hazards_ s1;
               hazards_ := hazards_ s1;
               _variance := _variance s1;
               timeline := timeline s1;
               X := X s1;
               censorship := censorship s1;
               confidence_intervals_ := Some ci |} in
          Ok (s2, PySelf s2)
      end
  end.

(** [self.censorship.astype(bool)] fails on an absent attribute and on
    [None]. *)
Definition smoothed_hazards_ (s : self) (bandwith : R)
    : result (list (Q * list float)) :=
  match censorship s with
  | None | Some None => Err AttributeError
  | Some (Some C) =>
      match timeline s, hazards_ s with
      | Some tl, Some hz =>
          tl_C <- select C tl ;;
          hz_C <- select C (map snd hz) ;;
          if Nat.eqb (length tl_C) (length hz_C) then
            Ok (map (fun t =>
                       (t, map (fun j =>
                                  fdotp (map (fun T => gaussian t T bandwith)
                                             tl_C)
                                        (col j hz_C))
                               (seq 0 (length (hd [] (map snd hz))))))
                    tl)
          else Err ValueError
      | _, _ => Err AttributeError
      end
  end.

(** [predict_cumulative_hazard]: the [try] block is overwritten by the line
    after it, which appends the column of ones when an intercept is fitted.
    [np.dot(self.cumulative_hazards_, X_.T)] needs as many columns in [X_]
    as the fitted frames have coefficients, and the frame built from the
    product with [columns=self.hazards_.columns] needs as many of those
    labels as the product has columns, one per row of [X].  The result is
    the labels with the rows of the frame. *)
Definition predict_cumulative_hazard (s : self) (X' : design)
    : result (list label * frames) :=
  let n := length (values_of X') in
  let d := length (hd [] (values_of X')) in
  let X_ :=
    map (fun row => row ++ (if fit_intercept s then [1%R] else []))
        (values_of X') in
  match cumulative_hazards_ s, timeline s, columns_ s with
  | Some cum, Some tl, Some columns =>
      if negb (Nat.eqb (length columns)
                       (d + (if fit_intercept s then 1 else 0)))
      then Err ValueError
      else if negb (Nat.eqb n (length columns)) then Err ValueError
      else
        Ok (columns,
            map (fun r => (fst r, map (fun x => dotp (snd r) x) X_))
                (combine tl (map snd cum)))
  | _, _, _ => Err AttributeError
  end.

(** [np.exp(-self.predict_cumulative_hazard(X))] *)
Definition predict_survival_function (s : self) (X' : design)
    : result (list label * frames) :=
  ' (columns, H) <- predict_cumulative_hazard s X' ;;
  Ok (columns, map (fun r => (fst r, map (fun x => exp (- x)) (snd r))) H).

(** [median_survival_times(self.predict_survival_function(X))]: one curve
    per column of the predicted frame. *)
Definition predict_median_lifetimes (s : self) (X' : design)
    : result located :=
  ' (columns, surv) <- predict_survival_function s X' ;;
  median_survival_times
    (DataFrame (map fst surv)
               (map (fun j => map (fun r => Fin (nth j (snd r) 0%R)) surv)
                    (seq 0 (length columns)))).

End WithLinearAlgebra.

End AalenAdditiveFitter.

(** * Specification-level definitions *)

(** ** The recursion of section 4.1, row by row

    [accumulated f rows N v] is the running value after [rows], started from
    risk-set size [N] and value [v]: on each row the censored count leaves
    [N] first, the increment [f N d] is added, and the deaths leave [N]
    last. *)

Section AdditiveEstimateSpec.

Variable V : Type.
Variable zero : V.
Variable add : V -> V -> V.

Fixpoint accumulated (f : Z -> Z -> V) (rows : table) (N : Z) (v : V) : V :=
  match rows with
  | [] => v
  | r :: rs =>
      accumulated f rs (N - missing r - observed_deaths r)
                  (add v (f (N - missing r)%Z (observed_deaths r)))
  end.

(** The rows whose time is at most [x]. *)
Definition upto (x : Q) (rows : table) : table :=
  filter (fun r => Qle_bool (time r) x) rows.

(** The left end of the interval of step [i]: the origin for the first
    row, the time of the previous row afterwards. *)
Definition cursor (rows : table) (i : nat) : Q :=
  match i with
  | O => 0
  | S j => nth j (map time rows) 0
  end.

(** The rows of [df] from [from] on, rewritten with the running value. *)
Definition curve (h : Z -> Z -> V) (rows : table) (N : Z) (v : V)
    (from : Q) (df : frame V) : frame V :=
  map (fun row => if Qle_bool from (fst row)
                  then (fst row, accumulated h (upto (fst row) rows) N v)
                  else row) df.

(** The frame [_additive_estimate] returns, read point by point: the value
    at [x] is the running value after the rows whose time is at most [x]. *)
Definition curve_of (h : Z -> Z -> V) (rows : table) (tl : list Q)
    : frame V :=
  map (fun x => (x, accumulated h (upto x rows) (total_removed rows) zero)) tl.

End AdditiveEstimateSpec.

(** The risk-set size on entry to step [i]: the total count less the
    censored and the dead of the earlier rows. *)
Definition risk_set (rows : table) (i : nat) : Z :=
  fold_left (fun n r => (n - missing r - observed_deaths r)%Z)
            (firstn i rows) (total_removed rows).

(** What [_additive_estimate] does, step by step, on [rows] and
    [timeline]: it returns two frames on the timeline (with the origin
    prepended when the timeline starts after it) such that
    - a point in the half-open interval from the cursor of step [i] to the
      time of row [i] holds the value accumulated by the rows before [i];
    - row [i] adds [f (N - missing) d] (and [g (N - missing) d] for the
      variance), [N] being the risk-set size on entry to the step, from
      which the censored count and then the deaths are removed;
    - a point not before the last time holds the final value. *)
Definition stepwise {V : Type} (zero : V) (add : V -> V -> V)
    (f g : Z -> Z -> V) (rows : table) (timeline : list Q) : Prop :=
  exists tl est var,
    with_origin timeline = Ok tl /\
    _additive_estimate zero add rows timeline f g = Ok (est, var) /\
    map fst est = tl /\ map fst var = tl /\
    (forall i r x y,
        nth_error rows i = Some r -> cursor rows i <= x -> x < time r ->
        (In (x, y) est ->
         y = accumulated add f (firstn i rows) (total_removed rows) zero) /\
        (In (x, y) var ->
         y = accumulated add g (firstn i rows) (total_removed rows) zero)) /\
    (forall i r,
        nth_error rows i = Some r ->
        risk_set rows (S i)
        = (risk_set rows i - missing r - observed_deaths r)%Z /\
        accumulated add f (firstn (S i) rows) (total_removed rows) zero
        = add (accumulated add f (firstn i rows) (total_removed rows) zero)
              (f (risk_set rows i - missing r)%Z (observed_deaths r)) /\
        accumulated add g (firstn (S i) rows) (total_removed rows) zero
        = add (accumulated add g (firstn i rows) (total_removed rows) zero)
              (g (risk_set rows i - missing r)%Z (observed_deaths r))) /\
    (forall x y,
        last (map time rows) 0 <= x ->
        (In (x, y) est ->
         y = accumulated add f rows (total_removed rows) zero) /\
        (In (x, y) var ->
         y = accumulated add g rows (total_removed rows) zero)).


(** ** Risk-set invariants (section 3) *)

Definition valid_row (r : RiskSetRow) : Prop :=
  (0 <= observed_deaths r)%Z /\ (0 <= missing r)%Z /\
  removed r = (observed_deaths r + missing r)%Z.

(** Rows strictly increasing in time, each with consistent counts. *)
Definition valid_table (rows : table) : Prop :=
  Sorted Qlt (map time rows) /\ Forall valid_row rows.

(** The rows the aggregator builds from the subjects it has seen. *)
Definition aggregate (sample : list (Q * bool)) (rows : table) : table :=
  fold_left (fun rows s => tally (fst s) (snd s) rows) sample rows.

(** ** What a fit computes, for stating properties of fitted models *)

(** The censorship a fit works with: all observed when none is given. *)
Definition censorship_or_ones (event_times : list Q)
    (censorship : option (list bool)) : list bool :=
  match censorship with
  | None => ones_like event_times
  | Some c => c
  end.

(** The risk-set table of a sample. *)
Definition risk_sets (event_times : list Q) (censorship : option (list bool))
    : table :=
  aggregate (combine event_times (censorship_or_ones event_times censorship))
            [].

(** The timeline a fit reports on: the event times when none is given. *)
Definition timeline_or_events (rows : table) (timeline : option (list Q))
    : list Q :=
  match timeline with
  | None => map time rows
  | Some tl => tl
  end.

(** A timeline that starts after the origin names no time twice and does
    not name the origin. *)
Definition distinct_after_origin (timeline : option (list Q)) : Prop :=
  match timeline with
  | None => True
  | Some tl => Qltb 0 (hd 0 tl) = true -> is_unique (0 :: tl) = true
  end.

(** A sample a fit accepts: as many censorship flags as times, at least one
    subject, and a timeline with at least one point whose labels can be
    aligned with those of the estimate. *)
Definition fittable (event_times : list Q) (censorship : option (list bool))
    (timeline : option (list Q)) : Prop :=
  length event_times
  = length (censorship_or_ones event_times censorship) /\
  event_times <> [] /\
  timeline <> Some [] /\
  distinct_after_origin timeline.

(** ** The worked example of section 8 *)

(** The value a frame holds at index [x]. *)
Definition lookup (x : Q) (df : frame float) : option float :=
  option_map snd (find (fun row => Qeq_bool (fst row) x) df).

Definition example_times : list Q := [1; 2; 2; 3].

Definition example_censorship : list bool := [true; true; false; true].

(** Fitting Kaplan-Meier and the discrete Nelson-Aalen variant on the
    example yields survival [s1], [s2], [s3] and cumulative hazard [h1],
    [h2], [h3] at times 1, 2 and 3. *)
Definition worked_example (inv_normal_cdf : R -> R)
    (s1 s2 s3 h1 h2 h3 : R) : Prop :=
  exists km r na r' S H,
    KaplanMeierFitter.fit inv_normal_cdf
      (KaplanMeierFitter.__init__ (95 / 100))
      example_times (Some example_censorship) None None = Ok (km, r) /\
    NelsonAalenFitter.fit inv_normal_cdf
      (NelsonAalenFitter.__init__ (95 / 100) false)
      example_times (Some example_censorship) None None = Ok (na, r') /\
    KaplanMeierFitter.survival_function_ km = Some S /\
    NelsonAalenFitter.cumulative_hazard_ na = Some H /\
    lookup 1 S = Some (Fin s1) /\
    lookup 2 S = Some (Fin s2) /\
    lookup 3 S = Some (Fin s3) /\
    lookup 1 H = Some (Fin h1) /\
    lookup 2 H = Some (Fin h2) /\
    lookup 3 H = Some (Fin h3).

(** ** Quantile lookup (section 4.5) *)

(** The curve never drops below [q]. *)
Definition never_below (q : R) (c : list float) : Prop :=
  forall x, In x c -> ~ flt x (Fin q).

(** Position [p] is the first one where the curve is below [q]. *)
Definition first_below (q : R) (c : list float) (p : nat) : Prop :=
  (exists x, nth_error c p = Some x /\ flt x (Fin q)) /\
  (forall p' y, (p' < p)%nat -> nth_error c p' = Some y -> ~ flt y (Fin q)).

(** The statement of section 8 for every curve of [sf]: the entry is [-1]
    exactly when the curve never drops below [q], and otherwise it is the
    first position (for an array) or the index label of the first position
    (for a frame) where the curve is below [q]. *)
Definition qth_survival_times_spec (q : R) (sf : survival_functions) : Prop :=
  match sf with
  | DataFrame index columns =>
      exists v,
        qth_survival_times q sf = Ok (labels v) /\
        Forall2 (fun c r =>
                   (r = (-1)%Q <-> never_below q c) /\
                   (~ never_below q c ->
                    exists p, first_below q c p /\
                              nth_error index p = Some r))
                columns v
  | ndarray columns =>
      exists v,
        qth_survival_times q sf = Ok (positions v) /\
        Forall2 (fun c r =>
                   (r = (-1)%Z <-> never_below q c) /\
                   (~ never_below q c ->
                    (0 <= r)%Z /\ first_below q c (Z.to_nat r)))
                columns v
  end.

(** A curve that never increases; such a curve holds no [nan] unless it has
    a single point. *)
Definition nonincreasing (c : list float) : Prop :=
  StronglySorted (fun a b => fle b a) c.

(** Curves as fitted models produce them: at least one point, never
    increasing, and, for a frame, one non-negative index label per point. *)
Definition survival_curves (sf : survival_functions) : Prop :=
  match sf with
  | DataFrame index columns =>
      Forall (fun x => 0 <= x) index /\
      Forall (fun c => c <> [] /\ nonincreasing c /\
                       length c = length index) columns
  | ndarray columns =>
      Forall (fun c => c <> [] /\ nonincreasing c) columns
  end.

(** ** The first step of Aalen's recursion *)

(** The matrix [dot(X_.T, X_) - penalizer] the first step of [fit] inverts:
    the design matrix sorted by event time, with the constant column when
    an intercept is fitted and with its first row cleared when the first
    entry of the censorship array is [False]. *)
Definition first_inversion (s : AalenAdditiveFitter.self)
    (event_times : list Q) (X' : design) (censorship : option (list bool))
    : matrix :=
  let n := length (values_of X') in
  let p := (length (hd [] (values_of X'))
            + (if AalenAdditiveFitter.fit_intercept s then 1 else 0))%nat in
  let X0 :=
    map (fun i => nth i (values_of X') []
                  ++ (if AalenAdditiveFitter.fit_intercept s then [1%R]
                      else []))
        (argsort event_times) in
  let observed :=
    match censorship with
    | None => repeat true n
    | Some c => c
    end in
  let X1 :=
    if nth 0 observed true then X0 else AalenAdditiveFitter.clear_row 0 X0 in
  msub (dot p (transpose p X1) X1)
       (scaled_eye (AalenAdditiveFitter.penalizer s) p).

(** Arguments [fit] accepts up to its loop: one row of covariates and one
    censorship flag per subject, at least one subject, a timeline with at
    least one point, and as many column labels as coefficients. *)
Definition regression_input (s : AalenAdditiveFitter.self)
    (event_times : list Q) (X' : design)
    (timeline : option (list Q)) (censorship : option (list bool))
    (columns : option (list label)) : Prop :=
  length event_times = length (values_of X') /\
  event_times <> [] /\
  timeline <> Some [] /\
  match censorship with
  | None => True
  | Some c => length c = length (values_of X')
  end /\
  length (AalenAdditiveFitter.column_labels
            (length (hd [] (values_of X'))) X' columns)
  = (length (hd [] (values_of X'))
     + (if AalenAdditiveFitter.fit_intercept s then 1 else 0))%nat.

(** ** Data for running the fitters *)

(** The quantile function of the logistic distribution stands in for the
    normal one where a fit is run on concrete data: like the normal
    quantile it is positive above one half. *)
Definition logistic_quantile (p : R) : R := ln (p / (1 - p)).

(** Two subjects and no covariate: the intercept alone is fitted. *)
Definition two_subjects : list Q := [1; 2].

Definition no_covariates : design := Array [[]; []].

(** One subject with one covariate equal to one: with the intercept the
    design matrix has two equal columns. *)
Definition one_subject_times : list Q := [1].

Definition one_covariate : design := Array [[1%R]].

(** ** Increments on a valid step *)

(** On a step whose deaths [d] do not exceed the risk set [N], the
    increment is a finite non-negative number. *)
Definition nonneg_increment (h : Z -> Z -> float) : Prop :=
  forall N d, (0 <= d <= N)%Z -> exists z, h N d = Fin z /\ (0 <= z)%R.

(** The same for the risk sets below a bound [B]. *)
Definition nonneg_increment_below (B : Z) (h : Z -> Z -> float) : Prop :=
  forall N d,
    (0 <= d <= N)%Z -> (N < B)%Z -> exists z, h N d = Fin z /\ (0 <= z)%R.

(** ** Curves along a timeline *)

(** The values of a frame never decrease from one row to a later one. *)
Definition nondecreasing (df : frame float) : Prop :=
  forall i j a b,
    (i <= j)%nat ->
    nth_error df i = Some a -> nth_error df j = Some b ->
    fle (snd a) (snd b).

(** A timeline given to [fit] is in ascending order. *)
Definition ascending (timeline : option (list Q)) : Prop :=
  match timeline with
  | None => True
  | Some tl => Sorted Qle tl
  end.

(** The subjects of a sample: time and observed flag. *)
Definition subjects (event_times : list Q) (censorship : option (list bool))
    : list (Q * bool) :=
  combine event_times (censorship_or_ones event_times censorship).

(** No event is observed at or before the origin: every observed event
    time is greater than 0. *)
Definition no_event_at_origin (event_times : list Q)
    (censorship : option (list bool)) : Prop :=
  Forall (fun s => snd s = true -> 0 < fst s)
         (subjects event_times censorship).

(** The fitted Nelson-Aalen curve never decreases and, when no event is
    observed at or before the origin, is zero there. *)
Definition hazard_monotone (inv_normal_cdf : R -> R)
    (s : NelsonAalenFitter.self) (event_times : list Q)
    (censorship : option (list bool)) (timeline : option (list Q))
    (alpha : option R) (zero_at_origin : Prop) : Prop :=
  exists s' r H,
    NelsonAalenFitter.fit inv_normal_cdf s event_times censorship timeline
                          alpha = Ok (s', r) /\
    NelsonAalenFitter.cumulative_hazard_ s' = Some H /\
    nondecreasing H /\
    (zero_at_origin -> forall x y, In (x, y) H -> x == 0 -> y = Fin 0).

(** ** Ties *)

(** The times of the subjects whose event was observed. *)
Definition observed_times (sample : list (Q * bool)) : list Q :=
  map fst (filter snd sample).

(** The observed event times are all distinct. *)
Definition no_ties (event_times : list Q) (censorship : option (list bool))
    : Prop :=
  ForallOrdPairs (fun a b => ~ a == b)
                 (observed_times (subjects event_times censorship)).

(** The smooth and the discrete variant, fitted on the same sample, hold
    the same cumulative-hazard curve. *)
Definition same_hazard_curve (inv_normal_cdf : R -> R) (alpha0 : R)
    (event_times : list Q) (censorship : option (list bool))
    (timeline : option (list Q)) (alpha : option R) : Prop :=
  exists smooth discrete r1 r2 H,
    NelsonAalenFitter.fit inv_normal_cdf
      (NelsonAalenFitter.__init__ alpha0 true)
      event_times censorship timeline alpha = Ok (smooth, r1) /\
    NelsonAalenFitter.fit inv_normal_cdf
      (NelsonAalenFitter.__init__ alpha0 false)
      event_times censorship timeline alpha = Ok (discrete, r2) /\
    NelsonAalenFitter.cumulative_hazard_ smooth = Some H /\
    NelsonAalenFitter.cumulative_hazard_ discrete = Some H.

(** ** Degenerate samples (section 7) *)

(** Both nonparametric fits run to completion and their curves stay at the
    initial value at every timeline point: cumulative hazard 0, survival
    1. *)
Definition flat_fits (inv_normal_cdf : R -> R)
    (na : NelsonAalenFitter.self) (km : KaplanMeierFitter.self)
    (event_times : list Q) (censorship : option (list bool))
    (timeline : option (list Q)) (alpha : option R) : Prop :=
  exists na' km' r r' H S,
    NelsonAalenFitter.fit inv_normal_cdf na event_times censorship timeline
                          alpha = Ok (na', r) /\
    KaplanMeierFitter.fit inv_normal_cdf km event_times censorship timeline
                          alpha = Ok (km', r') /\
    NelsonAalenFitter.cumulative_hazard_ na' = Some H /\
    KaplanMeierFitter.survival_function_ km' = Some S /\
    Forall (fun row => snd row = Fin 0) H /\
    Forall (fun row => snd row = Fin 1) S.

(** ** Confidence bands *)

(** The sample has fewer than [2^21 = 2097152] subjects: the cube of the
    initial risk set, and so every power and product of counts the variance
    increments take, is less than [2^63] and fits an [int64]. *)
Definition fits_int64 (event_times : list Q) : Prop :=
  (Z.of_nat (length event_times) < 2 ^ 21)%Z.




(** The confidence level a fit works with. *)
Definition NelsonAalen_level (s : NelsonAalenFitter.self) (alpha : option R)
    : R :=
  match alpha with
  | None => NelsonAalenFitter.alpha s
  | Some a => a
  end.

Definition KaplanMeier_level (s : KaplanMeierFitter.self) (alpha : option R)
    : R :=
  match alpha with
  | Some a =>
      if KaplanMeierFitter.falsy alpha then KaplanMeierFitter.alpha s else a
  | None => KaplanMeierFitter.alpha s
  end.





Definition positive (x : float) : Prop := flt (Fin 0) x.

Definition strictly_between_0_and_1 (x : float) : Prop :=
  flt (Fin 0) x /\ flt x (Fin 1).

(** Every entry of a frame of variances is non-negative. *)
Definition nonneg_frame (df : AalenAdditiveFitter.frames) : Prop :=
  Forall (fun r => Forall (fun x => 0 <= x)%R (snd r)) df.

(** * Further properties of the code: definitions *)

(** ** What [_additive_estimate] does with its arguments *)

(** An empty timeline is an index error ([timeline[0]]), an empty table
    leaves [t] unbound after the loop, and otherwise both frames come back
    indexed by the timeline, with the origin in front when the timeline
    starts after it. *)
Definition additive_estimate_outcome {V : Type} (zero : V)
    (add : V -> V -> V) (f g : Z -> Z -> V) (rows : table)
    (timeline : list Q) : Prop :=
  match timeline, rows with
  | [], _ => _additive_estimate zero add rows timeline f g = Err IndexError
  | _ :: _, [] =>
      _additive_estimate zero add rows timeline f g = Err UnboundLocalError
  | t1 :: _, _ :: _ =>
      exists est var,
        _additive_estimate zero add rows timeline f g = Ok (est, var) /\
        map fst est = (if Qltb 0 t1 then 0 :: timeline else timeline) /\
        map fst var = (if Qltb 0 t1 then 0 :: timeline else timeline)
  end.

(** ** What the nonparametric fitters hold after [fit] *)

(** The Nelson-Aalen fitter after a fit: [fit] has returned [None]; the
    fitter keeps its settings and holds the censorship it worked with, the
    risk-set table, the timeline as given (the event times when none is
    given), the estimate on that timeline with the origin in front when it
    starts later, and the bands on the timeline as given. *)
Definition NelsonAalen_fitted (inv_normal_cdf : R -> R)
    (s : NelsonAalenFitter.self) (event_times : list Q)
    (censorship : option (list bool)) (timeline : option (list Q))
    (alpha : option R) : Prop :=
  let rows := risk_sets event_times censorship in
  exists s' tl H ci,
    NelsonAalenFitter.fit inv_normal_cdf s event_times censorship timeline
                          alpha = Ok (s', PyNone) /\
    NelsonAalenFitter.alpha s' = NelsonAalenFitter.alpha s /\
    NelsonAalenFitter.nelson_aalen_smoothing s'
    = NelsonAalenFitter.nelson_aalen_smoothing s /\
    NelsonAalenFitter.censorship s'
    = Some (censorship_or_ones event_times censorship) /\
    NelsonAalenFitter.event_times s' = Some rows /\
    NelsonAalenFitter.timeline s' = Some (timeline_or_events rows timeline) /\
    with_origin (timeline_or_events rows timeline) = Ok tl /\
    NelsonAalenFitter.cumulative_hazard_ s' = Some H /\
    map fst H = tl /\
    NelsonAalenFitter.confidence_interval_ s' = Some ci /\
    map at_time ci = timeline_or_events rows timeline.

(** The same for the Kaplan-Meier fitter, which is itself the value of
    [fit] and also holds the median of its survival function. *)
Definition KaplanMeier_fitted (inv_normal_cdf : R -> R)
    (s : KaplanMeierFitter.self) (event_times : list Q)
    (censorship : option (list bool)) (timeline : option (list Q))
    (alpha : option R) : Prop :=
  let rows := risk_sets event_times censorship in
  exists s' tl surv m ci,
    KaplanMeierFitter.fit inv_normal_cdf s event_times censorship timeline
                          alpha = Ok (s', PySelf s') /\
    KaplanMeierFitter.alpha s' = KaplanMeierFitter.alpha s /\
    KaplanMeierFitter.censorship s'
    = Some (censorship_or_ones event_times censorship) /\
    KaplanMeierFitter.event_times s' = Some rows /\
    KaplanMeierFitter.timeline s' = Some (timeline_or_events rows timeline) /\
    with_origin (timeline_or_events rows timeline) = Ok tl /\
    KaplanMeierFitter.survival_function_ s' = Some surv /\
    map fst surv = tl /\
    KaplanMeierFitter.median_ s' = Some m /\
    median_survival_times (DataFrame (map fst surv) [map snd surv]) = Ok m /\
    KaplanMeierFitter.confidence_interval_ s' = Some ci /\
    map at_time ci = timeline_or_events rows timeline.

(** ** The Kaplan-Meier curve *)

(** A finite number between 0 and 1. *)
Definition probability (y : float) : Prop :=
  exists p, y = Fin p /\ (0 <= p <= 1)%R.

(** The values of a frame never increase from one row to a later one. *)
Definition nonincreasing_frame (df : frame float) : Prop :=
  forall i j a b,
    (i <= j)%nat ->
    nth_error df i = Some a -> nth_error df j = Some b ->
    fle (snd b) (snd a).

(** The fitted survival function holds probabilities, never increases
    and, when no event is observed at or before the origin, is one
    there. *)
Definition survival_monotone (inv_normal_cdf : R -> R)
    (s : KaplanMeierFitter.self) (event_times : list Q)
    (censorship : option (list bool)) (timeline : option (list Q))
    (alpha : option R) (one_at_origin : Prop) : Prop :=
  exists s' r surv,
    KaplanMeierFitter.fit inv_normal_cdf s event_times censorship timeline
                          alpha = Ok (s', r) /\
    KaplanMeierFitter.survival_function_ s' = Some surv /\
    Forall (fun row => probability (snd row)) surv /\
    nonincreasing_frame surv /\
    (one_at_origin -> forall x y, In (x, y) surv -> x == 0 -> y = Fin 1).

(** The labels a fit reports on are not negative. *)
Definition nonneg_labels (event_times : list Q) (timeline : option (list Q))
    : Prop :=
  match timeline with
  | None => Forall (fun x => 0 <= x) event_times
  | Some tl => Forall (fun x => 0 <= x) tl
  end.

(** The median the fitter holds is [-1] exactly when its survival function
    never drops below one half, and otherwise the first label of the
    function at which it is below one half. *)
Definition median_is_first_crossing (inv_normal_cdf : R -> R)
    (s : KaplanMeierFitter.self) (event_times : list Q)
    (censorship : option (list bool)) (timeline : option (list Q))
    (alpha : option R) : Prop :=
  exists s' r surv m,
    KaplanMeierFitter.fit inv_normal_cdf s event_times censorship timeline
                          alpha = Ok (s', r) /\
    KaplanMeierFitter.survival_function_ s' = Some surv /\
    KaplanMeierFitter.median_ s' = Some (labels [m]) /\
    (m = (-1)%Q <-> never_below (1 / 2) (map snd surv)) /\
    (~ never_below (1 / 2) (map snd surv) ->
     exists p, first_below (1 / 2) (map snd surv) p /\
               nth_error (map fst surv) p = Some m).

(** ** The estimators compared *)

(** Two frames on the same index, the values of the first related to those
    of the second row by row. *)
Definition rowwise (P : float -> float -> Prop) (df df' : frame float)
    : Prop :=
  Forall2 (fun a b => fst a = fst b /\ P (snd a) (snd b)) df df'.

(** Fitted on the same sample, the smooth variant is nowhere below the
    discrete one. *)
Definition smooth_dominates_discrete (inv_normal_cdf : R -> R) (alpha0 : R)
    (event_times : list Q) (censorship : option (list bool))
    (timeline : option (list Q)) (alpha : option R) : Prop :=
  exists smooth discrete r1 r2 Hs Hd,
    NelsonAalenFitter.fit inv_normal_cdf
      (NelsonAalenFitter.__init__ alpha0 true)
      event_times censorship timeline alpha = Ok (smooth, r1) /\
    NelsonAalenFitter.fit inv_normal_cdf
      (NelsonAalenFitter.__init__ alpha0 false)
      event_times censorship timeline alpha = Ok (discrete, r2) /\
    NelsonAalenFitter.cumulative_hazard_ smooth = Some Hs /\
    NelsonAalenFitter.cumulative_hazard_ discrete = Some Hd /\
    rowwise (fun d s => fle d s) Hd Hs.

(** Fitted on the same sample, the Kaplan-Meier survival is nowhere above
    the exponential of minus the Nelson-Aalen cumulative hazard. *)
Definition survival_below_exp_hazard (inv_normal_cdf : R -> R)
    (km : KaplanMeierFitter.self) (na : NelsonAalenFitter.self)
    (event_times : list Q) (censorship : option (list bool))
    (timeline : option (list Q)) (alpha : option R) : Prop :=
  exists km' na' r r' surv H,
    KaplanMeierFitter.fit inv_normal_cdf km event_times censorship timeline
                          alpha = Ok (km', r) /\
    NelsonAalenFitter.fit inv_normal_cdf na event_times censorship timeline
                          alpha = Ok (na', r') /\
    KaplanMeierFitter.survival_function_ km' = Some surv /\
    NelsonAalenFitter.cumulative_hazard_ na' = Some H /\
    rowwise (fun sv h => fle sv (fexp (fneg h))) surv H.

(** ** Quantile lookup on any curve *)

(** The last point of the curve is below [q]. *)
Definition last_point_below (q : R) (c : list float) : Prop :=
  flt (last c NaN) (Fin q).

(** Frames and arrays with at least one row (and, for a frame, one index
    label per row). *)
Definition curves_present (sf : survival_functions) : Prop :=
  match sf with
  | DataFrame index columns =>
      Forall (fun c => c <> [] /\ length c = length index) columns
  | ndarray columns => Forall (fun c => c <> []) columns
  end.

(** What [qth_survival_times] returns for every curve: [-1] when the last
    point of the curve is not below [q], and otherwise the first position
    (or its index label) at which the curve is below [q]. *)
Definition qth_by_last_point (q : R) (sf : survival_functions) : Prop :=
  match sf with
  | DataFrame index columns =>
      exists v,
        qth_survival_times q sf = Ok (labels v) /\
        Forall2 (fun c r =>
                   (~ last_point_below q c -> r = (-1)%Q) /\
                   (last_point_below q c ->
                    exists p, first_below q c p /\
                              nth_error index p = Some r))
                columns v
  | ndarray columns =>
      exists v,
        qth_survival_times q sf = Ok (positions v) /\
        Forall2 (fun c r =>
                   (~ last_point_below q c -> r = (-1)%Z) /\
                   (last_point_below q c ->
                    (0 <= r)%Z /\ first_below q c (Z.to_nat r)))
                columns v
  end.

(** ** Aalen's additive regression *)

(** The event times in the order [fit] visits them. *)
Definition sorted_event_times (event_times : list Q) : list Q :=
  map (fun i => nth i event_times 0) (argsort event_times).

(** The fitter after a fit: it keeps its settings and holds the design and
    the censorship as given, the column labels, the timeline with the
    origin in front when it starts later, the cumulative hazards, the
    variance (of non-negative entries) and both blocks of confidence
    intervals on that timeline, and the hazards on the sorted event
    times. *)
Definition Aalen_fitted (s : AalenAdditiveFitter.self)
    (event_times : list Q) (X' : design) (timeline : option (list Q))
    (censorship : option (list bool)) (columns : option (list label))
    (s' : AalenAdditiveFitter.self) : Prop :=
  exists tl cum hz var ci,
    with_origin (match timeline with
                 | None => sorted_event_times event_times
                 | Some t => t
                 end) = Ok tl /\
    AalenAdditiveFitter.fit_intercept s'
    = AalenAdditiveFitter.fit_intercept s /\
    AalenAdditiveFitter.alpha s' = AalenAdditiveFitter.alpha s /\
    AalenAdditiveFitter.penalizer s' = AalenAdditiveFitter.penalizer s /\
    AalenAdditiveFitter.timeline s' = Some tl /\
    AalenAdditiveFitter.X s' = Some X' /\
    AalenAdditiveFitter.censorship s' = Some censorship /\
    AalenAdditiveFitter.columns_ s'
    = Some (AalenAdditiveFitter.column_labels
              (length (hd [] (values_of X'))) X' columns) /\
    AalenAdditiveFitter.cumulative_hazards_ s' = Some cum /\
    map fst cum = tl /\
    AalenAdditiveFitter.hazards_ s' = Some hz /\
    map fst hz = sorted_event_times event_times /\
    AalenAdditiveFitter._variance s' = Some var /\
    map fst var = tl /\
    nonneg_frame var /\
    AalenAdditiveFitter.confidence_intervals_ s' = Some ci /\
    map fst (AalenAdditiveFitter.upper_ ci) = tl /\
    map fst (AalenAdditiveFitter.lower_ ci) = tl.

(** As many labels are given as the design has covariates: by the
    [columns] argument, else by the frame, else by [range(d)]. *)
Definition one_label_per_covariate (X' : design)
    (columns : option (list label)) : Prop :=
  match columns, X' with
  | Some c, _ => length c = length (hd [] (values_of X'))
  | None, Frame c _ => length c = length (hd [] (values_of X'))
  | None, Array _ => True
  end.

(** Every row of the frame at or before time [x] holds zeros only. *)
Definition zero_until (x : Q) (df : AalenAdditiveFitter.frames) : Prop :=
  forall y row, In (y, row) df -> y <= x -> Forall (fun c => c = 0%R) row.

(** The number of coefficients of a fit on [X']. *)
Definition coefficients (s : AalenAdditiveFitter.self) (X' : design) : nat :=
  length (hd [] (values_of X'))
  + (if AalenAdditiveFitter.fit_intercept s then 1 else 0).

(** ** Predictions of Aalen's fitter *)

(** A design with the covariates of the fit and as many rows as the fit
    has coefficients. *)
Definition predictable (s : AalenAdditiveFitter.self) (X' X_new : design)
    : Prop :=
  length (hd [] (values_of X_new)) = length (hd [] (values_of X')) /\
  length (values_of X_new) = coefficients s X'.

(** The three predictions for [X_new]: cumulative hazards and survival
    functions on the timeline of the fitter, one column per row of
    [X_new], and one median per row of [X_new]. *)
Definition predictions (s' : AalenAdditiveFitter.self) (X_new : design)
    : Prop :=
  exists tl columns H surv v,
    AalenAdditiveFitter.timeline s' = Some tl /\
    AalenAdditiveFitter.predict_cumulative_hazard s' X_new
    = Ok (columns, H) /\
    map fst H = tl /\
    Forall (fun r => length (snd r) = length (values_of X_new)) H /\
    AalenAdditiveFitter.predict_survival_function s' X_new
    = Ok (columns, surv) /\
    map fst surv = tl /\
    AalenAdditiveFitter.predict_median_lifetimes s' X_new = Ok (labels v) /\
    length v = length (values_of X_new).

(** The three predictions raise [ValueError]. *)
Definition no_predictions (s' : AalenAdditiveFitter.self) (X_new : design)
    : Prop :=
  AalenAdditiveFitter.predict_cumulative_hazard s' X_new = Err ValueError /\
  AalenAdditiveFitter.predict_survival_function s' X_new = Err ValueError /\
  AalenAdditiveFitter.predict_median_lifetimes s' X_new = Err ValueError.

(** ** The end of the Kaplan-Meier curve *)

(** Before the last time of the risk-set table the fitted survival is
    positive; from the last time on it is zero when the last row counts an
    observed death, and it is positive everywhere when the last row counts
    none. *)
Definition survival_at_the_end (inv_normal_cdf : R -> R)
    (s : KaplanMeierFitter.self) (event_times : list Q)
    (censorship : option (list bool)) (timeline : option (list Q))
    (alpha : option R) : Prop :=
  exists s' r front last_row surv,
    KaplanMeierFitter.fit inv_normal_cdf s event_times censorship timeline
                          alpha = Ok (s', r) /\
    KaplanMeierFitter.event_times s' = Some (front ++ [last_row]) /\
    KaplanMeierFitter.survival_function_ s' = Some surv /\
    (forall x y, In (x, y) surv -> x < time last_row -> flt (Fin 0) y) /\
    ((0 < observed_deaths last_row)%Z ->
     forall x y, In (x, y) surv -> time last_row <= x -> y = Fin 0) /\
    (observed_deaths last_row = 0%Z ->
     forall x y, In (x, y) surv -> flt (Fin 0) y).

(** ** The range of the confidence bands *)

(** Both bounds are non-negative, a number from 0 on or [inf], and so
    neither is [nan]. *)
Definition nonneg_band (b : band) : Prop :=
  fle (Fin 0) (lower b) /\ fle (Fin 0) (upper b).

(** Both bounds lie between 0 and 1, the ends included. *)
Definition probability_band (b : band) : Prop :=
  (fle (Fin 0) (lower b) /\ fle (lower b) (Fin 1)) /\
  (fle (Fin 0) (upper b) /\ fle (upper b) (Fin 1)).

(** One band per point of the timeline, and the band at a point satisfies
    [within] when the estimate there satisfies [where_]. *)
Definition bands_where (where_ : float -> Prop) (within : band -> Prop)
    (timeline : list Q) (estimate : frame float) (ci : list band) : Prop :=
  map at_time ci = timeline /\
  Forall (fun b =>
            exists x y,
              In (x, y) estimate /\ x == at_time b /\
              (where_ y -> within b))
         ci.

(** The bands of both nonparametric fits stay in the range of the
    estimate: not below 0 where the cumulative hazard is positive, between
    0 and 1 where the survival is strictly between 0 and 1. *)
Definition bands_in_range (inv_normal_cdf : R -> R)
    (na : NelsonAalenFitter.self) (km : KaplanMeierFitter.self)
    (event_times : list Q) (censorship : option (list bool))
    (timeline : option (list Q)) (alpha : option R) : Prop :=
  (exists s' r index H ci,
      NelsonAalenFitter.fit inv_normal_cdf na event_times censorship
                            timeline alpha = Ok (s', r) /\
      NelsonAalenFitter.timeline s' = Some index /\
      NelsonAalenFitter.cumulative_hazard_ s' = Some H /\
      NelsonAalenFitter.confidence_interval_ s' = Some ci /\
      bands_where positive nonneg_band index H ci) /\
  (exists s' r index surv ci,
      KaplanMeierFitter.fit inv_normal_cdf km event_times censorship
                            timeline alpha = Ok (s', r) /\
      KaplanMeierFitter.timeline s' = Some index /\
      KaplanMeierFitter.survival_function_ s' = Some surv /\
      KaplanMeierFitter.confidence_interval_ s' = Some ci /\
      bands_where strictly_between_0_and_1 probability_band index surv ci).
(** * Properties *)

(** ** Times and masks *)

Lemma Qltb_lt (a b : Q) : Qltb a b = true <-> a < b.
Proof.
  unfold Qltb. rewrite negb_true_iff, <- not_true_iff_false, Qle_bool_iff.
  split; [apply Qnot_le_lt | apply Qlt_not_le].
Qed.

Lemma Qltb_ge (a b : Q) : Qltb a b = false <-> b <= a.
Proof.
  unfold Qltb. rewrite negb_false_iff. apply Qle_bool_iff.
Qed.

Lemma Qle_bool_gt (a b : Q) : Qle_bool a b = false <-> b < a.
Proof.
  rewrite <- not_true_iff_false, Qle_bool_iff.
  split; [apply Qnot_le_lt | apply Qlt_not_le].
Qed.

Lemma last_cons {A : Type} (a d : A) (l : list A) :
  last (a :: l) d = last l a.
Proof.
  revert a d. induction l as [|b l IH]; intros a d; [reflexivity|].
  change (last (a :: b :: l) d) with (last (b :: l) d).
  now rewrite !IH.
Qed.

Lemma last_in {A : Type} (a d : A) (l : list A) :
  In (last (a :: l) d) (a :: l).
Proof.
  revert a. induction l as [|b l IH]; intros a; [now left|].
  right. apply IH.
Qed.

Lemma sorted_times_bound (t1 : Q) (ts : list Q) :
  Sorted Qle (t1 :: ts) -> Forall (fun x => t1 <= x) ts.
Proof.
  intros H. apply Sorted_StronglySorted in H.
  - now inversion H.
  - intros x y z. apply Qle_trans.
Qed.

(** ** The loop of [_additive_estimate] *)

Section AdditiveEstimateLoop.

Variable V : Type.
Variable zero : V.
Variable add : V -> V -> V.
Variables f g : Z -> Z -> V.

Local Abbreviation accumulated := (accumulated add).
Local Abbreviation curve := (curve add).
Local Abbreviation curve_of := (curve_of zero add).

Lemma upto_all_later (x t1 : Q) (rows : table) :
  x < t1 -> Forall (fun y => t1 <= y) (map time rows) -> upto x rows = [].
Proof.
  intros Hx H. induction rows as [|r rs IH]; [reflexivity|].
  inversion H; subst. simpl.
  replace (Qle_bool (time r) x) with false.
  - now apply IH.
  - symmetry. apply Qle_bool_gt. eapply Qlt_le_trans; eauto.
Qed.

Lemma loop_invariant (rows : table) :
  forall s : locals V,
    Sorted Qle (t_0 s :: map time rows) ->
    let s' := fold_left (loop_body add f g) rows s in
    t_0 s' = last (map time rows) (t_0 s) /\
    (t s = Some (t_0 s) \/ rows <> [] -> t s' = Some (t_0 s')) /\
    assign (fun x => Qle_bool (t_0 s') x) (v s') (_additive_estimate_ s')
    = curve f rows (N s) (v s) (t_0 s) (_additive_estimate_ s) /\
    assign (fun x => Qle_bool (t_0 s') x) (v_sq s') (_additive_var s')
    = curve g rows (N s) (v_sq s) (t_0 s) (_additive_var s).
Proof.
  induction rows as [|r rs IH]; intros s Hs; cbn zeta.
  - simpl. repeat split; try reflexivity. intros [H|H]; congruence.
  - simpl fold_left.
    assert (Hle : t_0 s <= time r).
    { simpl in Hs. inversion Hs as [|? ? _ Hd]; subst. now inversion Hd. }
    assert (Hrs : Sorted Qle (time r :: map time rs)).
    { simpl in Hs. now inversion Hs. }
    assert (Hall := sorted_times_bound Hrs).
    specialize (IH (loop_body add f g s r) Hrs).
    cbn zeta in IH. destruct IH as (Ht0 & Ht & He & Hv).
    split; [|split; [|split]].
    + rewrite Ht0. simpl map. now rewrite last_cons.
    + intros _. apply Ht. now left.
    + rewrite He. unfold curve, loop_body, assign; simpl.
      rewrite map_map. apply map_ext. intros [x y]; simpl.
      destruct (Qle_bool (t_0 s) x) eqn:E0; simpl;
        destruct (Qltb x (time r)) eqn:E1; simpl.
      * apply Qltb_lt in E1.
        replace (Qle_bool (time r) x) with false
          by (symmetry; now apply Qle_bool_gt).
        now rewrite (upto_all_later rs E1 Hall).
      * apply Qltb_ge in E1. apply Qle_bool_iff in E1. now rewrite E1.
      * apply Qltb_lt in E1.
        replace (Qle_bool (time r) x) with false
          by (symmetry; now apply Qle_bool_gt).
        reflexivity.
      * exfalso. apply Qltb_ge in E1. apply Qle_bool_gt in E0.
        apply (Qlt_irrefl x). eapply Qlt_le_trans; [exact E0|].
        eapply Qle_trans; eauto.
    + rewrite Hv. unfold curve, loop_body, assign; simpl.
      rewrite map_map. apply map_ext. intros [x y]; simpl.
      destruct (Qle_bool (t_0 s) x) eqn:E0; simpl;
        destruct (Qltb x (time r)) eqn:E1; simpl.
      * apply Qltb_lt in E1.
        replace (Qle_bool (time r) x) with false
          by (symmetry; now apply Qle_bool_gt).
        now rewrite (upto_all_later rs E1 Hall).
      * apply Qltb_ge in E1. apply Qle_bool_iff in E1. now rewrite E1.
      * apply Qltb_lt in E1.
        replace (Qle_bool (time r) x) with false
          by (symmetry; now apply Qle_bool_gt).
        reflexivity.
      * exfalso. apply Qltb_ge in E1. apply Qle_bool_gt in E0.
        apply (Qlt_irrefl x). eapply Qlt_le_trans; [exact E0|].
        eapply Qle_trans; eauto.
Qed.

Lemma assign_same (mask : Q -> bool) (tl : list Q) :
  assign mask zero (map (fun x => (x, zero)) tl)
  = map (fun x => (x, zero)) tl.
Proof.
  unfold assign. rewrite map_map. apply map_ext. intros x; simpl.
  now destruct (mask x).
Qed.

Lemma additive_estimate_curve (rows : table) (timeline tl : list Q) :
  rows <> [] ->
  Sorted Qle (map time rows) ->
  with_origin timeline = Ok tl ->
  _additive_estimate zero add rows timeline f g
  = Ok (curve_of f rows tl, curve_of g rows tl).
Proof.
  intros Hne Hs Htl. unfold _additive_estimate. rewrite Htl. simpl bind.
  destruct rows as [|r rs]; [congruence|]. clear Hne.
  simpl fold_left.
  match goal with
  | |- context [fold_left _ rs ?s] => set (s1 := s)
  end.
  assert (Hs1 : Sorted Qle (t_0 s1 :: map time rs)) by exact Hs.
  destruct (loop_invariant rs s1 Hs1) as (_ & Ht & He & Hv).
  rewrite Ht by (now left). rewrite He, Hv.
  assert (Hall := sorted_times_bound Hs1).
  unfold s1, loop_body, curve, curve_of; simpl.
  rewrite !assign_same. rewrite !map_map.
  f_equal; f_equal; apply map_ext; intros x; simpl;
    destruct (Qle_bool (time r) x) eqn:E; try reflexivity;
    apply Qle_bool_gt in E; now rewrite (upto_all_later rs E Hall).
Qed.

Lemma upto_firstn (rows : table) (i : nat) (r : RiskSetRow) (x : Q) :
  Sorted Qle (map time rows) ->
  nth_error rows i = Some r ->
  (i <> O -> cursor rows i <= x) ->
  x < time r ->
  upto x rows = firstn i rows.
Proof.
  revert i. induction rows as [|r1 rs IH]; intros i Hs Hi Hlo Hhi.
  - now destruct i.
  - simpl in Hs. assert (Hall := sorted_times_bound Hs).
    destruct i as [|i]; simpl in Hi.
    + injection Hi as ->. simpl.
      replace (Qle_bool (time r) x) with false
        by (symmetry; now apply Qle_bool_gt).
      now apply (upto_all_later rs Hhi).
    + assert (Hr1 : time r1 <= x).
      { specialize (Hlo (Nat.neq_succ_0 i)). simpl in Hlo.
        destruct i as [|j]; [exact Hlo|].
        eapply Qle_trans; [|exact Hlo].
        rewrite Forall_forall in Hall. apply Hall.
        apply nth_In. rewrite length_map.
        assert (S j < length rs)%nat; [|lia].
        apply nth_error_Some. rewrite Hi. discriminate. }
      simpl. apply Qle_bool_iff in Hr1. rewrite Hr1. f_equal.
      apply IH; trivial.
      * now inversion Hs.
      * intros Hi0. destruct i as [|j]; [congruence|].
        exact (Hlo (Nat.neq_succ_0 _)).
Qed.

Lemma upto_all (rows : table) (x : Q) :
  Sorted Qle (map time rows) ->
  last (map time rows) x <= x ->
  upto x rows = rows.
Proof.
  induction rows as [|r rs IH]; intros Hs Hx; [reflexivity|].
  simpl in Hs, Hx. assert (Hall := sorted_times_bound Hs).
  assert (Hr : time r <= x).
  { destruct rs as [|r2 rs]; [exact Hx|].
    eapply Qle_trans; [|exact Hx].
    rewrite Forall_forall in Hall. apply Hall.
    apply (last_in (time r2) x (map time rs)). }
  simpl. apply Qle_bool_iff in Hr. rewrite Hr. f_equal.
  apply IH; [now inversion Hs|].
  destruct rs as [|r2 rs]; [apply Qle_refl|exact Hx].
Qed.

End AdditiveEstimateLoop.

Lemma accumulated_app {V : Type} (add : V -> V -> V) (f : Z -> Z -> V)
    (rows1 rows2 : table) (N : Z) (v : V) :
  accumulated add f (rows1 ++ rows2) N v
  = accumulated add f rows2
      (fold_left (fun n r => (n - missing r - observed_deaths r)%Z) rows1 N)
      (accumulated add f rows1 N v).
Proof.
  revert N v. induction rows1 as [|r rs IH]; intros N v; [reflexivity|].
  simpl. apply IH.
Qed.

Lemma firstn_succ {A : Type} (l : list A) (i : nat) (a : A) :
  nth_error l i = Some a -> firstn (S i) l = firstn i l ++ [a].
Proof.
  revert i. induction l as [|b l IH]; intros [|i] H; try discriminate.
  - now injection H as ->.
  - simpl in H. change (b :: firstn (S i) l = b :: (firstn i l ++ [a])).
    f_equal. now apply IH.
Qed.

Lemma accumulated_step {V : Type} (add : V -> V -> V) (f : Z -> Z -> V)
    (rows : table) (i : nat) (r : RiskSetRow) (v : V) :
  nth_error rows i = Some r ->
  accumulated add f (firstn (S i) rows) (total_removed rows) v
  = add (accumulated add f (firstn i rows) (total_removed rows) v)
        (f (risk_set rows i - missing r)%Z (observed_deaths r)).
Proof.
  intros H. rewrite (firstn_succ _ _ H), accumulated_app. reflexivity.
Qed.

Lemma in_curve_of {V : Type} (zero : V) (add : V -> V -> V)
    (h : Z -> Z -> V) (rows : table) (tl : list Q) (x : Q) (y : V) :
  In (x, y) (curve_of zero add h rows tl) ->
  y = accumulated add h (upto x rows) (total_removed rows) zero.
Proof.
  unfold curve_of. rewrite in_map_iff. intros (x' & E & _).
  now injection E as -> <-.
Qed.

Lemma map_fst_curve_of {V : Type} (zero : V) (add : V -> V -> V)
    (h : Z -> Z -> V) (rows : table) (tl : list Q) :
  map fst (curve_of zero add h rows tl) = tl.
Proof.
  unfold curve_of. rewrite map_map. simpl. apply map_id.
Qed.

Lemma with_origin_nonempty (timeline : list Q) :
  timeline <> [] -> exists tl, with_origin timeline = Ok tl.
Proof.
  destruct timeline as [|t1 tl]; [congruence|]. intros _.
  eexists. reflexivity.
Qed.

(** C1. On a non-empty risk-set table with rows ascending in time and a
    non-empty timeline, [_additive_estimate] assigns the running [v] and
    [v_sq] to the timeline points of the closed-open interval [[t0, t)] of
    each step, removes [missing] from [N] before applying [f N d] and
    [g N d], removes [d] from [N] after, and assigns the final [v] and
    [v_sq] to every point at or after the last event time. *)
Theorem additive_estimate_stepwise :
  forall (V : Type) (zero : V) (add : V -> V -> V) (f g : Z -> Z -> V)
         (rows : table) (timeline : list Q),
    rows <> [] ->
    timeline <> [] ->
    Sorted Qle (map time rows) ->
    stepwise zero add f g rows timeline.
Proof.
  intros V zero add f g rows timeline Hrows Htl Hs.
  destruct (with_origin_nonempty Htl) as [tl Etl].
  exists tl, (curve_of zero add f rows tl), (curve_of zero add g rows tl).
  split; [exact Etl|].
  split; [now apply additive_estimate_curve|].
  split; [apply map_fst_curve_of|].
  split; [apply map_fst_curve_of|].
  split; [|split].
  - intros i r x y Hi Hlo Hhi.
    assert (E : upto x rows = firstn i rows)
      by (eapply upto_firstn; eauto).
    split; intros Hin; apply in_curve_of in Hin; now rewrite E in Hin.
  - intros i r Hi. split; [|split].
    + unfold risk_set. rewrite (firstn_succ _ _ Hi), fold_left_app.
      reflexivity.
    + now apply accumulated_step.
    + now apply accumulated_step.
  - intros x y Hx.
    assert (E : upto x rows = rows).
    { apply upto_all; trivial.
      destruct rows as [|r rs]; [congruence|].
      simpl map in *. now rewrite last_cons in *. }
    split; intros Hin; apply in_curve_of in Hin; now rewrite E in Hin.
Qed.

(** ** Arithmetic of idealised floats *)

Lemma Rsign_pos (x : R) : (0 < x)%R -> Rsign x = Gt.
Proof.
  intros H. unfold Rsign.
  destruct (total_order_T x 0) as [[H1|H1]|H1]; trivial; exfalso; lra.
Qed.

Lemma Rsign_neg (x : R) : (x < 0)%R -> Rsign x = Lt.
Proof.
  intros H. unfold Rsign.
  destruct (total_order_T x 0) as [[H1|H1]|H1]; trivial; exfalso; lra.
Qed.

Lemma Rsign_zero (x : R) : x = 0%R -> Rsign x = Eq.
Proof.
  intros H. unfold Rsign.
  destruct (total_order_T x 0) as [[H1|H1]|H1]; trivial; exfalso; lra.
Qed.

Lemma Rsign_IZR (n : Z) : Rsign (IZR n) = (n ?= 0)%Z.
Proof.
  destruct (Z.compare_spec n 0) as [H|H|H].
  - apply Rsign_zero. now subst.
  - apply Rsign_neg. now apply (IZR_lt n 0).
  - apply Rsign_pos. now apply (IZR_lt 0 n).
Qed.

Lemma fdiv_int (a : R) (n : Z) :
  n <> 0%Z -> fdiv (Fin a) (Fin (IZR n)) = Fin (a / IZR n).
Proof.
  intros H. unfold fdiv. rewrite Rsign_IZR.
  destruct (Z.compare_spec n 0); congruence.
Qed.

Lemma fdiv_int_zero (a : R) :
  fdiv (Fin a) (Fin (IZR 0)) = signed_inf (Rsign a).
Proof.
  unfold fdiv. now rewrite Rsign_IZR.
Qed.

Lemma fle_refl_fin (x : R) : fle (Fin x) (Fin x).
Proof. simpl. lra. Qed.

Lemma fle_trans (a b c : float) : fle a b -> fle b c -> fle a c.
Proof.
  destruct a, b, c; simpl; try tauto. lra.
Qed.

(** ** The increments of the Nelson-Aalen estimator *)

Lemma range_succ (d : Z) :
  (0 <= d)%Z -> range (d + 1) = range d ++ [d].
Proof.
  intros H. unfold range.
  replace (Z.to_nat (d + 1)) with (S (Z.to_nat d)) by lia.
  rewrite seq_S, map_app. simpl. now rewrite Z2Nat.id.
Qed.

Lemma range_nonpos (d : Z) : (d <= 0)%Z -> range d = [].
Proof.
  intros H. unfold range. now replace (Z.to_nat d) with O by lia.
Qed.

Lemma fold_Rplus_nonneg (l : list R) (a : R) :
  Forall (fun x => 0 <= x)%R l -> (a <= fold_left Rplus l a)%R.
Proof.
  revert a. induction l as [|x l IH]; intros a H; simpl; [lra|].
  inversion H; subst. specialize (IH (a + x)%R H3). lra.
Qed.

(** Without ties the two variants add the same increment. *)
Lemma additive_f_smooth_discrete (N d : Z) :
  (0 <= d <= 1)%Z ->
  NelsonAalenFitter._additive_f_smooth N d
  = NelsonAalenFitter._additive_f_discrete N d.
Proof.
  intros Hd.
  unfold NelsonAalenFitter._additive_f_smooth,
         NelsonAalenFitter._additive_f_discrete.
  destruct (both_zero N d) eqn:E; [reflexivity|].
  assert (Hd' : d = 0%Z \/ d = 1%Z) by lia.
  destruct Hd' as [-> | ->].
  - assert (HN : N <> 0%Z).
    { intros ->. discriminate. }
    rewrite range_nonpos by lia. unfold np_sum, of_int.
    cbn [map fold_left fmul].
    rewrite fdiv_int by assumption. f_equal. unfold Rdiv. ring.
  - change (range 1) with [0%Z]. unfold np_sum, of_int.
    cbn [map fold_left fmul]. rewrite Z.sub_0_r.
    destruct (Z.eq_dec N 0) as [-> | HN].
    + rewrite !fdiv_int_zero.
      rewrite !Rsign_pos by lra. reflexivity.
    + rewrite !fdiv_int by assumption. cbn [fadd]. f_equal. lra.
Qed.

(** ** The risk-set aggregator keeps the invariants of section 3 *)

Lemma tally_nonempty (t1 : Q) (o : bool) (rows : table) :
  tally t1 o rows <> [].
Proof.
  destruct rows as [|r rs]; simpl; [discriminate|].
  destruct (t1 ?= time r); discriminate.
Qed.

Lemma tally_head (a t1 : Q) (o : bool) (rows : table) :
  a < t1 ->
  HdRel Qlt a (map time rows) ->
  HdRel Qlt a (map time (tally t1 o rows)).
Proof.
  intros Ha H. destruct rows as [|r rs]; simpl.
  - now constructor.
  - destruct (t1 ?= time r) eqn:E; simpl; constructor; trivial;
      now inversion H.
Qed.

Lemma tally_sorted (t1 : Q) (o : bool) (rows : table) :
  Sorted Qlt (map time rows) -> Sorted Qlt (map time (tally t1 o rows)).
Proof.
  induction rows as [|r rs IH]; intros H; simpl.
  - repeat constructor.
  - inversion H as [|? ? Hs Hd]; subst.
    destruct (t1 ?= time r) eqn:E; simpl.
    + exact H.
    + constructor; [exact H|]. constructor. now apply Qlt_alt.
    + constructor; [now apply IH|].
      apply tally_head; trivial. now apply Qgt_alt.
Qed.

Lemma tally_valid (t1 : Q) (o : bool) (rows : table) :
  Forall valid_row rows -> Forall valid_row (tally t1 o rows).
Proof.
  induction rows as [|r rs IH]; intros H; simpl.
  - constructor; [|constructor]. unfold valid_row; destruct o; simpl; lia.
  - inversion H as [|? ? Hr Hrs]; subst.
    destruct (t1 ?= time r).
    + constructor; trivial. unfold valid_row in *. destruct o; simpl; lia.
    + constructor; trivial. unfold valid_row; destruct o; simpl; lia.
    + constructor; trivial. now apply IH.
Qed.

Lemma aggregate_valid (sample : list (Q * bool)) (rows : table) :
  valid_table rows -> valid_table (aggregate sample rows).
Proof.
  revert rows. induction sample as [|s sample IH]; intros rows H; [exact H|].
  apply IH. destruct H as [H1 H2].
  split; [now apply tally_sorted | now apply tally_valid].
Qed.

Lemma aggregate_nonempty (sample : list (Q * bool)) (rows : table) :
  sample <> [] \/ rows <> [] -> aggregate sample rows <> [].
Proof.
  revert rows. induction sample as [|s sample IH]; intros rows H.
  - now destruct H.
  - apply IH. right. apply tally_nonempty.
Qed.

Lemma dataframe_from_events_censorship_ok
    (event_times : list Q) (censorship : list bool) :
  length event_times = length censorship ->
  dataframe_from_events_censorship event_times censorship
  = Ok (aggregate (combine event_times censorship) []).
Proof.
  intros H. unfold dataframe_from_events_censorship.
  now rewrite H, Nat.eqb_refl.
Qed.

Lemma sorted_lt_le (l : list Q) : Sorted Qlt l -> Sorted Qle l.
Proof.
  induction 1 as [|a l Hs IH Hd]; constructor; trivial.
  destruct Hd; constructor. now apply Qlt_le_weak.
Qed.

(** ** Setting a column of the band frame *)

Lemma Qeq_bool_refl (x : Q) : Qeq_bool x x = true.
Proof. apply Qeq_bool_iff, Qeq_refl. Qed.

Lemma index_equals_refl (l : list Q) : index_equals l l = true.
Proof.
  induction l as [|x l IH]; trivial. simpl. now rewrite Qeq_bool_refl.
Qed.

Lemma index_equals_length (a b : list Q) :
  index_equals a b = true -> length a = length b.
Proof.
  revert b. induction a as [|x a IH]; intros [|y b]; simpl;
    try discriminate; trivial.
  intros H. apply andb_prop in H. f_equal. now apply IH.
Qed.

Lemma sorted_is_unique (l : list Q) : Sorted Qlt l -> is_unique l = true.
Proof.
  intros H. apply Sorted_StronglySorted in H.
  2:{ intros a b c. apply Qlt_trans. }
  induction H as [|x l Hs IH Hx]; trivial. simpl. rewrite IH, andb_true_r.
  apply negb_true_iff. apply not_true_is_false. intros E.
  apply existsb_exists in E. destruct E as (y & Hy & E).
  apply Qeq_bool_iff in E. rewrite Forall_forall in Hx.
  specialize (Hx y Hy). rewrite E in Hx. now apply Qlt_irrefl in Hx.
Qed.

Lemma relabel_same (b : band) : relabel (at_time b) b = b.
Proof. now destruct b. Qed.

(** On its own index a frame of bands is copied as it is. *)
Lemma set_column_same (values : list band) :
  set_column (map at_time values) values = Ok values.
Proof.
  unfold set_column. rewrite index_equals_refl. f_equal.
  induction values as [|b values IH]; trivial. simpl.
  now rewrite relabel_same, IH.
Qed.

Lemma band_labels (G : (Q * float) * float -> band) (est : frame float)
    (sq : list float) :
  (forall p, at_time (G p) = fst (fst p)) ->
  length est = length sq ->
  map at_time (map G (combine est sq)) = map fst est.
Proof.
  intros Hat. revert sq.
  induction est as [|e est IH]; intros [|q sq] Hlen; try discriminate;
    trivial.
  simpl. rewrite Hat. simpl. f_equal. apply IH. now injection Hlen.
Qed.

(** The band frame can be set on a timeline whose origin, when it had to be
    inserted, is a new label among distinct ones. *)
Lemma set_column_ok (timeline tl : list Q) (values : list band) :
  with_origin timeline = Ok tl ->
  map at_time values = tl ->
  (Qltb 0 (hd 0 timeline) = true -> is_unique (0 :: timeline) = true) ->
  exists ci, set_column timeline values = Ok ci.
Proof.
  destruct timeline as [|t1 ts]; [discriminate|]. cbn [with_origin hd].
  intros Htl Hlab Hu. injection Htl as <-.
  destruct (Qltb 0 t1) eqn:E.
  - unfold set_column. rewrite Hlab.
    destruct (index_equals (0 :: t1 :: ts) (t1 :: ts)) eqn:Ei.
    + apply index_equals_length in Ei. simpl in Ei. lia.
    + rewrite (Hu eq_refl). eexists. reflexivity.
  - rewrite <- Hlab. eexists. apply set_column_same.
Qed.

(** ** What the fitters compute on a sample they accept *)

Lemma risk_sets_valid (event_times : list Q) (censorship : option (list bool)) :
  valid_table (risk_sets event_times censorship).
Proof.
  apply aggregate_valid. split; constructor.
Qed.

Lemma risk_sets_nonempty (event_times : list Q)
    (censorship : option (list bool)) (timeline : option (list Q)) :
  fittable event_times censorship timeline ->
  risk_sets event_times censorship <> [].
Proof.
  intros (Hlen & Hne & _). apply aggregate_nonempty. left.
  destruct event_times as [|t1 ts]; [congruence|].
  destruct (censorship_or_ones (t1 :: ts) censorship); discriminate.
Qed.

Lemma fittable_unique (event_times : list Q)
    (censorship : option (list bool)) (timeline : option (list Q)) :
  fittable event_times censorship timeline ->
  Qltb 0 (hd 0 (timeline_or_events (risk_sets event_times censorship)
                                   timeline)) = true ->
  is_unique (0 :: timeline_or_events (risk_sets event_times censorship)
                                     timeline) = true.
Proof.
  intros (_ & _ & _ & Hu). destruct timeline as [tl|]; [exact Hu|].
  cbn [timeline_or_events]. intros H0. apply sorted_is_unique.
  destruct (risk_sets_valid event_times censorship) as [Hs _].
  constructor; trivial.
  destruct (map time (risk_sets event_times censorship)) as [|t1 ts];
    constructor.
  cbn [hd] in H0. unfold Qltb in H0. apply negb_true_iff in H0.
  apply Qnot_le_lt. intros Hle. apply Qle_bool_iff in Hle. congruence.
Qed.

Lemma fittable_timeline (event_times : list Q)
    (censorship : option (list bool)) (timeline : option (list Q)) :
  fittable event_times censorship timeline ->
  exists tl,
    with_origin (timeline_or_events (risk_sets event_times censorship)
                                    timeline) = Ok tl.
Proof.
  intros H. apply with_origin_nonempty.
  destruct timeline as [tl|]; simpl.
  - destruct H as (_ & _ & H & _). congruence.
  - apply risk_sets_nonempty in H.
    destruct (risk_sets event_times censorship); [congruence|discriminate].
Qed.

Lemma additive_estimate_on_sample (f g : Z -> Z -> float)
    (event_times : list Q) (censorship : option (list bool))
    (timeline : option (list Q)) (tl : list Q) :
  fittable event_times censorship timeline ->
  with_origin (timeline_or_events (risk_sets event_times censorship)
                                  timeline) = Ok tl ->
  _additive_estimate (Fin 0) fadd (risk_sets event_times censorship)
    (timeline_or_events (risk_sets event_times censorship) timeline) f g
  = Ok (curve_of (Fin 0) fadd f (risk_sets event_times censorship) tl,
        curve_of (Fin 0) fadd g (risk_sets event_times censorship) tl).
Proof.
  intros H Htl. apply additive_estimate_curve; trivial.
  - eapply risk_sets_nonempty; eauto.
  - apply sorted_lt_le, risk_sets_valid.
Qed.

Lemma NelsonAalen_fit_spec (inv_normal_cdf : R -> R)
    (s : NelsonAalenFitter.self) (event_times : list Q)
    (censorship : option (list bool)) (timeline : option (list Q))
    (alpha : option R) :
  fittable event_times censorship timeline ->
  exists tl s',
    with_origin (timeline_or_events (risk_sets event_times censorship)
                                    timeline) = Ok tl /\
    NelsonAalenFitter.fit inv_normal_cdf s event_times censorship timeline
                          alpha
    = Ok (s', PyNone) /\
    NelsonAalenFitter.cumulative_hazard_ s'
    = Some (curve_of (Fin 0) fadd (NelsonAalenFitter._additive_f s)
                     (risk_sets event_times censorship) tl) /\
    NelsonAalenFitter.timeline s'
    = Some (timeline_or_events (risk_sets event_times censorship)
                               timeline) /\
    exists ci,
      NelsonAalenFitter.confidence_interval_ s' = Some ci /\
      set_column
        (timeline_or_events (risk_sets event_times censorship) timeline)
        (map (fun p =>
                NelsonAalenFitter.bounds_row
                  (inv_normal_cdf
                     (1 - (1 - match alpha with
                               | None => NelsonAalenFitter.alpha s
                               | Some a => a
                               end) / 2)%R)
                  (fst p) (snd p))
             (combine
                (curve_of (Fin 0) fadd (NelsonAalenFitter._additive_f s)
                          (risk_sets event_times censorship) tl)
                (map snd
                   (curve_of (Fin 0) fadd (NelsonAalenFitter._variance_f s)
                             (risk_sets event_times censorship) tl))))
      = Ok ci.
Proof.
  intros H. destruct (fittable_timeline H) as [tl Htl].
  exists tl. unfold NelsonAalenFitter.fit.
  fold (censorship_or_ones event_times censorship).
  rewrite dataframe_from_events_censorship_ok by apply H.
  fold (risk_sets event_times censorship). cbn [bind].
  fold (timeline_or_events (risk_sets event_times censorship) timeline).
  rewrite (additive_estimate_on_sample _ _ H Htl). cbn [bind].
  unfold NelsonAalenFitter._bounds.
  cbn [NelsonAalenFitter.cumulative_hazard_ NelsonAalenFitter.timeline bind].
  match goal with
  | |- context [set_column ?i ?v] =>
      destruct (@set_column_ok i tl v Htl) as [ci Hci]
  end.
  { rewrite band_labels; [apply map_fst_curve_of|now intros [[x y] q]|].
    unfold curve_of. now rewrite !length_map. }
  { now apply fittable_unique. }
  rewrite Hci. cbn [bind]. eexists. split; [exact Htl|].
  split; [reflexivity|]. split; [reflexivity|]. split; [reflexivity|].
  exists ci. split; first [reflexivity | exact Hci].
Qed.

Lemma with_origin_not_nil (timeline tl : list Q) :
  with_origin timeline = Ok tl -> tl <> [].
Proof.
  destruct timeline as [|t1 ts]; [discriminate|]. simpl.
  intros H. injection H as <-. destruct (Qltb 0 t1); discriminate.
Qed.

Lemma qth_in_range (q : R) (sf : survival_functions) :
  (0 <= q <= 1)%R ->
  qth_survival_times q sf
  = match sf with
    | DataFrame index columns =>
        v <- traverse (fun c => idxmax_or_sentinel index (below q c))
                      columns ;;
        Ok (labels v)
    | ndarray columns =>
        v <- traverse (fun c => argmax_or_sentinel (below q c)) columns ;;
        Ok (positions v)
    end.
Proof.
  intros [H0 H1]. unfold qth_survival_times.
  destruct (Rle_dec 0 q); [|contradiction].
  destruct (Rle_dec q 1); [|contradiction]. reflexivity.
Qed.

Lemma median_of_curve (index : list Q) (column : list float) :
  column <> [] ->
  exists m, median_survival_times (DataFrame index [column]) = Ok m.
Proof.
  intros H. unfold median_survival_times.
  rewrite qth_in_range by lra. cbn [traverse bind].
  destruct column as [|x xs]; [congruence|].
  eexists. reflexivity.
Qed.

Lemma KaplanMeier_fit_spec (inv_normal_cdf : R -> R)
    (s : KaplanMeierFitter.self) (event_times : list Q)
    (censorship : option (list bool)) (timeline : option (list Q))
    (alpha : option R) :
  fittable event_times censorship timeline ->
  exists tl s' alpha2,
    with_origin (timeline_or_events (risk_sets event_times censorship)
                                    timeline) = Ok tl /\
    KaplanMeierFitter.fit inv_normal_cdf s event_times censorship timeline
                          alpha
    = Ok (s', PySelf s') /\
    KaplanMeierFitter.survival_function_ s'
    = Some (map (fun row => (fst row, fexp (snd row)))
                (curve_of (Fin 0) fadd KaplanMeierFitter._additive_f
                          (risk_sets event_times censorship) tl)) /\
    alpha2
    = inv_normal_cdf
        ((1 + match alpha with
              | Some a =>
                  if KaplanMeierFitter.falsy alpha
                  then KaplanMeierFitter.alpha s else a
              | None => KaplanMeierFitter.alpha s
              end) / 2)%R /\
    KaplanMeierFitter.timeline s'
    = Some (timeline_or_events (risk_sets event_times censorship)
                               timeline) /\
    exists ci,
      KaplanMeierFitter.confidence_interval_ s' = Some ci /\
      set_column
        (timeline_or_events (risk_sets event_times censorship) timeline)
        (map (fun p => KaplanMeierFitter.bounds_row alpha2 (fst p) (snd p))
             (combine
                (map (fun row => (fst row, fexp (snd row)))
                     (curve_of (Fin 0) fadd KaplanMeierFitter._additive_f
                               (risk_sets event_times censorship) tl))
                (map snd
                   (curve_of (Fin 0) fadd KaplanMeierFitter._variance_f
                             (risk_sets event_times censorship) tl))))
      = Ok ci.
Proof.
  intros H. destruct (fittable_timeline H) as [tl Htl].
  exists tl. unfold KaplanMeierFitter.fit.
  fold (censorship_or_ones event_times censorship).
  rewrite dataframe_from_events_censorship_ok by apply H.
  fold (risk_sets event_times censorship). cbn [bind].
  fold (timeline_or_events (risk_sets event_times censorship) timeline).
  rewrite (additive_estimate_on_sample _ _ H Htl). cbn [bind].
  match goal with
  | |- context [median_survival_times (DataFrame ?i [?c])] =>
      destruct (median_of_curve i (column := c)) as [m Hm]
  end.
  { apply with_origin_not_nil in Htl. unfold curve_of.
    destruct tl; [congruence|discriminate]. }
  rewrite Hm. cbn [bind]. unfold KaplanMeierFitter._bounds.
  cbn [KaplanMeierFitter.survival_function_ KaplanMeierFitter.timeline bind].
  match goal with
  | |- context [set_column ?i ?v] =>
      destruct (@set_column_ok i tl v Htl) as [ci Hci]
  end.
  { rewrite band_labels; [|now intros [[x y] q]|].
    - rewrite map_map. cbn [fst]. apply map_fst_curve_of.
    - unfold curve_of. now rewrite !length_map. }
  { now apply fittable_unique. }
  rewrite Hci. cbn [bind]. eexists. eexists. split; [exact Htl|].
  split; [reflexivity|]. split; [reflexivity|]. split; [reflexivity|].
  split; [reflexivity|]. exists ci. split; first [reflexivity | exact Hci].
Qed.

(** ** The increments on a valid step *)

Lemma div_lt_one (a b : R) : (0 < b)%R -> (a < b)%R -> (a / b < 1)%R.
Proof.
  intros Hb Hab. unfold Rdiv.
  assert (0 < / b)%R by (apply Rinv_0_lt_compat; lra).
  assert (b * / b = 1)%R by (field; lra). nra.
Qed.

Lemma div_nonneg (a b : R) : (0 <= a)%R -> (0 < b)%R -> (0 <= a / b)%R.
Proof.
  intros Ha Hb. unfold Rdiv.
  assert (0 < / b)%R by (apply Rinv_0_lt_compat; lra). nra.
Qed.

Lemma both_zero_false (N d : Z) : (N <> 0)%Z -> both_zero N d = false.
Proof.
  intros H. unfold both_zero.
  destruct (Z.eqb_spec N d), (Z.eqb_spec d 0); trivial. congruence.
Qed.

Lemma additive_f_discrete_value (N d : Z) :
  (N <> 0)%Z ->
  NelsonAalenFitter._additive_f_discrete N d = Fin (IZR d / IZR N).
Proof.
  intros H. unfold NelsonAalenFitter._additive_f_discrete, of_int.
  rewrite both_zero_false by assumption. cbn [fmul].
  rewrite fdiv_int by assumption. f_equal. unfold Rdiv. ring.
Qed.

Lemma KaplanMeier_additive_f_value (N d : Z) :
  (0 <= d < N)%Z ->
  KaplanMeierFitter._additive_f N d = Fin (ln (1 - IZR d / IZR N)).
Proof.
  intros H. unfold KaplanMeierFitter._additive_f, of_int.
  rewrite both_zero_false by lia. cbn [fmul].
  rewrite fdiv_int by lia. cbn [fsub fneg fadd flog].
  assert (HN : (0 < IZR N)%R) by (apply (IZR_lt 0); lia).
  assert (Hd : (IZR d < IZR N)%R) by (apply IZR_lt; lia).
  pose proof (div_lt_one HN Hd) as Hq.
  replace (1 + - (1 * IZR d / IZR N))%R with (1 - IZR d / IZR N)%R
    by (unfold Rdiv; ring).
  rewrite Rsign_pos by lra. reflexivity.
Qed.

Lemma KaplanMeier_additive_f_all (N : Z) :
  (0 < N)%Z -> KaplanMeierFitter._additive_f N N = NInf.
Proof.
  intros H. unfold KaplanMeierFitter._additive_f, of_int.
  rewrite both_zero_false by lia. cbn [fmul].
  rewrite fdiv_int by lia. cbn [fsub fneg fadd flog].
  assert (HN : (0 < IZR N)%R) by (apply (IZR_lt 0); lia).
  rewrite Rsign_zero; [reflexivity|]. field. lra.
Qed.

(** ** The worked example *)

Lemma example_risk_sets :
  risk_sets example_times (Some example_censorship)
  = [ {| time := 1; removed := 1; observed_deaths := 1; missing := 0 |};
      {| time := 2; removed := 2; observed_deaths := 1; missing := 1 |};
      {| time := 3; removed := 1; observed_deaths := 1; missing := 0 |} ].
Proof. reflexivity. Qed.

Lemma example_fittable :
  fittable example_times (Some example_censorship) None.
Proof. repeat split; discriminate. Qed.

Lemma example_timeline :
  with_origin
    (timeline_or_events (risk_sets example_times (Some example_censorship))
                        None)
  = Ok [0; 1; 2; 3].
Proof. reflexivity. Qed.

Lemma example_curve (h : Z -> Z -> float) :
  curve_of (Fin 0) fadd h
           (risk_sets example_times (Some example_censorship)) [0; 1; 2; 3]
  = [ (0, Fin 0);
      (1, fadd (Fin 0) (h 4 1)%Z);
      (2, fadd (fadd (Fin 0) (h 4 1)%Z) (h 2 1)%Z);
      (3, fadd (fadd (fadd (Fin 0) (h 4 1)%Z) (h 2 1)%Z) (h 1 1)%Z) ].
Proof. reflexivity. Qed.

(** The curves the two fitters compute on the example: the subject
    censored at time 2 has left the risk set before the death at time 2 is
    counted, so the factor there is [1 - 1/2]. *)
Lemma example_fits (inv_normal_cdf : R -> R) :
  exists km na,
    KaplanMeierFitter.fit inv_normal_cdf
      (KaplanMeierFitter.__init__ (95 / 100))
      example_times (Some example_censorship) None None
    = Ok (km, PySelf km) /\
    NelsonAalenFitter.fit inv_normal_cdf
      (NelsonAalenFitter.__init__ (95 / 100) false)
      example_times (Some example_censorship) None None
    = Ok (na, PyNone) /\
    KaplanMeierFitter.survival_function_ km
    = Some [ (0, Fin 1); (1, Fin (3 / 4)); (2, Fin (3 / 8)); (3, Fin 0) ] /\
    NelsonAalenFitter.cumulative_hazard_ na
    = Some [ (0, Fin 0); (1, Fin (1 / 4)); (2, Fin (1 / 4 + 1 / 2));
             (3, Fin (1 / 4 + 1 / 2 + 1)) ].
Proof.
  destruct (KaplanMeier_fit_spec inv_normal_cdf
              (KaplanMeierFitter.__init__ (95 / 100)) None example_fittable)
    as (tl & km & a2 & Htl & Hkm & HS & _).
  destruct (NelsonAalen_fit_spec inv_normal_cdf
              (NelsonAalenFitter.__init__ (95 / 100) false) None
              example_fittable)
    as (tl' & na & Htl' & Hna & HH & _).
  rewrite example_timeline in Htl, Htl'.
  injection Htl as <-. injection Htl' as <-.
  rewrite example_curve in HS, HH.
  exists km, na. split; [exact Hkm|]. split; [exact Hna|]. split.
  - rewrite HS. cbn [map fst snd].
    rewrite !KaplanMeier_additive_f_value by lia.
    rewrite KaplanMeier_additive_f_all by lia.
    cbn [fadd fexp].
    assert (E1 : exp (0 + ln (1 - 1 / 4)) = (3 / 4)%R).
    { rewrite Rplus_0_l, exp_ln; lra. }
    assert (E2 : exp (0 + ln (1 - 1 / 4) + ln (1 - 1 / 2)) = (3 / 8)%R).
    { rewrite Rplus_0_l, exp_plus, !exp_ln; lra. }
    rewrite E1, E2, exp_0. reflexivity.
  - rewrite HH. cbn [NelsonAalenFitter._additive_f
                      NelsonAalenFitter.nelson_aalen_smoothing
                      NelsonAalenFitter.__init__].
    rewrite !additive_f_discrete_value by lia.
    cbn [fadd].
    repeat (f_equal; try lra).
Qed.

(** C2, as stated, fails: on the example the fitted Kaplan-Meier survival
    at time 2 is 3/8, not 1/2 (and the discrete Nelson-Aalen hazard there is
    1/4 + 1/2, not 1/4 + 1/3). *)
Lemma worked_example_as_stated_fails :
  ~ exists inv_normal_cdf,
      worked_example inv_normal_cdf
        (3 / 4) (1 / 2) 0 (1 / 4) (1 / 4 + 1 / 3) (1 / 4 + 1 / 3 + 1).
Proof.
  intros (q & km & r & na & r' & S & H & Hkm & _ & HS & _ & _ & L2 & _).
  destruct (example_fits q) as (km' & na' & Hkm' & _ & HS' & _).
  rewrite Hkm in Hkm'. injection Hkm' as <- _.
  rewrite HS in HS'. injection HS' as ->.
  unfold lookup in L2. cbn in L2. injection L2 as L2. lra.
Qed.

(** C2, amended.  For times [1,2,2,3] with the second subject at time 2
    censored, fitting Kaplan-Meier yields S(1) = 3/4, S(2) = 3/8, S(3) = 0
    and the discrete Nelson-Aalen variant yields H(1) = 1/4,
    H(2) = 1/4 + 1/2, H(3) = 1/4 + 1/2 + 1: the subject censored at time 2
    leaves the risk set before the increment of that time is computed. *)
Theorem worked_example_values :
  forall inv_normal_cdf : R -> R,
    worked_example inv_normal_cdf
      (3 / 4) (3 / 8) 0 (1 / 4) (1 / 4 + 1 / 2) (1 / 4 + 1 / 2 + 1).
Proof.
  intros q. destruct (example_fits q) as (km & na & Hkm & Hna & HS & HH).
  exists km, (PySelf km), na, PyNone. eexists. eexists.
  split; [exact Hkm|]. split; [exact Hna|].
  split; [exact HS|]. split; [exact HH|].
  repeat split; reflexivity.
Qed.

(** ** Quantile lookup *)

Lemma fltb_flt (a b : float) : fltb a b = true <-> flt a b.
Proof.
  destruct a as [x| | |], b as [y| | |]; simpl;
    try (split; [discriminate | tauto]); try tauto.
  destruct (Rlt_dec x y); split; trivial; try discriminate. tauto.
Qed.

Lemma fle_flt_trans (a b c : float) : fle a b -> flt b c -> flt a c.
Proof.
  destruct a, b, c; simpl; try tauto. lra.
Qed.

Lemma first_true_some (b : list bool) (p : nat) :
  first_true b = Some p ->
  nth_error b p = Some true /\
  forall p', (p' < p)%nat -> nth_error b p' = Some false.
Proof.
  revert p. induction b as [|x b IH]; intros p H; [discriminate|].
  destruct x; simpl in H.
  - injection H as <-. split; [reflexivity|]. intros p' Hp. lia.
  - destruct (first_true b) as [p0|]; [|discriminate].
    injection H as <-. destruct (IH p0 eq_refl) as [H1 H2].
    split; [exact H1|]. intros [|p'] Hp; [reflexivity|].
    apply H2. lia.
Qed.

Lemma first_true_none (b : list bool) :
  first_true b = None -> forall x, In x b -> x = false.
Proof.
  induction b as [|y b IH]; intros H x Hx; [contradiction|].
  destruct y; [discriminate|]. simpl in H.
  destruct (first_true b); [discriminate|].
  destruct Hx as [<-|Hx]; [reflexivity|]. now apply IH.
Qed.

Lemma last_row_in (b : list bool) : last_row b = true -> In true b.
Proof.
  unfold last_row. destruct b as [|x b]; [discriminate|].
  intros H. rewrite <- H. apply last_in.
Qed.

Lemma last_row_below (q : R) (c : list float) (x : float) :
  last_row (below q (x :: c)) = fltb (last (x :: c) x) (Fin q).
Proof.
  unfold last_row, below. revert x.
  induction c as [|y c IH]; intros x; [reflexivity|].
  change (last (map (fun x0 => fltb x0 (Fin q)) (x :: y :: c)) false)
    with (last (map (fun x0 => fltb x0 (Fin q)) (y :: c)) false).
  rewrite IH. now rewrite !last_cons.
Qed.

Lemma nonincreasing_last (x : float) (c : list float) (y : float) :
  nonincreasing (x :: c) -> In y (x :: c) ->
  y = last (x :: c) x \/ fle (last (x :: c) x) y.
Proof.
  revert x. induction c as [|z c IH]; intros x H Hy.
  - destruct Hy as [<-|[]]. now left.
  - inversion H as [|? ? Hs Hall]; subst.
    replace (last (x :: z :: c) x) with (last (z :: c) z)
      by (now rewrite !last_cons).
    destruct Hy as [<-|Hy].
    + right. rewrite Forall_forall in Hall. apply Hall. apply last_in.
    + now apply IH.
Qed.

(** On a curve that never increases, the last point decides whether the
    curve ever drops below [q]. *)
Lemma last_row_never_below (q : R) (c : list float) :
  c <> [] -> nonincreasing c ->
  (last_row (below q c) = false <-> never_below q c).
Proof.
  intros Hne Hc. destruct c as [|x c]; [congruence|].
  rewrite last_row_below. split.
  - intros H y Hy Hlt.
    assert (Hl : flt (last (x :: c) x) (Fin q)).
    { destruct (nonincreasing_last Hc Hy) as [<-|Hle]; trivial.
      eapply fle_flt_trans; eauto. }
    apply fltb_flt in Hl. congruence.
  - intros H. apply not_true_iff_false. intros Hl. apply fltb_flt in Hl.
    apply (H (last (x :: c) x)); trivial. apply last_in.
Qed.

Lemma argmax_first_below (q : R) (c : list float) :
  last_row (below q c) = true ->
  (argmax (below q c) < length c)%nat /\
  first_below q c (argmax (below q c)).
Proof.
  intros H. apply last_row_in in H. unfold argmax.
  destruct (first_true (below q c)) as [p|] eqn:E.
  - destruct (first_true_some _ E) as [H1 H2]. unfold below in H1, H2.
    split.
    + rewrite <- (length_map (fun x => fltb x (Fin q))).
      apply nth_error_Some. rewrite H1. discriminate.
    + split.
      * rewrite nth_error_map in H1.
        destruct (nth_error c p) as [x|]; [|discriminate].
        exists x. split; trivial. apply fltb_flt. now injection H1.
      * intros p' y Hp Hy Hlt. specialize (H2 p' Hp).
        rewrite nth_error_map, Hy in H2. injection H2 as H2.
        apply fltb_flt in Hlt. congruence.
  - pose proof (first_true_none _ E true H). discriminate.
Qed.

Lemma traverse_Forall2 {A B : Type} (f : A -> result B)
    (P : A -> B -> Prop) (l : list A) :
  Forall (fun a => exists b, f a = Ok b /\ P a b) l ->
  exists v, traverse f l = Ok v /\ Forall2 P l v.
Proof.
  induction 1 as [|a l (b & Hb & HP) _ (v & Hv & HF)].
  - exists []. split; [reflexivity|constructor].
  - exists (b :: v). simpl. rewrite Hb, Hv. split; [reflexivity|].
    now constructor.
Qed.

Lemma argmax_or_sentinel_spec (q : R) (c : list float) :
  c <> [] -> nonincreasing c ->
  exists r,
    argmax_or_sentinel (below q c) = Ok r /\
    (r = (-1)%Z <-> never_below q c) /\
    (~ never_below q c -> (0 <= r)%Z /\ first_below q c (Z.to_nat r)).
Proof.
  intros Hne Hc. unfold argmax_or_sentinel.
  destruct (below q c) as [|b0 bs] eqn:Eb.
  { destruct c; [congruence|discriminate]. }
  rewrite <- Eb. pose proof (last_row_never_below q Hne Hc) as Hlast.
  destruct (last_row (below q c)) eqn:El.
  - destruct (argmax_first_below q c El) as [_ Hf].
    eexists. split; [reflexivity|]. split.
    + split; [lia|]. intros Hn. apply Hlast in Hn. discriminate.
    + intros _. split; [lia|]. now rewrite Nat2Z.id.
  - eexists. split; [reflexivity|]. split.
    + split; [|reflexivity]. intros _. apply (proj1 Hlast eq_refl).
    + intros Hn. exfalso. apply Hn. apply (proj1 Hlast eq_refl).
Qed.

Lemma idxmax_or_sentinel_spec (q : R) (index : list Q) (c : list float) :
  Forall (fun x => 0 <= x) index ->
  c <> [] -> nonincreasing c -> length c = length index ->
  exists r,
    idxmax_or_sentinel index (below q c) = Ok r /\
    (r = (-1)%Q <-> never_below q c) /\
    (~ never_below q c ->
     exists p, first_below q c p /\ nth_error index p = Some r).
Proof.
  intros Hidx Hne Hc Hlen. unfold idxmax_or_sentinel.
  destruct (below q c) as [|b0 bs] eqn:Eb.
  { destruct c; [congruence|discriminate]. }
  rewrite <- Eb. pose proof (last_row_never_below q Hne Hc) as Hlast.
  destruct (last_row (below q c)) eqn:El.
  - destruct (argmax_first_below q c El) as [Hp Hf].
    rewrite Hlen in Hp.
    pose proof (nth_error_nth' index (-1) Hp) as Hnth.
    eexists. split; [reflexivity|]. split.
    + split.
      * intros E. exfalso. rewrite Forall_forall in Hidx.
        specialize (Hidx _ (nth_In index (-1) Hp)). rewrite E in Hidx.
        now apply Hidx.
      * intros Hn. apply Hlast in Hn. discriminate.
    + intros _. eexists. split; [exact Hf|exact Hnth].
  - eexists. split; [reflexivity|]. split.
    + split; [|reflexivity]. intros _. apply (proj1 Hlast eq_refl).
    + intros Hn. exfalso. apply Hn. apply (proj1 Hlast eq_refl).
Qed.

(** C3, as stated, fails: the curve 1, 2/5, 3/5 drops below 1/2 at its
    second point, yet the lookup returns the sentinel because the last
    point is not below 1/2. *)
Lemma qth_survival_times_not_monotone :
  ~ qth_survival_times_spec (1 / 2)
      (ndarray [[Fin 1; Fin (2 / 5); Fin (3 / 5)]]).
Proof.
  intros (v & Hv & HF).
  rewrite qth_in_range in Hv by lra.
  assert (Hb : below (1 / 2) [Fin 1; Fin (2 / 5); Fin (3 / 5)]
               = [false; true; false]).
  { unfold below. cbn [map fltb].
    repeat match goal with
           | |- context [Rlt_dec ?a ?b] => destruct (Rlt_dec a b); try lra
           end.
    reflexivity. }
  cbn [traverse bind] in Hv. rewrite Hb in Hv. cbn in Hv.
  injection Hv as <-.
  inversion HF as [|? ? ? ? [[Hs _] _] _]; subst.
  apply (Hs eq_refl (Fin (2 / 5))).
  - right. now left.
  - simpl. lra.
Qed.

(** C3, amended.  For every [q] in [[0,1]] and every survival curve that is
    non-empty and never increases (with non-negative index labels for a
    frame), [qth_survival_times q S] returns [-1] if and only if [S] never
    drops below [q], and otherwise returns the smallest time (or position)
    at which [S] is below [q]. *)
Theorem qth_survival_times_monotone :
  forall (q : R) (sf : survival_functions),
    (0 <= q <= 1)%R ->
    survival_curves sf ->
    qth_survival_times_spec q sf.
Proof.
  intros q sf Hq Hsf. unfold qth_survival_times_spec.
  rewrite qth_in_range by assumption.
  destruct sf as [index columns | columns]; simpl in Hsf.
  - destruct Hsf as [Hidx Hcols].
    destruct (traverse_Forall2
                (fun c => idxmax_or_sentinel index (below q c))
                (fun c r =>
                   (r = (-1)%Q <-> never_below q c) /\
                   (~ never_below q c ->
                    exists p, first_below q c p /\
                              nth_error index p = Some r))
                (l := columns)) as (v & Hv & HF).
    { eapply Forall_impl; [|exact Hcols]. intros c (H1 & H2 & H3).
      now apply idxmax_or_sentinel_spec. }
    exists v. rewrite Hv. split; [reflexivity|exact HF].
  - destruct (traverse_Forall2
                (fun c => argmax_or_sentinel (below q c))
                (fun c r =>
                   (r = (-1)%Z <-> never_below q c) /\
                   (~ never_below q c ->
                    (0 <= r)%Z /\ first_below q c (Z.to_nat r)))
                (l := columns)) as (v & Hv & HF).
    { eapply Forall_impl; [|exact Hsf]. intros c (H1 & H2).
      now apply argmax_or_sentinel_spec. }
    exists v. rewrite Hv. split; [reflexivity|exact HF].
Qed.

Lemma qth_survival_times_monotone_witness :
  qth_survival_times_spec (1 / 2)
    (DataFrame [0; 1; 2] [[Fin 1; Fin (3 / 4); Fin (3 / 8)]]).
Proof.
  apply qth_survival_times_monotone.
  - lra.
  - split.
    + repeat constructor; discriminate.
    + repeat constructor; try discriminate; simpl; lra.
Defined.

Lemma additive_estimate_stepwise_witness :
  stepwise 0%Z Z.add (fun _ d => d) (fun N _ => N)
           (risk_sets example_times (Some example_censorship)) [1; 2; 3].
Proof.
  apply additive_estimate_stepwise.
  - discriminate.
  - discriminate.
  - repeat constructor; discriminate.
Defined.

(** ** Aalen's additive regression *)

Lemma linalg_inv_singular (m : matrix) :
  det m = 0%R -> linalg_inv m = None.
Proof.
  intros H. unfold linalg_inv. now rewrite Rsign_zero.
Qed.

Lemma linalg_inv_regular (m : matrix) :
  det m <> 0%R -> exists m', linalg_inv m = Some m'.
Proof.
  intros H. unfold linalg_inv, Rsign.
  destruct (total_order_T (det m) 0) as [[H1|H1]|H1];
    try contradiction; eexists; reflexivity.
Qed.

Ltac destruct_matches H :=
  repeat match type of H with
         | context [match ?x with _ => _ end] =>
             destruct x eqn:?; try discriminate H
         end.

Lemma insert_by_length (ts : list Q) (i : nat) (l : list nat) :
  length (insert_by ts i l) = S (length l).
Proof.
  induction l as [|j l IH]; simpl; [reflexivity|].
  destruct (Qltb _ _); simpl; now rewrite ?IH.
Qed.

Lemma argsort_length (ts : list Q) : length (argsort ts) = length ts.
Proof.
  unfold argsort.
  assert (H : forall idx l0,
             length (fold_left (fun l i => insert_by ts i l) idx l0)
             = (length idx + length l0)%nat).
  { induction idx as [|i idx IH]; intros l0; simpl; [reflexivity|].
    rewrite IH, insert_by_length. lia. }
  rewrite H, length_seq. simpl. lia.
Qed.

Section AalenFit.

Variable inv : matrix -> option matrix.
Variable inv_normal_cdf : R -> R.

Local Abbreviation fit := (AalenAdditiveFitter.fit inv inv_normal_cdf).
Local Abbreviation loop_body := (AalenAdditiveFitter.loop_body inv).

(** A fit that completes returns the fitter, and the fitter keeps the
    censorship argument as it was given. *)
Lemma Aalen_fit_result (s : AalenAdditiveFitter.self)
    (event_times : list Q) (X' : design) (timeline : option (list Q))
    (censorship : option (list bool)) (columns : option (list label))
    (s' : AalenAdditiveFitter.self) (r : returned AalenAdditiveFitter.self) :
  fit s event_times X' timeline censorship columns = Ok (s', r) ->
  r = PySelf s' /\ AalenAdditiveFitter.censorship s' = Some censorship.
Proof.
  intros H. unfold AalenAdditiveFitter.fit, bind in H.
  destruct_matches H.
  unfold AalenAdditiveFitter._compute_confidence_intervals in *.
  cbn in *. injection H as <- <-. split; reflexivity.
Qed.

(** A step whose inversion fails after an earlier one succeeded keeps the
    cumulative coefficients: the points of the step receive the previous
    [cum_v], which the step leaves unchanged, and the loop goes on. *)
Lemma loop_body_singular (n p : nat) (penalizer_ : matrix)
    (observed : list bool) (s : AalenAdditiveFitter.locals)
    (V_ : matrix) (i : nat) (time : Q) :
  AalenAdditiveFitter.V s = Some V_ ->
  inv (msub (dot p
               (transpose p
                  (if nth i observed true then AalenAdditiveFitter.X_ s
                   else AalenAdditiveFitter.clear_row i
                          (AalenAdditiveFitter.X_ s)))
               (if nth i observed true then AalenAdditiveFitter.X_ s
                else AalenAdditiveFitter.clear_row i
                       (AalenAdditiveFitter.X_ s)))
            penalizer_) = None ->
  exists s',
    loop_body n p penalizer_ observed (Ok s) (i, time) = Ok s' /\
    AalenAdditiveFitter.cum_v s' = AalenAdditiveFitter.cum_v s /\
    AalenAdditiveFitter.v s' = AalenAdditiveFitter.v s /\
    AalenAdditiveFitter.V s' = Some V_ /\
    AalenAdditiveFitter.cumulative s'
    = AalenAdditiveFitter.put
        (fun x => Qltb (AalenAdditiveFitter.t_0 s) x && Qle_bool x time)
        (AalenAdditiveFitter.cum_v s) (AalenAdditiveFitter.cumulative s).
Proof.
  intros HV Hinv. unfold AalenAdditiveFitter.loop_body.
  cbn [bind fst snd]. rewrite Hinv, HV.
  eexists. split; [reflexivity|]. cbn. repeat split; reflexivity.
Qed.

(** Once an inversion has succeeded the loop runs to its end. *)
Lemma loop_completes (n p : nat) (penalizer_ : matrix)
    (observed : list bool) (steps : list (nat * Q)) :
  forall s : AalenAdditiveFitter.locals,
    AalenAdditiveFitter.V s <> None ->
    exists s',
      fold_left (loop_body n p penalizer_ observed) steps (Ok s) = Ok s' /\
      AalenAdditiveFitter.V s' <> None.
Proof.
  induction steps as [|[i time] steps IH]; intros s HV.
  - exists s. split; [reflexivity|exact HV].
  - cbn [fold_left].
    assert (H : exists s1,
               loop_body n p penalizer_ observed (Ok s) (i, time) = Ok s1 /\
               AalenAdditiveFitter.V s1 <> None).
    { unfold AalenAdditiveFitter.loop_body. cbn [bind fst snd].
      destruct (inv _).
      - eexists. split; [reflexivity|]. discriminate.
      - destruct (AalenAdditiveFitter.V s) eqn:E; [|congruence].
        eexists. split; [reflexivity|]. discriminate. }
    destruct H as (s1 & -> & HV1). now apply IH.
Qed.

(** C10. After a fit that received no censorship argument the fitter holds
    [None] as its censorship, and [smoothed_hazards_] fails on it. *)
Theorem smoothed_hazards_after_default_fit :
  forall (s : AalenAdditiveFitter.self) (event_times : list Q)
         (X' : design) (timeline : option (list Q))
         (columns : option (list label))
         (s' : AalenAdditiveFitter.self)
         (r : returned AalenAdditiveFitter.self) (bandwith : R),
    fit s event_times X' timeline None columns = Ok (s', r) ->
    AalenAdditiveFitter.censorship s' = Some None /\
    AalenAdditiveFitter.smoothed_hazards_ s' bandwith = Err AttributeError.
Proof.
  intros s event_times X' timeline columns s' r bandwith H.
  apply Aalen_fit_result in H. destruct H as [_ H].
  split; [exact H|]. unfold AalenAdditiveFitter.smoothed_hazards_.
  now rewrite H.
Qed.

Lemma loop_aborted (n p : nat) (penalizer_ : matrix) (observed : list bool)
    (steps : list (nat * Q)) (e : exn) :
  fold_left (loop_body n p penalizer_ observed) steps (Err e) = Err e.
Proof.
  induction steps as [|step steps IH]; [reflexivity|]. exact IH.
Qed.

(** The first step decides: [fit] reaches its loop on every accepted
    input, aborts with an unbound [V] when the first inversion fails, and
    otherwise completes. *)
Lemma Aalen_fit_first_step (s : AalenAdditiveFitter.self)
    (event_times : list Q) (X' : design) (timeline : option (list Q))
    (censorship : option (list bool)) (columns : option (list label)) :
  regression_input s event_times X' timeline censorship columns ->
  match inv (first_inversion s event_times X' censorship) with
  | None =>
      fit s event_times X' timeline censorship columns
      = Err UnboundLocalError
  | Some _ =>
      exists s', fit s event_times X' timeline censorship columns
                 = Ok (s', PySelf s')
  end.
Proof.
  intros (Hlen & Hne & Htl & Hc & Hcols).
  set (n := length (values_of X')) in *.
  set (p := (length (hd [] (values_of X'))
             + (if AalenAdditiveFitter.fit_intercept s then 1 else 0))%nat)
    in *.
  assert (Hobs : AalenAdditiveFitter.observed_of n censorship
                 = Ok (match censorship with
                       | None => repeat true n
                       | Some c => c
                       end)).
  { destruct censorship as [c|]; simpl; [|reflexivity].
    now rewrite Hc, Nat.eqb_refl. }
  assert (Hlab : labelled p (AalenAdditiveFitter.column_labels
                               (length (hd [] (values_of X'))) X' columns)
                 = Ok (AalenAdditiveFitter.column_labels
                         (length (hd [] (values_of X'))) X' columns)).
  { unfold labelled. now rewrite Hcols, Nat.eqb_refl. }
  destruct (map (fun i => nth i event_times 0) (argsort event_times))
    as [|t1 ts] eqn:Es.
  { apply (f_equal (@length Q)) in Es.
    rewrite length_map, argsort_length in Es.
    destruct event_times; [congruence|discriminate]. }
  destruct (with_origin_nonempty
              (timeline := match timeline with
                           | None => t1 :: ts
                           | Some tl => tl
                           end)) as [tl Etl].
  { destruct timeline; [congruence|discriminate]. }
  destruct (inv (first_inversion s event_times X' censorship)) as [m|] eqn:Ei;
    unfold AalenAdditiveFitter.fit; fold n; fold p;
    rewrite Hlen, Nat.eqb_refl; cbn [negb];
    rewrite Hobs; cbn [bind]; rewrite Es, Etl; cbn [bind];
    rewrite Hlab; cbn [bind];
    unfold AalenAdditiveFitter.enumerate;
    cbn [length seq combine fold_left];
    unfold AalenAdditiveFitter.loop_body at 2;
    cbn [bind fst snd AalenAdditiveFitter.X_ AalenAdditiveFitter.V];
    match goal with
    | |- context [inv ?M] =>
        change (inv M) with (inv (first_inversion s event_times X' censorship))
    end;
    rewrite Ei.
  - match goal with
    | |- context [fold_left ?F ?steps (Ok ?s1)] =>
        assert (HV1 : AalenAdditiveFitter.V s1 <> None) by discriminate;
        destruct (loop_completes n p
                    (scaled_eye (AalenAdditiveFitter.penalizer s) p)
                    (match censorship with
                     | None => repeat true n
                     | Some c => c
                     end)
                    steps s1 HV1)
          as (st & Est & HV)
    end.
    rewrite Est. cbn [bind].
    destruct (AalenAdditiveFitter.V st) as [V_|]; [|congruence].
    unfold AalenAdditiveFitter._compute_confidence_intervals.
    cbn [AalenAdditiveFitter.cumulative_hazards_
         AalenAdditiveFitter._variance bind].
    eexists. reflexivity.
  - now rewrite loop_aborted.
Qed.

(** C4: the first step.  On every input [fit] accepts, a singular
    [dot(X_.T, X_) - penalizer] at the first step aborts the fit: the
    handler of the failed inversion reads [V], which no earlier step has
    bound. *)
Theorem Aalen_fit_aborts_on_singular_first_step :
  forall (s : AalenAdditiveFitter.self) (event_times : list Q)
         (X' : design) (timeline : option (list Q))
         (censorship : option (list bool)) (columns : option (list label)),
    regression_input s event_times X' timeline censorship columns ->
    inv (first_inversion s event_times X' censorship) = None ->
    fit s event_times X' timeline censorship columns
    = Err UnboundLocalError.
Proof.
  intros s event_times X' timeline censorship columns Hin Hinv.
  pose proof (Aalen_fit_first_step Hin) as H.
  now rewrite Hinv in H.
Qed.

End AalenFit.


Lemma one_subject_singular :
  linalg_inv
    (first_inversion (AalenAdditiveFitter.__init__ true (95 / 100) 0)
                     one_subject_times one_covariate None)
  = None.
Proof.
  apply linalg_inv_singular. unfold det.
  cbn -[Rplus Rmult Rminus Rdiv IZR pow]. simpl. lra.
Qed.

Lemma Aalen_fit_aborts_on_singular_first_step_witness :
  AalenAdditiveFitter.fit linalg_inv logistic_quantile
    (AalenAdditiveFitter.__init__ true (95 / 100) 0)
    one_subject_times one_covariate None None None
  = Err UnboundLocalError.
Proof.
  apply Aalen_fit_aborts_on_singular_first_step.
  - repeat split; discriminate.
  - exact one_subject_singular.
Defined.

Lemma two_subjects_regular :
  exists m,
    linalg_inv
      (first_inversion (AalenAdditiveFitter.__init__ true (95 / 100) 0)
                       two_subjects no_covariates None)
    = Some m.
Proof.
  apply linalg_inv_regular. unfold det.
  cbn -[Rplus Rmult Rminus Rdiv IZR pow]. simpl. lra.
Qed.

Lemma two_subjects_fit :
  exists s',
    AalenAdditiveFitter.fit linalg_inv logistic_quantile
      (AalenAdditiveFitter.__init__ true (95 / 100) 0)
      two_subjects no_covariates None None None
    = Ok (s', PySelf s').
Proof.
  assert (Hin : regression_input
                  (AalenAdditiveFitter.__init__ true (95 / 100) 0)
                  two_subjects no_covariates None None None)
    by (repeat split; discriminate).
  pose proof (Aalen_fit_first_step linalg_inv logistic_quantile Hin) as H.
  destruct two_subjects_regular as [m Hm]. now rewrite Hm in H.
Qed.

Lemma smoothed_hazards_after_default_fit_witness :
  exists s',
    AalenAdditiveFitter.fit linalg_inv logistic_quantile
      (AalenAdditiveFitter.__init__ true (95 / 100) 0)
      two_subjects no_covariates None None None
    = Ok (s', PySelf s') /\
    AalenAdditiveFitter.censorship s' = Some None /\
    AalenAdditiveFitter.smoothed_hazards_ s' 1 = Err AttributeError.
Proof.
  destruct two_subjects_fit as [s' H]. exists s'. split; [exact H|].
  exact (smoothed_hazards_after_default_fit _ _ _ _ _ _ _ 1 H).
Defined.

(** ** What [fit] returns *)

Lemma KaplanMeier_fit_returns_self (inv_normal_cdf : R -> R)
    (s : KaplanMeierFitter.self) (event_times : list Q)
    (censorship : option (list bool)) (timeline : option (list Q))
    (alpha : option R) (s' : KaplanMeierFitter.self)
    (r : returned KaplanMeierFitter.self) :
  KaplanMeierFitter.fit inv_normal_cdf s event_times censorship timeline
                        alpha = Ok (s', r) ->
  r = PySelf s'.
Proof.
  intros H. unfold KaplanMeierFitter.fit, bind in H.
  destruct_matches H; now injection H as <- <-.
Qed.

(** C6, for [NelsonAalenFitter]: on every sample it accepts, [fit] runs to
    its bare [return] and hands back [None], not the fitter. *)
Theorem NelsonAalen_fit_returns_None :
  forall (inv_normal_cdf : R -> R) (s : NelsonAalenFitter.self)
         (event_times : list Q) (censorship : option (list bool))
         (timeline : option (list Q)) (alpha : option R),
    fittable event_times censorship timeline ->
    exists s',
      NelsonAalenFitter.fit inv_normal_cdf s event_times censorship timeline
                            alpha
      = Ok (s', PyNone).
Proof.
  intros q s event_times censorship timeline alpha H.
  destruct (NelsonAalen_fit_spec q s alpha H) as (tl & s' & _ & Hfit & _).
  now exists s'.
Qed.

Lemma NelsonAalen_fit_returns_None_witness :
  exists s',
    NelsonAalenFitter.fit logistic_quantile
      (NelsonAalenFitter.__init__ (95 / 100) true)
      example_times (Some example_censorship) None None
    = Ok (s', PyNone).
Proof.
  apply NelsonAalen_fit_returns_None. exact example_fittable.
Defined.

(** ** Risk sets along a valid table *)

Lemma fold_add_shift (l : list Z) (a : Z) :
  fold_left Z.add l a = (a + fold_left Z.add l 0)%Z.
Proof.
  revert a. induction l as [|x l IH]; intros a; simpl; [lia|].
  rewrite (IH (a + x)%Z), (IH x). lia.
Qed.

Lemma total_removed_cons (r : RiskSetRow) (rows : table) :
  total_removed (r :: rows) = (removed r + total_removed rows)%Z.
Proof.
  unfold total_removed. simpl. now rewrite fold_add_shift.
Qed.

Lemma total_removed_app (rows1 rows2 : table) :
  total_removed (rows1 ++ rows2)
  = (total_removed rows1 + total_removed rows2)%Z.
Proof.
  induction rows1 as [|r rs IH]; [reflexivity|].
  simpl app. rewrite !total_removed_cons, IH. lia.
Qed.

Lemma total_removed_nonneg (rows : table) :
  Forall valid_row rows -> (0 <= total_removed rows)%Z.
Proof.
  induction 1 as [|r rs (H1 & H2 & H3) _ IH].
  - reflexivity.
  - rewrite total_removed_cons. lia.
Qed.

Lemma risk_after (rows : table) (N : Z) :
  Forall valid_row rows ->
  fold_left (fun n r => (n - missing r - observed_deaths r)%Z) rows N
  = (N - total_removed rows)%Z.
Proof.
  intros H. revert N. induction H as [|r rs (H1 & H2 & H3) _ IH]; intros N.
  - unfold total_removed. simpl. lia.
  - simpl. rewrite IH, total_removed_cons. lia.
Qed.

Lemma accumulated_nonneg_below (B : Z) (h : Z -> Z -> float) (rows : table) :
  nonneg_increment_below B h ->
  Forall valid_row rows ->
  forall (N : Z) (x : R),
    (total_removed rows <= N)%Z -> (N < B)%Z ->
    exists y, accumulated fadd h rows N (Fin x) = Fin y /\ (x <= y)%R.
Proof.
  intros Hh H. induction H as [|r rs Hr Hrs IH]; intros N x HN HB.
  - exists x. split; [reflexivity|lra].
  - rewrite total_removed_cons in HN.
    pose proof (total_removed_nonneg Hrs) as H0.
    destruct Hr as (H1 & H2 & H3).
    destruct (Hh (N - missing r)%Z (observed_deaths r)) as (z & Ez & Hz);
      [lia|lia|].
    simpl. rewrite Ez. cbn [fadd].
    destruct (IH (N - missing r - observed_deaths r)%Z (x + z)%R)
      as (y & Ey & Hy); [lia|lia|].
    exists y. split; [exact Ey|lra].
Qed.

Lemma accumulated_nonneg (h : Z -> Z -> float) (rows : table) :
  nonneg_increment h ->
  Forall valid_row rows ->
  forall (N : Z) (x : R),
    (total_removed rows <= N)%Z ->
    exists y, accumulated fadd h rows N (Fin x) = Fin y /\ (x <= y)%R.
Proof.
  intros Hh H N x HN.
  apply (@accumulated_nonneg_below (N + 1) h rows); trivial; [|lia].
  intros N' d Hd _. now apply Hh.
Qed.

(** ** The size of the risk-set table *)

Lemma tally_removed (t1 : Q) (o : bool) (rows : table) :
  total_removed (tally t1 o rows) = (total_removed rows + 1)%Z.
Proof.
  induction rows as [|r rs IH]; [reflexivity|].
  cbn [tally]. destruct (t1 ?= time r).
  - rewrite !total_removed_cons. cbn [count_subject removed]. lia.
  - rewrite !total_removed_cons. cbn [one_subject removed]. lia.
  - rewrite !total_removed_cons, IH. lia.
Qed.

Lemma aggregate_removed (sample : list (Q * bool)) (rows : table) :
  total_removed (aggregate sample rows)
  = (total_removed rows + Z.of_nat (length sample))%Z.
Proof.
  revert rows. induction sample as [|s sample IH]; intros rows.
  - simpl. lia.
  - change (aggregate (s :: sample) rows)
      with (aggregate sample (tally (fst s) (snd s) rows)).
    rewrite IH, tally_removed. simpl length. lia.
Qed.

(** Every subject is counted once: the initial risk set is at most the
    number of event times. *)
Lemma risk_sets_removed (event_times : list Q)
    (censorship : option (list bool)) :
  (total_removed (risk_sets event_times censorship)
   <= Z.of_nat (length event_times))%Z.
Proof.
  unfold risk_sets. rewrite aggregate_removed, length_combine.
  change (total_removed []) with 0%Z. lia.
Qed.

Lemma upto_prefix (x : Q) (rows : table) :
  Sorted Qle (map time rows) -> exists rest, rows = upto x rows ++ rest.
Proof.
  induction rows as [|r rs IH]; intros Hs.
  - now exists [].
  - simpl in Hs. assert (Hall := sorted_times_bound Hs).
    simpl. destruct (Qle_bool (time r) x) eqn:E.
    + destruct IH as [rest Hrest]; [now inversion Hs|].
      exists rest. simpl. now rewrite <- Hrest.
    + apply Qle_bool_gt in E. rewrite (upto_all_later rs E Hall).
      now exists (r :: rs).
Qed.

Lemma upto_monotone (x x' : Q) (rows : table) :
  Sorted Qle (map time rows) -> x <= x' ->
  exists mid, upto x' rows = upto x rows ++ mid.
Proof.
  induction rows as [|r rs IH]; intros Hs Hx.
  - now exists [].
  - simpl in Hs. assert (Hall := sorted_times_bound Hs).
    simpl. destruct (Qle_bool (time r) x) eqn:E.
    + assert (E' : Qle_bool (time r) x' = true).
      { apply Qle_bool_iff. apply Qle_bool_iff in E.
        eapply Qle_trans; eauto. }
      rewrite E'. destruct IH as [mid Hmid]; [now inversion Hs|trivial|].
      exists mid. simpl. now rewrite Hmid.
    + apply Qle_bool_gt in E. rewrite (upto_all_later rs E Hall).
      eexists. reflexivity.
Qed.

Lemma Forall_app_l {A : Type} (P : A -> Prop) (l1 l2 : list A) :
  Forall P (l1 ++ l2) -> Forall P l1.
Proof. intros H. now apply Forall_app in H. Qed.

Lemma Forall_app_r {A : Type} (P : A -> Prop) (l1 l2 : list A) :
  Forall P (l1 ++ l2) -> Forall P l2.
Proof. intros H. now apply Forall_app in H. Qed.

(** Along a valid table the value read at a later point is the value read
    at an earlier point plus non-negative increments. *)
Lemma curve_value_monotone (h : Z -> Z -> float) (rows : table) (x x' : Q) :
  nonneg_increment h ->
  valid_table rows ->
  x <= x' ->
  exists a b,
    accumulated fadd h (upto x rows) (total_removed rows) (Fin 0) = Fin a /\
    accumulated fadd h (upto x' rows) (total_removed rows) (Fin 0) = Fin b /\
    (0 <= a <= b)%R.
Proof.
  intros Hh [Hs Hv] Hx. apply sorted_lt_le in Hs.
  destruct (upto_monotone rows Hs Hx) as [mid Hmid].
  destruct (upto_prefix x' rows Hs) as [rest Hrest].
  rewrite Hmid in Hrest.
  assert (Hv' : Forall valid_row (upto x rows ++ mid ++ rest))
    by now rewrite app_assoc, <- Hrest.
  assert (Hv1 := Forall_app_l _ _ Hv').
  assert (Hv2 := Forall_app_l _ _ (Forall_app_r _ _ Hv')).
  assert (Hv3 := Forall_app_r _ _ (Forall_app_r _ _ Hv')).
  assert (HN : total_removed rows
               = (total_removed (upto x rows) + total_removed mid
                  + total_removed rest)%Z).
  { rewrite Hrest at 1. rewrite !total_removed_app. reflexivity. }
  pose proof (total_removed_nonneg Hv2) as H2.
  pose proof (total_removed_nonneg Hv3) as H3.
  destruct (@accumulated_nonneg h _ Hh Hv1 (total_removed rows) 0%R)
    as (a & Ea & Ha); [lia|].
  rewrite Hmid, accumulated_app, Ea, (risk_after _ Hv1).
  destruct (@accumulated_nonneg h _ Hh Hv2
              (total_removed rows - total_removed (upto x rows))%Z a)
    as (b & Eb & Hb); [lia|].
  exists a, b. repeat split; trivial.
Qed.

(** ** The Nelson-Aalen increments are finite and non-negative *)

Lemma in_range (d i : Z) : In i (range d) -> (0 <= i < d)%Z.
Proof.
  unfold range. rewrite in_map_iff. intros (k & <- & Hk).
  apply in_seq in Hk. lia.
Qed.

Lemma np_sum_reciprocals (k : Z -> Z) (l : list Z) (a : R) :
  Forall (fun i => k i <> 0%Z) l ->
  fold_left fadd (map (fun i => fdiv (Fin 1) (of_int (k i))) l) (Fin a)
  = Fin (fold_left Rplus (map (fun i => 1 / IZR (k i))%R l) a).
Proof.
  revert a. induction l as [|i l IH]; intros a H; [reflexivity|].
  inversion H; subst. cbn [map fold_left].
  change (of_int (k i)) with (Fin (IZR (k i))).
  rewrite fdiv_int by assumption. cbn [fadd]. now apply IH.
Qed.

Lemma reciprocals_nonneg (k : Z -> Z) (l : list Z) :
  Forall (fun i => 0 < k i)%Z l ->
  Forall (fun x => 0 <= x)%R (map (fun i => 1 / IZR (k i))%R l).
Proof.
  induction 1 as [|i l Hi _ IH]; constructor; trivial.
  apply div_nonneg; [lra|]. now apply (IZR_lt 0).
Qed.

Lemma sum_of_reciprocals (k : Z -> Z) (d : Z) :
  (forall i, 0 <= i < d -> 0 < k i)%Z ->
  exists z,
    np_sum (map (fun i => fdiv (Fin 1) (of_int (k i))) (range d)) = Fin z /\
    (0 <= z)%R.
Proof.
  intros H.
  assert (Hpos : Forall (fun i => 0 < k i)%Z (range d)).
  { apply Forall_forall. intros i Hi. apply H. now apply in_range. }
  unfold np_sum. rewrite np_sum_reciprocals.
  - eexists. split; [reflexivity|].
    apply fold_Rplus_nonneg. now apply reciprocals_nonneg.
  - eapply Forall_impl; [|exact Hpos]. intros i Hi. simpl in Hi. lia.
Qed.

Lemma additive_f_smooth_nonneg :
  nonneg_increment NelsonAalenFitter._additive_f_smooth.
Proof.
  intros N d Hd. unfold NelsonAalenFitter._additive_f_smooth.
  destruct (both_zero N d); [exists 0%R; split; [reflexivity|lra]|].
  apply (sum_of_reciprocals (fun i => N - i)%Z). intros i Hi. lia.
Qed.

Lemma additive_f_discrete_nonneg :
  nonneg_increment NelsonAalenFitter._additive_f_discrete.
Proof.
  intros N d Hd. destruct (Z.eq_dec N 0) as [-> | HN].
  - assert (d = 0%Z) as -> by lia.
    exists 0%R. split; [reflexivity|lra].
  - rewrite additive_f_discrete_value by assumption.
    eexists. split; [reflexivity|].
    apply div_nonneg; [apply (IZR_le 0) | apply (IZR_lt 0)]; lia.
Qed.

Lemma additive_f_nonneg (s : NelsonAalenFitter.self) :
  nonneg_increment (NelsonAalenFitter._additive_f s).
Proof.
  unfold NelsonAalenFitter._additive_f.
  destruct (NelsonAalenFitter.nelson_aalen_smoothing s);
    [apply additive_f_smooth_nonneg | apply additive_f_discrete_nonneg].
Qed.

Lemma additive_f_no_death (s : NelsonAalenFitter.self) (N : Z) :
  NelsonAalenFitter._additive_f s N 0 = Fin 0.
Proof.
  unfold NelsonAalenFitter._additive_f.
  destruct (NelsonAalenFitter.nelson_aalen_smoothing s).
  - unfold NelsonAalenFitter._additive_f_smooth.
    now destruct (both_zero N 0).
  - destruct (Z.eq_dec N 0) as [-> | HN]; [reflexivity|].
    rewrite additive_f_discrete_value by assumption.
    f_equal. unfold Rdiv. ring.
Qed.

(** ** Invariants of the aggregated table *)

Lemma aggregate_invariant (P : RiskSetRow -> Prop) (sample : list (Q * bool)) :
  (forall s rows, In s sample -> Forall P rows ->
                  Forall P (tally (fst s) (snd s) rows)) ->
  forall rows, Forall P rows -> Forall P (aggregate sample rows).
Proof.
  induction sample as [|s sample IH]; intros Hstep rows H; [exact H|].
  simpl. apply IH.
  - intros s' rows' Hin. apply Hstep. now right.
  - apply Hstep; [now left|exact H].
Qed.

Lemma tally_rows2 (P P' : RiskSetRow -> Prop) (t1 : Q) (o : bool)
    (rows : table) :
  P' (one_subject t1 o) ->
  (forall r, t1 == time r -> P r -> P' (count_subject o r)) ->
  (forall r, P r -> P' r) ->
  Forall P rows -> Forall P' (tally t1 o rows).
Proof.
  intros Hnew Hcount Hkeep. induction 1 as [|r rs Hr Hrs IH]; simpl.
  - now repeat constructor.
  - assert (Hrs' : Forall P' rs).
    { eapply Forall_impl; [exact Hkeep|exact Hrs]. }
    destruct (t1 ?= time r) eqn:E.
    + constructor; trivial. apply Hcount; trivial. now apply Qeq_alt.
    + constructor; trivial. constructor; trivial. now apply Hkeep.
    + constructor; trivial. now apply Hkeep.
Qed.

Lemma tally_rows (P : RiskSetRow -> Prop) (t1 : Q) (o : bool) (rows : table) :
  P (one_subject t1 o) ->
  (forall r, t1 == time r -> P r -> P (count_subject o r)) ->
  Forall P rows -> Forall P (tally t1 o rows).
Proof.
  intros Hnew Hcount. now apply tally_rows2.
Qed.

Lemma risk_sets_origin (event_times : list Q) (censorship : option (list bool)) :
  no_event_at_origin event_times censorship ->
  Forall (fun r => time r <= 0 -> observed_deaths r = 0%Z)
         (risk_sets event_times censorship).
Proof.
  intros H. unfold risk_sets. fold (subjects event_times censorship).
  apply aggregate_invariant; [|constructor].
  intros [t1 o] rows Hin Hrows. simpl.
  unfold no_event_at_origin in H. rewrite Forall_forall in H.
  specialize (H _ Hin). simpl in H.
  apply tally_rows; trivial.
  - simpl. intros Ht. destruct o; [|reflexivity].
    exfalso. apply (Qlt_irrefl 0). eapply Qlt_le_trans; [now apply H|trivial].
  - intros r Et Hr. simpl. intros Ht. destruct o.
    + exfalso. apply (Qlt_irrefl 0).
      eapply Qlt_le_trans; [now apply H|]. now rewrite Et.
    + rewrite Hr by assumption. reflexivity.
Qed.

Lemma accumulated_no_death (h : Z -> Z -> float) (rows : table) :
  (forall N, (0 <= N)%Z -> h N 0%Z = Fin 0) ->
  Forall valid_row rows ->
  Forall (fun r => observed_deaths r = 0%Z) rows ->
  forall N, (total_removed rows <= N)%Z ->
            accumulated fadd h rows N (Fin 0) = Fin 0.
Proof.
  intros Hh Hv. induction Hv as [|r rs Hr Hrs IH]; intros Hd N HN.
  - reflexivity.
  - inversion Hd as [|? ? Hd1 Hd2]; subst.
    rewrite total_removed_cons in HN.
    pose proof (total_removed_nonneg Hrs) as H0.
    destruct Hr as (H1 & H2 & H3).
    simpl. rewrite Hd1, Hh by lia. cbn [fadd]. rewrite Rplus_0_l.
    apply IH; trivial. lia.
Qed.

(** ** The Nelson-Aalen curve along the timeline *)

Lemma with_origin_sorted (timeline tl : list Q) :
  Sorted Qle timeline -> with_origin timeline = Ok tl -> Sorted Qle tl.
Proof.
  destruct timeline as [|t1 ts]; [discriminate|]. simpl.
  intros Hs H. injection H as <-.
  destruct (Qltb 0 t1) eqn:E; [|exact Hs].
  constructor; [exact Hs|]. constructor.
  apply Qlt_le_weak. now apply Qltb_lt.
Qed.

Lemma fitted_timeline_sorted (event_times : list Q)
    (censorship : option (list bool)) (timeline : option (list Q))
    (tl : list Q) :
  ascending timeline ->
  with_origin (timeline_or_events (risk_sets event_times censorship)
                                  timeline) = Ok tl ->
  Sorted Qle tl.
Proof.
  intros Ha. apply with_origin_sorted.
  destruct timeline as [tl0|]; [exact Ha|].
  apply sorted_lt_le, risk_sets_valid.
Qed.

Lemma sorted_nth (l : list Q) (i j : nat) (a b : Q) :
  Sorted Qle l -> (i <= j)%nat ->
  nth_error l i = Some a -> nth_error l j = Some b -> a <= b.
Proof.
  intros Hs. revert i j. induction l as [|x l IH]; intros i j Hij Hi Hj.
  - now destruct i.
  - assert (Hall := sorted_times_bound Hs).
    destruct i as [|i], j as [|j]; simpl in Hi, Hj; try lia.
    + injection Hi as <-. injection Hj as <-. apply Qle_refl.
    + injection Hi as <-. rewrite Forall_forall in Hall.
      apply Hall. eapply nth_error_In; eauto.
    + apply (IH ltac:(now inversion Hs) i j); trivial. lia.
Qed.

Lemma curve_of_nondecreasing (h : Z -> Z -> float) (rows : table)
    (tl : list Q) :
  nonneg_increment h -> valid_table rows -> Sorted Qle tl ->
  nondecreasing (curve_of (Fin 0) fadd h rows tl).
Proof.
  intros Hh Hv Hs i j a b Hij Hi Hj. unfold curve_of in Hi, Hj.
  rewrite nth_error_map in Hi, Hj.
  destruct (nth_error tl i) as [x|] eqn:Ei; [|discriminate].
  destruct (nth_error tl j) as [x'|] eqn:Ej; [|discriminate].
  injection Hi as <-. injection Hj as <-. cbn [snd].
  pose proof (sorted_nth Hs Hij Ei Ej) as Hx.
  destruct (curve_value_monotone Hh Hv Hx) as (u & w & -> & -> & Hu).
  simpl. lra.
Qed.

Lemma curve_of_origin (h : Z -> Z -> float) (rows : table) (tl : list Q)
    (x : Q) (y : float) :
  (forall N, (0 <= N)%Z -> h N 0%Z = Fin 0) ->
  valid_table rows ->
  Forall (fun r => time r <= 0 -> observed_deaths r = 0%Z) rows ->
  In (x, y) (curve_of (Fin 0) fadd h rows tl) -> x == 0 -> y = Fin 0.
Proof.
  intros Hh [Hs Hv] H0 Hin Hx. apply in_curve_of in Hin. subst y.
  apply sorted_lt_le in Hs.
  destruct (upto_prefix x rows Hs) as [rest Hrest].
  assert (Hv' : Forall valid_row (upto x rows ++ rest))
    by now rewrite <- Hrest.
  apply accumulated_no_death; trivial.
  - now apply Forall_app_l in Hv'.
  - apply Forall_forall. intros r Hr. unfold upto in Hr.
    apply filter_In in Hr. destruct Hr as [Hr Ht].
    rewrite Forall_forall in H0. apply H0; trivial.
    apply Qle_bool_iff in Ht. now rewrite <- Hx.
  - rewrite Hrest at 2. rewrite total_removed_app.
    pose proof (total_removed_nonneg (Forall_app_r _ _ Hv')). lia.
Qed.

(** C7, as stated, fails: with deaths observed at times 0 and 1, the
    fitted cumulative hazard at time 0 is 1/2. *)
Lemma hazard_at_origin_not_zero :
  ~ hazard_monotone logistic_quantile
      (NelsonAalenFitter.__init__ (95 / 100) true)
      [0; 1] None None None True.
Proof.
  intros (s' & r & H & Hfit & HH & _ & H0).
  assert (Hin : fittable [0; 1] None None) by (repeat split; discriminate).
  destruct (NelsonAalen_fit_spec logistic_quantile
              (NelsonAalenFitter.__init__ (95 / 100) true) None Hin)
    as (tl & s2 & Htl & Hfit2 & HH2 & _).
  rewrite Hfit in Hfit2. injection Hfit2 as <- _.
  rewrite HH in HH2. injection HH2 as ->.
  assert (Etl : tl = [0; 1]) by (vm_compute in Htl; congruence).
  subst tl.
  specialize (H0 I 0
                 (NelsonAalenFitter._additive_f
                    (NelsonAalenFitter.__init__ (95 / 100) true) 2 1)).
  assert (E : NelsonAalenFitter._additive_f
                (NelsonAalenFitter.__init__ (95 / 100) true) 2 1
              = Fin (1 / 2)).
  { cbn [NelsonAalenFitter._additive_f
         NelsonAalenFitter.nelson_aalen_smoothing
         NelsonAalenFitter.__init__].
    rewrite additive_f_smooth_discrete by lia.
    now rewrite additive_f_discrete_value by lia. }
  rewrite E in H0.
  assert (Hz : Fin (1 / 2) = Fin 0).
  { apply H0; [|reflexivity]. left. unfold curve_of. cbn [map].
    f_equal. change (upto 0 (risk_sets [0; 1] None))
      with [ {| time := 0; removed := 1; observed_deaths := 1;
                missing := 0 |} ].
    change (total_removed (risk_sets [0; 1] None)) with 2%Z.
    cbn [accumulated missing observed_deaths].
    change (2 - 0)%Z with 2%Z.
    cbn [NelsonAalenFitter._additive_f
         NelsonAalenFitter.nelson_aalen_smoothing
         NelsonAalenFitter.__init__].
    rewrite additive_f_smooth_discrete by lia.
    rewrite additive_f_discrete_value by lia.
    cbn [fadd]. f_equal. lra. }
  injection Hz as Hz. lra.
Qed.

(** C7, amended.  For every sample the fitter accepts and every ascending
    timeline, the fitted Nelson-Aalen [cumulative_hazard_] is
    non-decreasing along the timeline, and it equals 0 at time 0 when no
    event is observed at or before time 0 (every observed event time is
    greater than 0). *)
Theorem NelsonAalen_cumulative_hazard_monotone :
  forall (inv_normal_cdf : R -> R) (s : NelsonAalenFitter.self)
         (event_times : list Q) (censorship : option (list bool))
         (timeline : option (list Q)) (alpha : option R),
    fittable event_times censorship timeline ->
    ascending timeline ->
    hazard_monotone inv_normal_cdf s event_times censorship timeline alpha
                    (no_event_at_origin event_times censorship).
Proof.
  intros q s event_times censorship timeline alpha Hin Hasc.
  destruct (NelsonAalen_fit_spec q s alpha Hin)
    as (tl & s' & Htl & Hfit & HH & _).
  exists s', PyNone. eexists. split; [exact Hfit|]. split; [exact HH|].
  split.
  - apply curve_of_nondecreasing.
    + apply additive_f_nonneg.
    + apply risk_sets_valid.
    + eapply fitted_timeline_sorted; eauto.
  - intros H0 x y Hxy Hx.
    apply curve_of_origin
      with (h := NelsonAalenFitter._additive_f s)
           (rows := risk_sets event_times censorship) (tl := tl) (x := x);
      trivial.
    + intros N _. apply additive_f_no_death.
    + apply risk_sets_valid.
    + now apply risk_sets_origin.
Qed.

Lemma NelsonAalen_cumulative_hazard_monotone_witness :
  hazard_monotone logistic_quantile
    (NelsonAalenFitter.__init__ (95 / 100) true)
    example_times (Some example_censorship) (Some [0; 1; 2; 3]) None
    (no_event_at_origin example_times (Some example_censorship)).
Proof.
  apply NelsonAalen_cumulative_hazard_monotone.
  - repeat split; discriminate.
  - repeat constructor; discriminate.
Defined.

(** ** Without ties every row counts at most one death *)

Lemma aggregate_no_ties (sample : list (Q * bool)) :
  ForallOrdPairs (fun a b => ~ a == b) (observed_times sample) ->
  forall rows,
    Forall (fun r => (0 <= observed_deaths r <= 1)%Z /\
                     (observed_deaths r = 1%Z ->
                      Forall (fun t1 => ~ t1 == time r)
                             (observed_times sample))) rows ->
    Forall (fun r => (0 <= observed_deaths r <= 1)%Z)
           (aggregate sample rows).
Proof.
  induction sample as [|[t1 o] sample IH]; intros Hd rows Hrows.
  - simpl. eapply Forall_impl; [|exact Hrows]. now intros r [H _].
  - simpl. destruct o; unfold observed_times in Hd; simpl in Hd.
    + inversion Hd as [|? ? Hfresh Hrest]; subst.
      apply IH; trivial. eapply tally_rows2; [| | |exact Hrows].
      * simpl. split; [lia|]. intros _.
        eapply Forall_impl; [|exact Hfresh]. intros t2 H2 E. apply H2.
        now symmetry.
      * intros r Et [Hr1 Hr2]. simpl.
        assert (observed_deaths r <> 1%Z).
        { intros E. specialize (Hr2 E). unfold observed_times in Hr2.
          simpl in Hr2. inversion Hr2; subst. contradiction. }
        split; [lia|]. intros _.
        eapply Forall_impl; [|exact Hfresh]. intros t2 H2 E. apply H2.
        rewrite Et. now symmetry.
      * intros r [Hr1 Hr2]. split; trivial. intros E.
        specialize (Hr2 E). unfold observed_times in Hr2. simpl in Hr2.
        now inversion Hr2.
    + apply IH; trivial. eapply tally_rows; [| |exact Hrows].
      * simpl. split; [lia|]. intros E. discriminate.
      * intros r Et [Hr1 Hr2]. simpl. rewrite Z.add_0_r. now split.
Qed.

Lemma risk_sets_no_ties (event_times : list Q)
    (censorship : option (list bool)) :
  no_ties event_times censorship ->
  Forall (fun r => (0 <= observed_deaths r <= 1)%Z)
         (risk_sets event_times censorship).
Proof.
  intros H. apply aggregate_no_ties; [exact H|constructor].
Qed.

Lemma accumulated_ext (h h' : Z -> Z -> float) (rows : table) :
  Forall (fun r => forall N, h N (observed_deaths r)
                             = h' N (observed_deaths r)) rows ->
  forall N v, accumulated fadd h rows N v = accumulated fadd h' rows N v.
Proof.
  induction 1 as [|r rs Hr _ IH]; intros N v; [reflexivity|].
  simpl. now rewrite Hr, IH.
Qed.

Lemma Forall_upto (P : RiskSetRow -> Prop) (x : Q) (rows : table) :
  Forall P rows -> Forall P (upto x rows).
Proof.
  intros H. apply Forall_forall. intros r Hr. unfold upto in Hr.
  apply filter_In in Hr. rewrite Forall_forall in H. now apply H.
Qed.

(** C8. For every sample the fitter accepts whose observed event times are
    all distinct, the smooth and the discrete Nelson-Aalen variant produce
    the same cumulative-hazard curve at every timeline point. *)
Theorem smooth_and_discrete_agree_without_ties :
  forall (inv_normal_cdf : R -> R) (alpha0 : R) (event_times : list Q)
         (censorship : option (list bool)) (timeline : option (list Q))
         (alpha : option R),
    fittable event_times censorship timeline ->
    no_ties event_times censorship ->
    same_hazard_curve inv_normal_cdf alpha0 event_times censorship timeline
                      alpha.
Proof.
  intros q a event_times censorship timeline alpha Hin Hties.
  destruct (NelsonAalen_fit_spec q (NelsonAalenFitter.__init__ a true)
              alpha Hin) as (tl & s1 & Htl & Hfit1 & HH1 & _).
  destruct (NelsonAalen_fit_spec q (NelsonAalenFitter.__init__ a false)
              alpha Hin) as (tl' & s2 & Htl' & Hfit2 & HH2 & _).
  rewrite Htl in Htl'. injection Htl' as <-.
  exists s1, s2, PyNone, PyNone. eexists.
  split; [exact Hfit1|]. split; [exact Hfit2|]. split; [exact HH1|].
  rewrite HH2. f_equal. unfold curve_of. apply map_ext. intros x.
  f_equal. symmetry. apply accumulated_ext. apply Forall_upto.
  eapply Forall_impl; [|exact (risk_sets_no_ties Hties)].
  intros r Hr N. simpl. now apply additive_f_smooth_discrete.
Qed.

Lemma smooth_and_discrete_agree_without_ties_witness :
  same_hazard_curve logistic_quantile (95 / 100)
    [1; 2; 2; 3] (Some [true; false; true; true]) None None.
Proof.
  apply smooth_and_discrete_agree_without_ties.
  - repeat split; discriminate.
  - repeat constructor; discriminate.
Defined.

(** ** Samples without an observed event *)

Lemma risk_sets_all_censored (event_times : list Q) (censorship : list bool) :
  Forall (fun o => o = false) censorship ->
  Forall (fun r => observed_deaths r = 0%Z)
         (risk_sets event_times (Some censorship)).
Proof.
  intros H. unfold risk_sets. apply aggregate_invariant; [|constructor].
  intros [t1 o] rows Hin Hrows. simpl.
  apply in_combine_r in Hin. simpl in Hin.
  rewrite Forall_forall in H. rewrite (H _ Hin).
  apply tally_rows; trivial.
  intros r _ Hr. simpl. lia.
Qed.

Lemma KaplanMeier_additive_f_no_death (N : Z) :
  (0 <= N)%Z -> KaplanMeierFitter._additive_f N 0 = Fin 0.
Proof.
  intros HN. destruct (Z.eq_dec N 0) as [-> | H0]; [reflexivity|].
  rewrite KaplanMeier_additive_f_value by lia. f_equal.
  replace (1 - 0 / IZR N)%R with 1%R by (unfold Rdiv; ring).
  apply ln_1.
Qed.

Lemma curve_of_no_death (h : Z -> Z -> float) (rows : table) (tl : list Q) :
  (forall N, (0 <= N)%Z -> h N 0%Z = Fin 0) ->
  valid_table rows ->
  Forall (fun r => observed_deaths r = 0%Z) rows ->
  Forall (fun row => snd row = Fin 0) (curve_of (Fin 0) fadd h rows tl).
Proof.
  intros Hh [Hs Hv] Hd. apply Forall_forall. intros [x y] Hin.
  apply in_curve_of in Hin. subst y. simpl.
  apply sorted_lt_le in Hs.
  destruct (upto_prefix x rows Hs) as [rest Hrest].
  assert (Hv' : Forall valid_row (upto x rows ++ rest))
    by now rewrite <- Hrest.
  apply accumulated_no_death; trivial.
  - now apply Forall_app_l in Hv'.
  - now apply Forall_upto.
  - rewrite Hrest at 2. rewrite total_removed_app.
    pose proof (total_removed_nonneg (Forall_app_r _ _ Hv')). lia.
Qed.

(** C5, as stated, fails: fitting the empty sample raises; the default
    timeline is empty and [timeline[0]] is an index error. *)
Lemma empty_sample_is_an_error :
  ~ flat_fits logistic_quantile
      (NelsonAalenFitter.__init__ (95 / 100) true)
      (KaplanMeierFitter.__init__ (95 / 100))
      [] None None None.
Proof.
  intros (na' & km' & r & r' & H & S & Hna & _).
  unfold NelsonAalenFitter.fit in Hna. simpl in Hna. discriminate.
Qed.

(** C5, amended.  For a non-empty sample without an observed event,
    fitting the nonparametric estimators is not an error: both fits run to
    completion and the curves stay at their initial value at every timeline
    point, cumulative hazard 0 for Nelson-Aalen and survival 1 for
    Kaplan-Meier. *)
Theorem all_censored_curves_are_flat :
  forall (inv_normal_cdf : R -> R) (na : NelsonAalenFitter.self)
         (km : KaplanMeierFitter.self) (event_times : list Q)
         (censorship : list bool) (timeline : option (list Q))
         (alpha : option R),
    fittable event_times (Some censorship) timeline ->
    Forall (fun o => o = false) censorship ->
    flat_fits inv_normal_cdf na km event_times (Some censorship) timeline
              alpha.
Proof.
  intros q na km event_times censorship timeline alpha Hin Hc.
  destruct (NelsonAalen_fit_spec q na alpha Hin)
    as (tl & na' & Htl & Hna & HH & _).
  destruct (KaplanMeier_fit_spec q km alpha Hin)
    as (tl' & km' & a2 & Htl' & Hkm & HS & _).
  rewrite Htl in Htl'. injection Htl' as <-.
  pose proof (risk_sets_valid event_times (Some censorship)) as Hv.
  pose proof (risk_sets_all_censored event_times Hc) as Hd.
  exists na', km', PyNone, (PySelf km'). eexists. eexists.
  split; [exact Hna|]. split; [exact Hkm|].
  split; [exact HH|]. split; [exact HS|]. split.
  - apply curve_of_no_death; trivial.
    intros N _. apply additive_f_no_death.
  - apply Forall_map.
    eapply Forall_impl;
      [|exact (@curve_of_no_death _ _ tl
                 KaplanMeier_additive_f_no_death Hv Hd)].
    intros [x y] Hy. simpl in *. subst y. simpl. now rewrite exp_0.
Qed.

Lemma all_censored_curves_are_flat_witness :
  flat_fits logistic_quantile
    (NelsonAalenFitter.__init__ (95 / 100) true)
    (KaplanMeierFitter.__init__ (95 / 100))
    [1; 2; 2; 3] (Some [false; false; false; false]) None None.
Proof.
  apply all_censored_curves_are_flat.
  - repeat split; discriminate.
  - repeat constructor.
Defined.

(** ** Confidence bands, row by row *)

Lemma exp_monotone (x y : R) : (x <= y)%R -> (exp x <= exp y)%R.
Proof.
  intros [H| ->]; [|lra]. left. now apply exp_increasing.
Qed.

Lemma fsqrt_nonneg (s : R) : (0 <= s)%R -> fsqrt (Fin s) = Fin (sqrt s).
Proof.
  intros [H| <-]; unfold fsqrt.
  - now rewrite Rsign_pos.
  - now rewrite Rsign_zero.
Qed.

Lemma fdiv_nonzero (a b : R) : b <> 0%R -> fdiv (Fin a) (Fin b) = Fin (a / b).
Proof.
  intros H. unfold fdiv, Rsign.
  destruct (total_order_T b 0) as [[H1|H1]|H1]; trivial. contradiction.
Qed.



(** ** The variance increments *)

(** An [int64] result that fits is the integer itself. *)
Lemma wrap64_small (z : Z) : (- 2 ^ 63 <= z < 2 ^ 63)%Z -> wrap64 z = z.
Proof.
  intros H. unfold wrap64. rewrite Z.mod_small; lia.
Qed.

(** From [N = 2^21] on the cube wraps: the discrete variance increment of
    a single death at that risk set is negative. *)
Lemma variance_f_discrete_wraps :
  exists z,
    NelsonAalenFitter._variance_f_discrete (2 ^ 21) 1 = Fin z /\ (z < 0)%R.
Proof.
  unfold NelsonAalenFitter._variance_f_discrete, of_int.
  rewrite both_zero_false by discriminate. cbn [fmul].
  replace (wrap64 ((2 ^ 21) ^ 3)) with (- 2 ^ 63)%Z by reflexivity.
  rewrite fdiv_int by discriminate.
  eexists. split; [reflexivity|].
  assert (Hb : (IZR (- 2 ^ 63) < 0)%R) by (apply (IZR_lt _ 0); reflexivity).
  assert (Ha : (0 < IZR (2 ^ 21 - 1))%R) by (apply (IZR_lt 0); reflexivity).
  apply Rinv_lt_0_compat in Hb. unfold Rdiv.
  set (a := IZR (2 ^ 21 - 1)) in *. set (b := (/ IZR (- 2 ^ 63))%R) in *.
  nra.
Qed.

Lemma square_fits (n : Z) :
  (0 < n < 2 ^ 21)%Z -> (0 < n ^ 2 < 2 ^ 63)%Z.
Proof.
  intros H. change (2 ^ 21)%Z with 2097152%Z in H.
  change (2 ^ 63)%Z with 9223372036854775808%Z. nia.
Qed.

Lemma product_fits (n m : Z) :
  (0 < m <= n)%Z -> (n < 2 ^ 21)%Z -> (0 < n * m < 2 ^ 63)%Z.
Proof.
  intros H Hn. change (2 ^ 21)%Z with 2097152%Z in Hn.
  change (2 ^ 63)%Z with 9223372036854775808%Z. nia.
Qed.

Lemma cube_fits (n : Z) :
  (0 < n < 2 ^ 21)%Z -> (0 < n ^ 3 < 2 ^ 63)%Z.
Proof.
  intros H. split; [apply Z.pow_pos_nonneg; lia|].
  change (2 ^ 63)%Z with ((2 ^ 21) ^ 3)%Z.
  apply Z.pow_lt_mono_l; lia.
Qed.

Lemma variance_f_smooth_nonneg :
  nonneg_increment_below (2 ^ 21) NelsonAalenFitter._variance_f_smooth.
Proof.
  intros N d Hd HN. unfold NelsonAalenFitter._variance_f_smooth.
  destruct (both_zero N d); [exists 0%R; split; [reflexivity|lra]|].
  apply (sum_of_reciprocals (fun i => wrap64 ((N - i) ^ 2))%Z). intros i Hi.
  assert (H := @square_fits (N - i)%Z ltac:(lia)).
  rewrite wrap64_small; lia.
Qed.

Lemma variance_f_discrete_nonneg :
  nonneg_increment_below (2 ^ 21) NelsonAalenFitter._variance_f_discrete.
Proof.
  intros N d Hd HN. destruct (Z.eq_dec N 0) as [-> | HN0].
  - assert (d = 0%Z) as -> by lia.
    exists 0%R. split; [reflexivity|lra].
  - unfold NelsonAalenFitter._variance_f_discrete, of_int.
    rewrite both_zero_false by assumption. cbn [fmul].
    assert (H3 := @cube_fits N ltac:(lia)).
    rewrite wrap64_small by lia.
    rewrite fdiv_int by lia.
    eexists. split; [reflexivity|].
    apply div_nonneg; [|apply (IZR_lt 0); lia].
    assert (0 <= IZR (N - d))%R by (apply (IZR_le 0); lia).
    assert (0 <= IZR d)%R by (apply (IZR_le 0); lia).
    nra.
Qed.

Lemma variance_f_nonneg (s : NelsonAalenFitter.self) :
  nonneg_increment_below (2 ^ 21) (NelsonAalenFitter._variance_f s).
Proof.
  unfold NelsonAalenFitter._variance_f.
  destruct (NelsonAalenFitter.nelson_aalen_smoothing s);
    [apply variance_f_smooth_nonneg | apply variance_f_discrete_nonneg].
Qed.

Lemma KaplanMeier_variance_f_value (N d : Z) :
  (0 <= d < N)%Z -> (N < 2 ^ 21)%Z ->
  exists z, KaplanMeierFitter._variance_f N d = Fin z /\ (0 <= z)%R.
Proof.
  intros H HN. unfold KaplanMeierFitter._variance_f, of_int.
  rewrite both_zero_false by lia. cbn [fmul].
  assert (HM := @product_fits N (N - d)%Z ltac:(lia) HN).
  rewrite wrap64_small by lia.
  rewrite fdiv_int by lia. eexists. split; [reflexivity|].
  apply div_nonneg; [|apply (IZR_lt 0); lia].
  assert (0 <= IZR d)%R by (apply (IZR_le 0); lia). lra.
Qed.

Lemma KaplanMeier_additive_f_nonpos (N d : Z) :
  (0 <= d < N)%Z ->
  exists z, KaplanMeierFitter._additive_f N d = Fin z /\ (z <= 0)%R.
Proof.
  intros H. rewrite KaplanMeier_additive_f_value by assumption.
  eexists. split; [reflexivity|].
  assert (HN : (0 < IZR N)%R) by (apply (IZR_lt 0); lia).
  assert (Hd : (IZR d < IZR N)%R) by (apply IZR_lt; lia).
  assert (H0 : (0 <= IZR d)%R) by (apply (IZR_le 0); lia).
  pose proof (div_lt_one HN Hd) as Hq.
  pose proof (div_nonneg H0 HN) as Hq0.
  destruct Hq0 as [Hq0 | Hq0].
  - rewrite <- ln_1. left. apply ln_increasing; lra.
  - rewrite <- Hq0. rewrite Rminus_0_r, ln_1. lra.
Qed.

(** Once the log-survival has reached [-inf] it stays there. *)
Lemma KaplanMeier_log_survival_stays (rows : table) :
  Forall valid_row rows ->
  forall N, (total_removed rows <= N)%Z ->
            accumulated fadd KaplanMeierFitter._additive_f rows N NInf
            = NInf.
Proof.
  induction 1 as [|r rs Hr Hrs IH]; intros N HN; [reflexivity|].
  rewrite total_removed_cons in HN.
  pose proof (total_removed_nonneg Hrs) as H0.
  destruct Hr as (H1 & H2 & H3). cbn [accumulated].
  assert (E : fadd NInf (KaplanMeierFitter._additive_f
                           (N - missing r) (observed_deaths r)) = NInf).
  { destruct (Z.eq_dec (observed_deaths r) (N - missing r)) as [E | E].
    - rewrite E. destruct (Z.eq_dec (N - missing r) 0) as [-> | E0].
      + reflexivity.
      + rewrite KaplanMeier_additive_f_all by lia. reflexivity.
    - destruct (@KaplanMeier_additive_f_nonpos (N - missing r)
                  (observed_deaths r)) as (z & -> & _); [lia|].
      reflexivity. }
  rewrite E. apply IH. lia.
Qed.

(** Along a valid table the Kaplan-Meier log-survival is [-inf] or a
    finite non-positive number, and in the second case the accumulated
    variance is a finite non-negative number. *)
Lemma KaplanMeier_accumulated (rows : table) :
  Forall valid_row rows ->
  forall (N : Z) (x s : R),
    (total_removed rows <= N)%Z -> (N < 2 ^ 21)%Z ->
    (x <= 0)%R -> (0 <= s)%R ->
    accumulated fadd KaplanMeierFitter._additive_f rows N (Fin x) = NInf \/
    exists x' s',
      accumulated fadd KaplanMeierFitter._additive_f rows N (Fin x)
      = Fin x' /\
      accumulated fadd KaplanMeierFitter._variance_f rows N (Fin s)
      = Fin s' /\
      (x' <= 0)%R /\ (0 <= s')%R.
Proof.
  induction 1 as [|r rs Hr Hrs IH]; intros N x s HN HB Hx Hs.
  - right. exists x, s. repeat split; trivial.
  - rewrite total_removed_cons in HN.
    pose proof (total_removed_nonneg Hrs) as H0.
    destruct Hr as (H1 & H2 & H3). cbn [accumulated].
    destruct (Z.eq_dec (observed_deaths r) (N - missing r)) as [E | E].
    + rewrite E. destruct (Z.eq_dec (N - missing r) 0) as [E0 | E0].
      * rewrite E0.
        change (KaplanMeierFitter._additive_f 0 0) with (Fin 0).
        change (KaplanMeierFitter._variance_f 0 0) with (Fin 0).
        cbn [fadd]. apply IH; lia || lra.
      * left. rewrite KaplanMeier_additive_f_all by lia. cbn [fadd].
        apply KaplanMeier_log_survival_stays; trivial. lia.
    + destruct (@KaplanMeier_additive_f_nonpos (N - missing r)
                  (observed_deaths r)) as (z & -> & Hz); [lia|].
      destruct (@KaplanMeier_variance_f_value (N - missing r)
                  (observed_deaths r)) as (w & -> & Hw); [lia|lia|].
      cbn [fadd]. apply IH; lia || lra.
Qed.

(** ** Confidence bands of the fitted curves *)

Lemma upto_valid (x : Q) (rows : table) :
  valid_table rows ->
  Forall valid_row (upto x rows) /\
  (total_removed (upto x rows) <= total_removed rows)%Z.
Proof.
  intros [Hs Hv]. apply sorted_lt_le in Hs.
  destruct (upto_prefix x rows Hs) as [rest Hrest].
  assert (Hv' : Forall valid_row (upto x rows ++ rest))
    by now rewrite <- Hrest.
  split; [now apply Forall_app_l in Hv'|].
  rewrite Hrest at 2. rewrite total_removed_app.
  pose proof (total_removed_nonneg (Forall_app_r _ _ Hv')). lia.
Qed.


Lemma combine_map_l {A A' B : Type} (f : A -> A') (l : list A)
    (l' : list B) :
  combine (map f l) l' = map (fun p => (f (fst p), snd p)) (combine l l').
Proof.
  revert l'. induction l as [|a l IH]; intros [|b l']; trivial.
  simpl. now rewrite IH.
Qed.

Lemma combine_curves {V : Type} (zero : V) (add : V -> V -> V)
    (h k : Z -> Z -> V) (rows : table) (tl : list Q) :
  combine (curve_of zero add h rows tl)
          (map snd (curve_of zero add k rows tl))
  = map (fun x =>
           ((x, accumulated add h (upto x rows) (total_removed rows) zero),
            accumulated add k (upto x rows) (total_removed rows) zero))
        tl.
Proof.
  unfold curve_of. rewrite !map_map. simpl.
  induction tl as [|x tl IH]; [reflexivity|]. simpl. now rewrite IH.
Qed.


Lemma with_origin_incl (timeline tl : list Q) (x : Q) :
  with_origin timeline = Ok tl -> In x timeline -> In x tl.
Proof.
  destruct timeline as [|t1 ts]; [discriminate|]. simpl.
  intros H. injection H as <-. intros Hx.
  destruct (Qltb 0 t1); [now right|exact Hx].
Qed.






(** ** The variance of Aalen's regression is a sum of squares *)

Lemma outer_diagonal_nonneg (c : vec) :
  Forall (fun x => 0 <= x)%R (outer_diagonal c).
Proof.
  unfold outer_diagonal, diagonal, dot. rewrite map_map, length_map.
  apply Forall_forall. intros y Hy. apply in_map_iff in Hy.
  destruct Hy as (j & <- & Hj). apply in_seq in Hj. simpl in Hj.
  set (G := fun x : R =>
              map (fun j0 => dotp [x] (col j0 [c])) (seq 0 (length c))).
  rewrite (nth_indep (map G c) [] (G 0%R)) by (rewrite length_map; lia).
  rewrite map_nth. unfold G.
  set (g := fun j0 : nat => dotp [nth j c 0%R] (col j0 [c])).
  rewrite (nth_indep (map g (seq 0 (length c))) 0%R (g O))
    by (rewrite length_map, length_seq; lia).
  rewrite map_nth, seq_nth by lia. unfold g, dotp, col. simpl.
  nra.
Qed.

Lemma vadd_nonneg (a b : vec) :
  Forall (fun x => 0 <= x)%R a -> Forall (fun x => 0 <= x)%R b ->
  Forall (fun x => 0 <= x)%R (vadd a b).
Proof.
  intros Ha Hb. unfold vadd. apply Forall_map, Forall_forall.
  intros [x y] Hin. simpl. rewrite Forall_forall in Ha, Hb.
  pose proof (Ha _ (in_combine_l _ _ _ _ Hin)).
  pose proof (Hb _ (in_combine_r _ _ _ _ Hin)). lra.
Qed.

Lemma put_nonneg (mask : Q -> bool) (row : vec)
    (df : AalenAdditiveFitter.frames) :
  Forall (fun x => 0 <= x)%R row -> nonneg_frame df ->
  nonneg_frame (AalenAdditiveFitter.put mask row df).
Proof.
  intros Hrow Hdf. unfold nonneg_frame, AalenAdditiveFitter.put.
  apply Forall_map. eapply Forall_impl; [|exact Hdf].
  intros r Hr. simpl. now destruct (mask (fst r)).
Qed.

Lemma accumulate_nonneg (mask : Q -> bool) (row : vec)
    (df : AalenAdditiveFitter.frames) :
  Forall (fun x => 0 <= x)%R row -> nonneg_frame df ->
  nonneg_frame (AalenAdditiveFitter.accumulate mask row df).
Proof.
  intros Hrow Hdf. unfold nonneg_frame, AalenAdditiveFitter.accumulate.
  apply Forall_map. eapply Forall_impl; [|exact Hdf].
  intros r Hr. simpl. destruct (mask (fst r)); trivial.
  now apply vadd_nonneg.
Qed.

Section AalenVariance.

Variable inv : matrix -> option matrix.
Variable inv_normal_cdf : R -> R.

Local Abbreviation fit := (AalenAdditiveFitter.fit inv inv_normal_cdf).
Local Abbreviation loop_body := (AalenAdditiveFitter.loop_body inv).



End AalenVariance.









(** * Further properties of the code *)

(** ** [_additive_estimate] on any table and timeline *)

Section AdditiveEstimateFrames.

Variable V : Type.
Variable zero : V.
Variable add : V -> V -> V.
Variables f g : Z -> Z -> V.

Lemma assign_index (mask : Q -> bool) (x : V) (df : frame V) :
  map fst (assign mask x df) = map fst df.
Proof.
  unfold assign. rewrite map_map. apply map_ext.
  intros row. now destruct (mask (fst row)).
Qed.

Lemma loop_keeps_index (rows : table) :
  forall s : locals V,
    map fst (_additive_estimate_ (fold_left (loop_body add f g) rows s))
    = map fst (_additive_estimate_ s) /\
    map fst (_additive_var (fold_left (loop_body add f g) rows s))
    = map fst (_additive_var s).
Proof.
  induction rows as [|r rows IH]; intros s; [now split|].
  cbn [fold_left]. destruct (IH (loop_body add f g s r)) as [-> ->].
  unfold loop_body. cbn [_additive_estimate_ _additive_var].
  now rewrite !assign_index.
Qed.

Lemma loop_binds_t (rows : table) (r : RiskSetRow) :
  forall s : locals V,
    t (fold_left (loop_body add f g) (rows ++ [r]) s) = Some (time r).
Proof.
  intros s. now rewrite fold_left_app.
Qed.

(** X1. [_additive_estimate] raises [IndexError] on an empty timeline and
    [UnboundLocalError] on an empty table; on any other table and timeline,
    sorted or not, it returns two frames indexed by the timeline, with time
    0 in front when the timeline starts after it. *)
Theorem additive_estimate_outcomes :
  forall (rows : table) (timeline : list Q),
    additive_estimate_outcome zero add f g rows timeline.
Proof.
  intros rows timeline. unfold additive_estimate_outcome.
  destruct timeline as [|t1 ts]; [reflexivity|].
  destruct rows as [|r rows]; [reflexivity|].
  unfold _additive_estimate. cbn [with_origin bind].
  destruct (exists_last (l := r :: rows) ltac:(discriminate))
    as (rows' & r' & E).
  rewrite E, loop_binds_t.
  eexists. eexists. split; [reflexivity|].
  rewrite !assign_index.
  match goal with
  | |- context [fold_left _ ?l ?s] =>
      destruct (loop_keeps_index l s) as [-> ->]
  end.
  cbn [_additive_estimate_ _additive_var].
  rewrite !assign_index, map_map. cbn [fst]. rewrite map_id.
  now split.
Qed.

End AdditiveEstimateFrames.

(** ** What the nonparametric fitters hold after [fit] *)

Lemma combine_index (index : list Q) (values : list band) :
  length index = length values ->
  map at_time (map (fun p => relabel (fst p) (snd p)) (combine index values))
  = index.
Proof.
  revert values. induction index as [|x index IH]; intros [|b values] H;
    try discriminate; trivial.
  simpl. f_equal. apply IH. now injection H.
Qed.

Lemma reindex_index (index : list Q) (values : list band) :
  map at_time (reindex index values) = index.
Proof.
  unfold reindex. rewrite map_map. rewrite <- (map_id index) at 2.
  apply map_ext. intros x. now destruct (find _ _).
Qed.

(** The band frame is indexed by the timeline it was built on. *)
Lemma set_column_index (index : list Q) (values ci : list band) :
  set_column index values = Ok ci -> map at_time ci = index.
Proof.
  unfold set_column. destruct (index_equals _ _) eqn:E.
  - intros H. injection H as <-. apply combine_index.
    apply index_equals_length in E. now rewrite length_map in E.
  - destruct (is_unique _); [|discriminate].
    intros H. injection H as <-. apply reindex_index.
Qed.

Lemma NelsonAalen_fit_attributes (inv_normal_cdf : R -> R)
    (s : NelsonAalenFitter.self) (event_times : list Q)
    (censorship : option (list bool)) (timeline : option (list Q))
    (alpha : option R) :
  fittable event_times censorship timeline ->
  NelsonAalen_fitted inv_normal_cdf s event_times censorship timeline alpha.
Proof.
  intros H. destruct (fittable_timeline H) as [tl Htl].
  unfold NelsonAalen_fitted. cbv zeta. unfold NelsonAalenFitter.fit.
  fold (censorship_or_ones event_times censorship).
  rewrite dataframe_from_events_censorship_ok by apply H.
  fold (risk_sets event_times censorship). cbn [bind].
  fold (timeline_or_events (risk_sets event_times censorship) timeline).
  rewrite (additive_estimate_on_sample _ _ H Htl). cbn [bind].
  unfold NelsonAalenFitter._bounds.
  cbn [NelsonAalenFitter.cumulative_hazard_ NelsonAalenFitter.timeline bind].
  match goal with
  | |- context [set_column ?i ?v] =>
      destruct (@set_column_ok i tl v Htl) as [ci Hci]
  end.
  { rewrite band_labels; [apply map_fst_curve_of|now intros [[x y] q]|].
    unfold curve_of. now rewrite !length_map. }
  { now apply fittable_unique. }
  rewrite Hci. cbn [bind]. eexists. exists tl. eexists. exists ci.
  split; [reflexivity|]. cbn.
  repeat (split; [reflexivity|]).
  split; [exact Htl|]. split; [reflexivity|].
  split; [apply map_fst_curve_of|]. split; [reflexivity|].
  now apply set_column_index in Hci.
Qed.

Lemma KaplanMeier_fit_attributes (inv_normal_cdf : R -> R)
    (s : KaplanMeierFitter.self) (event_times : list Q)
    (censorship : option (list bool)) (timeline : option (list Q))
    (alpha : option R) :
  fittable event_times censorship timeline ->
  KaplanMeier_fitted inv_normal_cdf s event_times censorship timeline alpha.
Proof.
  intros H. destruct (fittable_timeline H) as [tl Htl].
  unfold KaplanMeier_fitted. cbv zeta. unfold KaplanMeierFitter.fit.
  fold (censorship_or_ones event_times censorship).
  rewrite dataframe_from_events_censorship_ok by apply H.
  fold (risk_sets event_times censorship). cbn [bind].
  fold (timeline_or_events (risk_sets event_times censorship) timeline).
  rewrite (additive_estimate_on_sample _ _ H Htl). cbn [bind].
  match goal with
  | |- context [median_survival_times (DataFrame ?i [?c])] =>
      destruct (median_of_curve i (column := c)) as [m Hm]
  end.
  { apply with_origin_not_nil in Htl. unfold curve_of.
    destruct tl; [congruence|discriminate]. }
  rewrite Hm. cbn [bind]. unfold KaplanMeierFitter._bounds.
  cbn [KaplanMeierFitter.survival_function_ KaplanMeierFitter.timeline bind].
  match goal with
  | |- context [set_column ?i ?v] =>
      destruct (@set_column_ok i tl v Htl) as [ci Hci]
  end.
  { rewrite band_labels; [|now intros [[x y] q]|].
    - rewrite map_map. cbn [fst]. apply map_fst_curve_of.
    - unfold curve_of. now rewrite !length_map. }
  { now apply fittable_unique. }
  rewrite Hci. cbn [bind]. eexists. exists tl. eexists. exists m, ci.
  split; [reflexivity|]. cbn.
  repeat (split; [reflexivity|]).
  split; [exact Htl|]. split; [reflexivity|].
  split; [rewrite map_map; cbn [fst]; apply map_fst_curve_of|].
  split; [reflexivity|]. split; [exact Hm|]. split; [reflexivity|].
  now apply set_column_index in Hci.
Qed.

(** X2. On every sample they accept both nonparametric fits complete.
    [NelsonAalenFitter.fit] returns [None] and [KaplanMeierFitter.fit] the
    fitter itself; each fitter keeps its settings and holds the censorship
    it worked with (all [True] when none is given), the risk-set table, the
    timeline as given (the event times when none is given), its estimate
    indexed by that timeline with time 0 in front when it starts after 0,
    and a band frame indexed by the timeline as given; the Kaplan-Meier
    fitter also holds the median of its survival function. *)
Theorem nonparametric_fits_hold_their_inputs :
  forall (inv_normal_cdf : R -> R) (na : NelsonAalenFitter.self)
         (km : KaplanMeierFitter.self) (event_times : list Q)
         (censorship : option (list bool)) (timeline : option (list Q))
         (alpha : option R),
    fittable event_times censorship timeline ->
    NelsonAalen_fitted inv_normal_cdf na event_times censorship timeline
                       alpha /\
    KaplanMeier_fitted inv_normal_cdf km event_times censorship timeline
                       alpha.
Proof.
  intros q na km event_times censorship timeline alpha H. split.
  - now apply NelsonAalen_fit_attributes.
  - now apply KaplanMeier_fit_attributes.
Qed.

Lemma nonparametric_fits_hold_their_inputs_witness :
  NelsonAalen_fitted logistic_quantile
    (NelsonAalenFitter.__init__ (95 / 100) true)
    example_times (Some example_censorship) None None /\
  KaplanMeier_fitted logistic_quantile
    (KaplanMeierFitter.__init__ (95 / 100))
    example_times (Some example_censorship) None None.
Proof.
  apply nonparametric_fits_hold_their_inputs. exact example_fittable.
Defined.

(** ** The Kaplan-Meier curve along the timeline *)

(** Along a valid table the log-survival only goes down, possibly to
    [-inf]. *)
Lemma KaplanMeier_accumulated_le (rows : table) :
  Forall valid_row rows ->
  forall (N : Z) (x : R),
    (total_removed rows <= N)%Z ->
    accumulated fadd KaplanMeierFitter._additive_f rows N (Fin x) = NInf \/
    exists x',
      accumulated fadd KaplanMeierFitter._additive_f rows N (Fin x)
      = Fin x' /\ (x' <= x)%R.
Proof.
  induction 1 as [|r rs Hr Hrs IH]; intros N x HN.
  - right. exists x. split; [reflexivity|lra].
  - rewrite total_removed_cons in HN.
    pose proof (total_removed_nonneg Hrs) as H0.
    destruct Hr as (H1 & H2 & H3). cbn [accumulated].
    destruct (Z.eq_dec (observed_deaths r) (N - missing r)) as [E | E].
    + rewrite E. destruct (Z.eq_dec (N - missing r) 0) as [E0 | E0].
      * rewrite E0.
        change (KaplanMeierFitter._additive_f 0 0) with (Fin 0).
        cbn [fadd]. rewrite Rplus_0_r. apply IH. lia.
      * left. rewrite KaplanMeier_additive_f_all by lia. cbn [fadd].
        apply KaplanMeier_log_survival_stays; trivial. lia.
    + destruct (@KaplanMeier_additive_f_nonpos (N - missing r)
                  (observed_deaths r)) as (z & -> & Hz); [lia|].
      cbn [fadd].
      destruct (IH (N - missing r - observed_deaths r)%Z (x + z)%R)
        as [-> | (x' & -> & Hx')]; [lia|now left|].
      right. exists x'. split; [reflexivity|lra].
Qed.

Lemma fexp_probability (a : float) :
  a = NInf \/ (exists x, a = Fin x /\ (x <= 0)%R) -> probability (fexp a).
Proof.
  intros [-> | (x & -> & Hx)]; simpl.
  - exists 0%R. split; [reflexivity|lra].
  - exists (exp x). split; [reflexivity|].
    pose proof (exp_pos x). pose proof (exp_monotone Hx) as H1.
    rewrite exp_0 in H1. lra.
Qed.

Lemma KaplanMeier_value (rows : table) (x : Q) :
  valid_table rows ->
  accumulated fadd KaplanMeierFitter._additive_f (upto x rows)
              (total_removed rows) (Fin 0) = NInf \/
  exists a,
    accumulated fadd KaplanMeierFitter._additive_f (upto x rows)
                (total_removed rows) (Fin 0) = Fin a /\ (a <= 0)%R.
Proof.
  intros Hv. destruct (upto_valid x Hv) as [Hv1 HN].
  exact (KaplanMeier_accumulated_le Hv1 0%R HN).
Qed.

(** The survival read at a later point is not above the survival read at
    an earlier one. *)
Lemma KaplanMeier_value_monotone (rows : table) (x x' : Q) :
  valid_table rows -> x <= x' ->
  fle (fexp (accumulated fadd KaplanMeierFitter._additive_f (upto x' rows)
                         (total_removed rows) (Fin 0)))
      (fexp (accumulated fadd KaplanMeierFitter._additive_f (upto x rows)
                         (total_removed rows) (Fin 0))).
Proof.
  intros Hvt Hx. pose proof Hvt as [Hs Hv]. apply sorted_lt_le in Hs.
  destruct (upto_monotone rows Hs Hx) as [mid Hmid].
  destruct (upto_prefix x' rows Hs) as [rest Hrest].
  rewrite Hmid in Hrest.
  assert (Hv' : Forall valid_row (upto x rows ++ mid ++ rest))
    by now rewrite app_assoc, <- Hrest.
  assert (Hv1 := Forall_app_l _ _ Hv').
  assert (Hv2 := Forall_app_l _ _ (Forall_app_r _ _ Hv')).
  assert (Hv3 := Forall_app_r _ _ (Forall_app_r _ _ Hv')).
  assert (HN : total_removed rows
               = (total_removed (upto x rows) + total_removed mid
                  + total_removed rest)%Z).
  { rewrite Hrest at 1. rewrite !total_removed_app. reflexivity. }
  pose proof (total_removed_nonneg Hv2) as H2.
  pose proof (total_removed_nonneg Hv3) as H3.
  rewrite Hmid, accumulated_app, (risk_after _ Hv1).
  destruct (KaplanMeier_value x Hvt) as [-> | (a & -> & Ha)].
  - rewrite KaplanMeier_log_survival_stays by (trivial; lia).
    simpl. lra.
  - destruct (@KaplanMeier_accumulated_le mid Hv2
                (total_removed rows - total_removed (upto x rows))%Z a)
      as [-> | (b & -> & Hb)]; [lia| |].
    + simpl. left. apply exp_pos.
    + simpl. now apply exp_monotone.
Qed.

Lemma StronglySorted_map {A B : Type} (P : A -> A -> Prop)
    (P' : B -> B -> Prop) (h : A -> B) (l : list A) :
  (forall a b, P a b -> P' (h a) (h b)) ->
  StronglySorted P l -> StronglySorted P' (map h l).
Proof.
  intros HP. induction 1 as [|a l Hs IH Hall]; simpl; constructor; trivial.
  apply Forall_map. eapply Forall_impl; [|exact Hall].
  intros b. apply HP.
Qed.

Lemma StronglySorted_nth {A : Type} (P : A -> A -> Prop) (l : list A) :
  StronglySorted P l ->
  forall i j a b,
    (i < j)%nat -> nth_error l i = Some a -> nth_error l j = Some b ->
    P a b.
Proof.
  induction 1 as [|x l Hs IH Hall]; intros i j a b Hij Hi Hj.
  - now destruct i.
  - destruct i as [|i], j as [|j]; simpl in Hi, Hj; try lia.
    + injection Hi as <-. rewrite Forall_forall in Hall.
      apply Hall. eapply nth_error_In; eauto.
    + apply (IH i j); trivial. lia.
Qed.

(** The survival values along an ascending timeline, as a sorted list. *)
Lemma KaplanMeier_curve_sorted (rows : table) (tl : list Q) :
  valid_table rows -> Sorted Qle tl ->
  nonincreasing
    (map snd
         (map (fun row => (fst row, fexp (snd row)))
              (curve_of (Fin 0) fadd KaplanMeierFitter._additive_f rows
                        tl))).
Proof.
  intros Hv Hs. unfold curve_of, nonincreasing. rewrite !map_map.
  cbn [fst snd]. apply Sorted_StronglySorted in Hs.
  2:{ intros a b c. apply Qle_trans. }
  eapply StronglySorted_map; [|exact Hs].
  intros a b Hab. cbn beta. now apply KaplanMeier_value_monotone.
Qed.

Lemma KaplanMeier_curve_probabilities (rows : table) (tl : list Q) :
  valid_table rows ->
  Forall (fun row => probability (snd row))
         (map (fun row => (fst row, fexp (snd row)))
              (curve_of (Fin 0) fadd KaplanMeierFitter._additive_f rows
                        tl)).
Proof.
  intros Hv. unfold curve_of. rewrite map_map.
  apply Forall_map, Forall_forall. intros x _. cbn [fst snd].
  apply fexp_probability. now apply KaplanMeier_value.
Qed.

(** X3. For every sample the fitter accepts and every ascending timeline,
    the fitted Kaplan-Meier survival function holds probabilities (finite
    numbers between 0 and 1), never increases along the timeline, and is 1
    at time 0 when no event is observed at or before time 0. *)
Theorem KaplanMeier_survival_monotone :
  forall (inv_normal_cdf : R -> R) (s : KaplanMeierFitter.self)
         (event_times : list Q) (censorship : option (list bool))
         (timeline : option (list Q)) (alpha : option R),
    fittable event_times censorship timeline ->
    ascending timeline ->
    survival_monotone inv_normal_cdf s event_times censorship timeline
                      alpha (no_event_at_origin event_times censorship).
Proof.
  intros q s event_times censorship timeline alpha Hin Hasc.
  destruct (KaplanMeier_fit_spec q s alpha Hin)
    as (tl & s' & a2 & Htl & Hfit & HS & _).
  pose proof (risk_sets_valid event_times censorship) as Hv.
  pose proof (fitted_timeline_sorted _ _ _ Hasc Htl) as Hs.
  exists s', (PySelf s'). eexists. split; [exact Hfit|].
  split; [exact HS|]. split; [|split].
  - now apply KaplanMeier_curve_probabilities.
  - intros i j a b Hij Hi Hj.
    destruct (Nat.eq_dec i j) as [<- | Hne].
    + rewrite Hi in Hj. injection Hj as <-.
      pose proof (KaplanMeier_curve_probabilities tl Hv) as Hp.
      rewrite Forall_forall in Hp.
      destruct (Hp a (nth_error_In _ _ Hi)) as (p & -> & _). simpl. lra.
    + pose proof (KaplanMeier_curve_sorted Hv Hs) as Hsorted.
      apply (StronglySorted_nth Hsorted (i := i) (j := j)); [lia| |];
        rewrite nth_error_map; [now rewrite Hi | now rewrite Hj].
  - intros H0 x y Hxy Hx. apply in_map_iff in Hxy.
    destruct Hxy as ([x0 y0] & E & Hxy). cbn [fst snd] in E.
    injection E as -> <-.
    rewrite (@curve_of_origin KaplanMeierFitter._additive_f
               (risk_sets event_times censorship) tl x y0); trivial.
    + simpl. now rewrite exp_0.
    + apply KaplanMeier_additive_f_no_death.
    + now apply risk_sets_origin.
Qed.

Lemma KaplanMeier_survival_monotone_witness :
  survival_monotone logistic_quantile
    (KaplanMeierFitter.__init__ (95 / 100))
    example_times (Some example_censorship) (Some [0; 1; 2; 3]) None
    (no_event_at_origin example_times (Some example_censorship)).
Proof.
  apply KaplanMeier_survival_monotone.
  - repeat split; discriminate.
  - repeat constructor; discriminate.
Defined.

(** ** The median of the fitted survival function *)

Lemma risk_sets_times (P : Q -> Prop) (event_times : list Q)
    (censorship : option (list bool)) :
  Forall P event_times ->
  Forall (fun r => P (time r)) (risk_sets event_times censorship).
Proof.
  intros H. unfold risk_sets. apply aggregate_invariant; [|constructor].
  intros [t1 o] rows Hin Hrows. simpl. apply tally_rows; trivial.
  rewrite Forall_forall in H. apply H. eapply in_combine_l; eauto.
Qed.

Lemma with_origin_nonneg (timeline tl : list Q) :
  Forall (fun x => 0 <= x) timeline -> with_origin timeline = Ok tl ->
  Forall (fun x => 0 <= x) tl.
Proof.
  destruct timeline as [|t1 ts]; [discriminate|]. simpl.
  intros H E. injection E as <-. destruct (Qltb 0 t1); trivial.
  constructor; trivial. apply Qle_refl.
Qed.

Lemma fitted_labels_nonneg (event_times : list Q)
    (censorship : option (list bool)) (timeline : option (list Q))
    (tl : list Q) :
  nonneg_labels event_times timeline ->
  with_origin (timeline_or_events (risk_sets event_times censorship)
                                  timeline) = Ok tl ->
  Forall (fun x => 0 <= x) tl.
Proof.
  intros H. apply with_origin_nonneg.
  destruct timeline as [tl0|]; [exact H|].
  cbn [timeline_or_events]. apply Forall_map.
  now apply risk_sets_times.
Qed.

(** X4. For every sample the fitter accepts, fitted on an ascending
    timeline of non-negative labels, the [median_] the Kaplan-Meier fitter
    holds is [-1] exactly when the fitted survival function never drops
    below one half, and otherwise it is the first time of the function at
    which the survival is below one half. *)
Theorem KaplanMeier_median_is_first_crossing :
  forall (inv_normal_cdf : R -> R) (s : KaplanMeierFitter.self)
         (event_times : list Q) (censorship : option (list bool))
         (timeline : option (list Q)) (alpha : option R),
    fittable event_times censorship timeline ->
    ascending timeline ->
    nonneg_labels event_times timeline ->
    median_is_first_crossing inv_normal_cdf s event_times censorship
                             timeline alpha.
Proof.
  intros q s event_times censorship timeline alpha Hin Hasc Hlab.
  destruct (KaplanMeier_fit_attributes q s alpha Hin)
    as (s' & tl & surv & m & ci & Hfit & _ & _ & _ & _ & Htl & HS & Hidx
        & Hm & Hmed & _).
  destruct (KaplanMeier_fit_spec q s alpha Hin)
    as (tl' & s2 & a2 & Htl' & Hfit' & HS' & _).
  assert (Es : s2 = s') by congruence. subst s2.
  assert (Et : tl' = tl) by congruence. subst tl'.
  rewrite HS in HS'. injection HS' as ->.
  pose proof (risk_sets_valid event_times censorship) as Hv.
  pose proof (fitted_timeline_sorted _ _ _ Hasc Htl) as Hs.
  destruct (@idxmax_or_sentinel_spec (1 / 2) tl
              (map snd
                 (map (fun row => (fst row, fexp (snd row)))
                      (curve_of (Fin 0) fadd KaplanMeierFitter._additive_f
                                (risk_sets event_times censorship) tl))))
    as (r & Hr & Hiff & Hfirst).
  - eapply fitted_labels_nonneg; eauto.
  - apply with_origin_not_nil in Htl. unfold curve_of.
    destruct tl; [congruence|discriminate].
  - now apply KaplanMeier_curve_sorted.
  - unfold curve_of. now rewrite !length_map.
  - unfold median_survival_times in Hmed.
    rewrite qth_in_range in Hmed by lra. cbn [traverse bind] in Hmed.
    rewrite Hidx, Hr in Hmed. cbn [bind] in Hmed. injection Hmed as <-.
    exists s', (PySelf s'). eexists. exists r.
    split; [exact Hfit|]. split; [exact HS|]. split; [exact Hm|].
    split; [exact Hiff|]. now rewrite Hidx.
Qed.

Lemma KaplanMeier_median_is_first_crossing_witness :
  median_is_first_crossing logistic_quantile
    (KaplanMeierFitter.__init__ (95 / 100))
    example_times (Some example_censorship) None None.
Proof.
  apply KaplanMeier_median_is_first_crossing.
  - exact example_fittable.
  - exact I.
  - repeat constructor; discriminate.
Defined.

(** ** The increments compared *)

Lemma fold_Rplus_snoc (l : list R) (x a : R) :
  fold_left Rplus (l ++ [x]) a = (fold_left Rplus l a + x)%R.
Proof. now rewrite fold_left_app. Qed.

Lemma additive_f_smooth_value (N d : Z) :
  (0 <= d <= N)%Z -> (N <> 0)%Z ->
  NelsonAalenFitter._additive_f_smooth N d
  = Fin (fold_left Rplus (map (fun i => 1 / IZR (N - i))%R (range d)) 0%R).
Proof.
  intros Hd HN. unfold NelsonAalenFitter._additive_f_smooth.
  rewrite both_zero_false by assumption. unfold np_sum.
  apply (np_sum_reciprocals (fun i => N - i)%Z).
  apply Forall_forall. intros i Hi. apply in_range in Hi. lia.
Qed.

(** The sum of the reciprocals of [N], [N-1], ..., [N-d+1] is at least
    [d/N]. *)
Lemma reciprocals_above (N : Z) (n : nat) :
  (Z.of_nat n <= N)%Z -> (0 < N)%Z ->
  (IZR (Z.of_nat n) / IZR N
   <= fold_left Rplus
        (map (fun i => 1 / IZR (N - i)) (range (Z.of_nat n))) 0)%R.
Proof.
  intros Hn HN. assert (HN' : (0 < IZR N)%R) by now apply (IZR_lt 0).
  induction n as [|n IH].
  - simpl. unfold Rdiv. rewrite Rmult_0_l. lra.
  - rewrite Nat2Z.inj_succ, <- Z.add_1_r in *.
    rewrite range_succ by lia.
    rewrite map_app. cbn [map]. rewrite fold_Rplus_snoc.
    specialize (IH ltac:(lia)).
    assert (Hk : (0 < IZR (N - Z.of_nat n) <= IZR N)%R).
    { split; [apply (IZR_lt 0) | apply IZR_le]; lia. }
    assert (H1 : (1 / IZR N <= 1 / IZR (N - Z.of_nat n))%R).
    { unfold Rdiv. rewrite !Rmult_1_l.
      apply Rinv_le_contravar; lra. }
    rewrite plus_IZR. unfold Rdiv in *. lra.
Qed.

Lemma ln_one_minus (u : R) : (0 <= u < 1)%R -> (ln (1 - u) <= - u)%R.
Proof.
  intros Hu. pose proof (exp_ineq1_le (- u)) as H.
  rewrite <- (ln_exp (- u)).
  destruct H as [H | H].
  - left. apply ln_increasing; lra.
  - right. f_equal. lra.
Qed.

(** The Kaplan-Meier increment [log(1 - d/N)] is at most minus that
    sum. *)
Lemma log_below_reciprocals (N : Z) (n : nat) :
  (Z.of_nat n < N)%Z ->
  (ln (1 - IZR (Z.of_nat n) / IZR N)
   <= - fold_left Rplus
          (map (fun i => 1 / IZR (N - i)) (range (Z.of_nat n))) 0)%R.
Proof.
  intros Hn. assert (HN' : (0 < IZR N)%R) by (apply (IZR_lt 0); lia).
  induction n as [|n IH].
  - simpl. unfold Rdiv. rewrite Rmult_0_l, Rminus_0_r, ln_1. lra.
  - rewrite Nat2Z.inj_succ, <- Z.add_1_r in *.
    rewrite range_succ by lia.
    rewrite map_app. cbn [map]. rewrite fold_Rplus_snoc.
    specialize (IH ltac:(lia)).
    set (k := IZR (N - Z.of_nat n)).
    assert (Hk : (1 < k)%R) by (apply (IZR_lt 1); lia).
    assert (Ek : k = (IZR N - IZR (Z.of_nat n))%R) by apply minus_IZR.
    assert (Hu : (0 <= 1 / k < 1)%R).
    { split; [apply div_nonneg; lra | apply div_lt_one; lra]. }
    assert (E : (1 - IZR (Z.of_nat n + 1) / IZR N
                 = (1 - IZR (Z.of_nat n) / IZR N) * (1 - 1 / k))%R).
    { rewrite plus_IZR. rewrite Ek. field. lra. }
    rewrite E, ln_mult.
    + pose proof (ln_one_minus Hu). lra.
    + assert ((IZR (Z.of_nat n) / IZR N < 1)%R); [|lra].
      apply div_lt_one; lra.
    + lra.
Qed.

(** On a valid step the discrete increment is at most the smooth one, and
    the Kaplan-Meier increment is at most minus either. *)
Lemma increments_compared (N d : Z) :
  (0 <= d <= N)%Z ->
  exists a b,
    NelsonAalenFitter._additive_f_smooth N d = Fin a /\
    NelsonAalenFitter._additive_f_discrete N d = Fin b /\
    (0 <= b <= a)%R /\
    (KaplanMeierFitter._additive_f N d = NInf \/
     exists c, KaplanMeierFitter._additive_f N d = Fin c /\ (c <= - a)%R).
Proof.
  intros Hd. destruct (Z.eq_dec N 0) as [-> | HN].
  - assert (d = 0%Z) as -> by lia. exists 0%R, 0%R.
    repeat split; try reflexivity; try lra.
    right. exists 0%R. split; [reflexivity|lra].
  - rewrite additive_f_smooth_value, additive_f_discrete_value
      by (trivial; lia).
    eexists. eexists. split; [reflexivity|]. split; [reflexivity|].
    assert (Ed : d = Z.of_nat (Z.to_nat d)) by lia.
    split; [split|].
    + apply div_nonneg; [apply (IZR_le 0) | apply (IZR_lt 0)]; lia.
    + rewrite Ed. apply reciprocals_above; lia.
    + destruct (Z.eq_dec d N) as [-> | Hlt].
      * left. apply KaplanMeier_additive_f_all. lia.
      * right. rewrite KaplanMeier_additive_f_value by lia.
        eexists. split; [reflexivity|].
        rewrite Ed. apply log_below_reciprocals. lia.
Qed.

Lemma additive_f_below_smooth (s : NelsonAalenFitter.self) (N d : Z) :
  (0 <= d <= N)%Z ->
  exists a b,
    NelsonAalenFitter._additive_f_smooth N d = Fin a /\
    NelsonAalenFitter._additive_f s N d = Fin b /\ (0 <= b <= a)%R.
Proof.
  intros Hd. destruct (increments_compared Hd) as (a & b & Ea & Eb & H & _).
  unfold NelsonAalenFitter._additive_f.
  destruct (NelsonAalenFitter.nelson_aalen_smoothing s).
  - exists a, a. repeat split; trivial; lra.
  - exists a, b. repeat split; trivial; lra.
Qed.

(** Two increments, one below the other on every valid step, accumulate
    to two values in the same order. *)
Lemma accumulated_le (h h' : Z -> Z -> float) (rows : table) :
  (forall N d, (0 <= d <= N)%Z ->
               exists a b, h N d = Fin a /\ h' N d = Fin b /\ (b <= a)%R) ->
  Forall valid_row rows ->
  forall (N : Z) (x x' : R),
    (total_removed rows <= N)%Z -> (x' <= x)%R ->
    exists y y',
      accumulated fadd h rows N (Fin x) = Fin y /\
      accumulated fadd h' rows N (Fin x') = Fin y' /\ (y' <= y)%R.
Proof.
  intros Hh H. induction H as [|r rs Hr Hrs IH]; intros N x x' HN Hx.
  - exists x, x'. repeat split; trivial.
  - rewrite total_removed_cons in HN.
    pose proof (total_removed_nonneg Hrs) as H0.
    destruct Hr as (H1 & H2 & H3).
    destruct (Hh (N - missing r)%Z (observed_deaths r))
      as (a & b & Ea & Eb & Hab); [lia|].
    cbn [accumulated]. rewrite Ea, Eb. cbn [fadd].
    apply IH; [lia|lra].
Qed.

Lemma accumulated_finite (h : Z -> Z -> float) (rows : table) :
  (forall N d, (0 <= d <= N)%Z -> exists a, h N d = Fin a) ->
  Forall valid_row rows ->
  forall (N : Z) (y : R),
    (total_removed rows <= N)%Z ->
    exists y', accumulated fadd h rows N (Fin y) = Fin y'.
Proof.
  intros Hh H. induction H as [|r rs Hr Hrs IH]; intros N y HN.
  - now exists y.
  - rewrite total_removed_cons in HN.
    pose proof (total_removed_nonneg Hrs) as H0.
    destruct Hr as (H1 & H2 & H3).
    destruct (Hh (N - missing r)%Z (observed_deaths r)) as (a & Ea); [lia|].
    cbn [accumulated]. rewrite Ea. cbn [fadd]. apply IH. lia.
Qed.

(** The Kaplan-Meier log-survival stays at or below minus the accumulated
    hazard. *)
Lemma accumulated_log_below (h : Z -> Z -> float) (rows : table) :
  (forall N d, (0 <= d <= N)%Z ->
               exists a, h N d = Fin a /\
                         (KaplanMeierFitter._additive_f N d = NInf \/
                          exists c, KaplanMeierFitter._additive_f N d = Fin c
                                    /\ (c <= - a)%R)) ->
  Forall valid_row rows ->
  forall (N : Z) (x y : R),
    (total_removed rows <= N)%Z -> (x <= - y)%R ->
    exists y',
      accumulated fadd h rows N (Fin y) = Fin y' /\
      (accumulated fadd KaplanMeierFitter._additive_f rows N (Fin x) = NInf
       \/ exists x',
            accumulated fadd KaplanMeierFitter._additive_f rows N (Fin x)
            = Fin x' /\ (x' <= - y')%R).
Proof.
  intros Hh H.
  assert (Hfin : forall N d, (0 <= d <= N)%Z -> exists a, h N d = Fin a).
  { intros N d Hd. destruct (Hh N d Hd) as (a & Ea & _). now exists a. }
  induction H as [|r rs Hr Hrs IH]; intros N x y HN Hx.
  - exists y. split; [reflexivity|]. right. now exists x.
  - rewrite total_removed_cons in HN.
    pose proof (total_removed_nonneg Hrs) as H0.
    pose proof Hr as (H1 & H2 & H3).
    destruct (Hh (N - missing r)%Z (observed_deaths r))
      as (a & Ea & [Ec | (c & Ec & Hc)]); [lia| |].
    + cbn [accumulated]. rewrite Ea, Ec. cbn [fadd].
      destruct (@accumulated_finite h rs Hfin Hrs
                  (N - missing r - observed_deaths r)%Z (y + a)%R)
        as (y' & Ey); [lia|].
      exists y'. split; [exact Ey|]. left.
      apply KaplanMeier_log_survival_stays; trivial. lia.
    + cbn [accumulated]. rewrite Ea, Ec. cbn [fadd].
      apply IH; [lia|lra].
Qed.

Lemma Forall2_map_both {A B C : Type} (P : B -> C -> Prop) (h : A -> B)
    (k : A -> C) (l : list A) :
  (forall x, In x l -> P (h x) (k x)) -> Forall2 P (map h l) (map k l).
Proof.
  induction l as [|a l IH]; intros H; simpl; constructor.
  - apply H. now left.
  - apply IH. intros x Hx. apply H. now right.
Qed.

(** X5. For every sample the fitter accepts, with or without ties, the
    cumulative hazard fitted by the smooth Nelson-Aalen variant is at every
    timeline point at least the one fitted by the discrete variant. *)
Theorem smooth_hazard_dominates_discrete :
  forall (inv_normal_cdf : R -> R) (alpha0 : R) (event_times : list Q)
         (censorship : option (list bool)) (timeline : option (list Q))
         (alpha : option R),
    fittable event_times censorship timeline ->
    smooth_dominates_discrete inv_normal_cdf alpha0 event_times censorship
                              timeline alpha.
Proof.
  intros q a event_times censorship timeline alpha Hin.
  destruct (NelsonAalen_fit_spec q (NelsonAalenFitter.__init__ a true)
              alpha Hin) as (tl & s1 & Htl & Hfit1 & HH1 & _).
  destruct (NelsonAalen_fit_spec q (NelsonAalenFitter.__init__ a false)
              alpha Hin) as (tl' & s2 & Htl' & Hfit2 & HH2 & _).
  assert (Et : tl' = tl) by congruence. subst tl'.
  exists s1, s2, PyNone, PyNone. eexists. eexists.
  split; [exact Hfit1|]. split; [exact Hfit2|].
  split; [exact HH1|]. split; [exact HH2|].
  pose proof (risk_sets_valid event_times censorship) as Hv.
  unfold rowwise, curve_of. apply Forall2_map_both. intros x _.
  cbn [fst snd]. split; [reflexivity|].
  destruct (upto_valid x Hv) as [Hv1 HN].
  destruct (@accumulated_le NelsonAalenFitter._additive_f_smooth
              NelsonAalenFitter._additive_f_discrete
              (upto x (risk_sets event_times censorship)))
    with (N := total_removed (risk_sets event_times censorship))
         (x := 0%R) (x' := 0%R)
    as (y & y' & Ey & Ey' & Hy); trivial; try lra.
  { intros N d Hd.
    destruct (increments_compared Hd) as (u & w & Eu & Ew & H & _).
    exists u, w. repeat split; trivial. lra. }
  cbn [NelsonAalenFitter._additive_f
       NelsonAalenFitter.nelson_aalen_smoothing NelsonAalenFitter.__init__].
  rewrite Ey, Ey'. exact Hy.
Qed.

Lemma smooth_hazard_dominates_discrete_witness :
  smooth_dominates_discrete logistic_quantile (95 / 100)
    example_times (Some example_censorship) None None.
Proof.
  apply smooth_hazard_dominates_discrete. exact example_fittable.
Defined.

(** X6. For every sample the fitters accept, the fitted Kaplan-Meier
    survival is at every timeline point at most the exponential of minus
    the fitted Nelson-Aalen cumulative hazard, for the smooth and for the
    discrete variant. *)
Theorem KaplanMeier_survival_below_exp_hazard :
  forall (inv_normal_cdf : R -> R) (km : KaplanMeierFitter.self)
         (na : NelsonAalenFitter.self) (event_times : list Q)
         (censorship : option (list bool)) (timeline : option (list Q))
         (alpha : option R),
    fittable event_times censorship timeline ->
    survival_below_exp_hazard inv_normal_cdf km na event_times censorship
                              timeline alpha.
Proof.
  intros q km na event_times censorship timeline alpha Hin.
  destruct (KaplanMeier_fit_spec q km alpha Hin)
    as (tl & km' & a2 & Htl & Hfit1 & HS & _).
  destruct (NelsonAalen_fit_spec q na alpha Hin)
    as (tl' & na' & Htl' & Hfit2 & HH & _).
  assert (Et : tl' = tl) by congruence. subst tl'.
  exists km', na', (PySelf km'), PyNone. eexists. eexists.
  split; [exact Hfit1|]. split; [exact Hfit2|].
  split; [exact HS|]. split; [exact HH|].
  pose proof (risk_sets_valid event_times censorship) as Hv.
  unfold rowwise, curve_of. rewrite map_map.
  apply Forall2_map_both. intros x _.
  cbn [fst snd]. split; [reflexivity|].
  destruct (upto_valid x Hv) as [Hv1 HN].
  destruct (@accumulated_log_below (NelsonAalenFitter._additive_f na)
              (upto x (risk_sets event_times censorship)))
    with (N := total_removed (risk_sets event_times censorship))
         (x := 0%R) (y := 0%R)
    as (y' & Ey & Hkm); trivial; try lra.
  { intros N d Hd.
    destruct (increments_compared Hd) as (u & w & Eu & Ew & H & Hc).
    destruct (additive_f_below_smooth na Hd) as (u' & b & Eu' & Eb & Hb).
    rewrite Eu in Eu'. injection Eu' as <-.
    exists b. split; [exact Eb|].
    destruct Hc as [Hc | (c & Ec & Hc)]; [now left|].
    right. exists c. split; [exact Ec|lra]. }
  rewrite Ey. destruct Hkm as [-> | (x' & -> & Hx')]; simpl.
  - left. apply exp_pos.
  - now apply exp_monotone.
Qed.

Lemma KaplanMeier_survival_below_exp_hazard_witness :
  survival_below_exp_hazard logistic_quantile
    (KaplanMeierFitter.__init__ (95 / 100))
    (NelsonAalenFitter.__init__ (95 / 100) true)
    example_times (Some example_censorship) None None.
Proof.
  apply KaplanMeier_survival_below_exp_hazard. exact example_fittable.
Defined.

(** ** Quantile lookup on any curve *)

Lemma last_row_last_point (q : R) (c : list float) :
  c <> [] -> (last_row (below q c) = true <-> last_point_below q c).
Proof.
  intros Hne. destruct c as [|x c]; [congruence|].
  rewrite last_row_below. unfold last_point_below.
  replace (last (x :: c) NaN) with (last (x :: c) x).
  - apply fltb_flt.
  - now rewrite !last_cons.
Qed.

Lemma argmax_or_sentinel_any (q : R) (c : list float) :
  c <> [] ->
  exists r,
    argmax_or_sentinel (below q c) = Ok r /\
    (~ last_point_below q c -> r = (-1)%Z) /\
    (last_point_below q c ->
     (0 <= r)%Z /\ first_below q c (Z.to_nat r)).
Proof.
  intros Hne. unfold argmax_or_sentinel.
  destruct (below q c) as [|b0 bs] eqn:Eb.
  { destruct c; [congruence|discriminate]. }
  rewrite <- Eb. pose proof (last_row_last_point q Hne) as Hlast.
  destruct (last_row (below q c)) eqn:El.
  - destruct (argmax_first_below q c El) as [_ Hf].
    eexists. split; [reflexivity|]. split.
    + intros Hn. exfalso. apply Hn. now apply Hlast.
    + intros _. split; [lia|]. now rewrite Nat2Z.id.
  - eexists. split; [reflexivity|]. split; [reflexivity|].
    intros Hl. apply Hlast in Hl. discriminate.
Qed.

Lemma idxmax_or_sentinel_any (q : R) (index : list Q) (c : list float) :
  c <> [] -> length c = length index ->
  exists r,
    idxmax_or_sentinel index (below q c) = Ok r /\
    (~ last_point_below q c -> r = (-1)%Q) /\
    (last_point_below q c ->
     exists p, first_below q c p /\ nth_error index p = Some r).
Proof.
  intros Hne Hlen. unfold idxmax_or_sentinel.
  destruct (below q c) as [|b0 bs] eqn:Eb.
  { destruct c; [congruence|discriminate]. }
  rewrite <- Eb. pose proof (last_row_last_point q Hne) as Hlast.
  destruct (last_row (below q c)) eqn:El.
  - destruct (argmax_first_below q c El) as [Hp Hf].
    rewrite Hlen in Hp.
    pose proof (nth_error_nth' index (-1) Hp) as Hnth.
    eexists. split; [reflexivity|]. split.
    + intros Hn. exfalso. apply Hn. now apply Hlast.
    + intros _. eexists. split; [exact Hf|exact Hnth].
  - eexists. split; [reflexivity|]. split; [reflexivity|].
    intros Hl. apply Hlast in Hl. discriminate.
Qed.

(** X7. For every [q] in [[0,1]] and every frame or array of non-empty
    curves, monotone or not, [qth_survival_times] returns one entry per
    curve: [-1] when the last point of the curve is not below [q], and
    otherwise the first position (for a frame, its index label) at which
    the curve is below [q]. *)
Theorem qth_survival_times_by_last_point :
  forall (q : R) (sf : survival_functions),
    (0 <= q <= 1)%R ->
    curves_present sf ->
    qth_by_last_point q sf.
Proof.
  intros q sf Hq Hsf. unfold qth_by_last_point.
  rewrite qth_in_range by assumption.
  destruct sf as [index columns | columns]; simpl in Hsf.
  - destruct (traverse_Forall2
                (fun c => idxmax_or_sentinel index (below q c))
                (fun c r =>
                   (~ last_point_below q c -> r = (-1)%Q) /\
                   (last_point_below q c ->
                    exists p, first_below q c p /\
                              nth_error index p = Some r))
                (l := columns)) as (v & Hv & HF).
    { eapply Forall_impl; [|exact Hsf]. intros c (H1 & H2).
      now apply idxmax_or_sentinel_any. }
    exists v. rewrite Hv. split; [reflexivity|exact HF].
  - destruct (traverse_Forall2
                (fun c => argmax_or_sentinel (below q c))
                (fun c r =>
                   (~ last_point_below q c -> r = (-1)%Z) /\
                   (last_point_below q c ->
                    (0 <= r)%Z /\ first_below q c (Z.to_nat r)))
                (l := columns)) as (v & Hv & HF).
    { eapply Forall_impl; [|exact Hsf]. intros c H1.
      now apply argmax_or_sentinel_any. }
    exists v. rewrite Hv. split; [reflexivity|exact HF].
Qed.

Lemma qth_survival_times_by_last_point_witness :
  qth_by_last_point (1 / 2)
    (DataFrame [0; 1; 2] [[Fin 1; Fin (2 / 5); Fin (3 / 5)]]).
Proof.
  apply qth_survival_times_by_last_point.
  - lra.
  - repeat constructor; discriminate.
Defined.

(** X8. [qth_survival_times] raises [AssertionError] exactly when [q] is
    outside [[0,1]], whatever the curves. *)
Theorem qth_survival_times_asserts_range :
  forall (q : R) (sf : survival_functions),
    qth_survival_times q sf = Err AssertionError <-> ~ (0 <= q <= 1)%R.
Proof.
  intros q sf. unfold qth_survival_times.
  destruct (Rle_dec 0 q) as [H0 | H0]; [|split; [lra|reflexivity]].
  destruct (Rle_dec q 1) as [H1 | H1]; [|split; [lra|reflexivity]].
  split; [|intros H; exfalso; apply H; lra].
  destruct sf as [index columns | columns].
  - destruct (traverse _ columns) as [v|e] eqn:E; [discriminate|].
    cbn [bind]. intros He. exfalso. injection He as ->.
    revert E. clear. induction columns as [|c columns IH];
      cbn [traverse bind]; [discriminate|].
    unfold idxmax_or_sentinel at 1. destruct (below q c); [discriminate|].
    cbn [bind]. destruct (traverse _ columns); [discriminate|].
    cbn [bind]. intros E. now apply IH.
  - destruct (traverse _ columns) as [v|e] eqn:E; [discriminate|].
    cbn [bind]. intros He. exfalso. injection He as ->.
    revert E. clear. induction columns as [|c columns IH];
      cbn [traverse bind]; [discriminate|].
    unfold argmax_or_sentinel at 1. destruct (below q c); [discriminate|].
    cbn [bind]. destruct (traverse _ columns); [discriminate|].
    cbn [bind]. intros E. now apply IH.
Qed.

(** ** The confidence level of a Kaplan-Meier fit *)

(** X10. [KaplanMeierFitter.fit] called with [alpha=0.0] is the fit called
    without [alpha]: a zero level is not a level ([if not alpha]) and the
    bands are computed at the level of the fitter. *)
Theorem KaplanMeier_zero_alpha_is_no_alpha :
  forall (inv_normal_cdf : R -> R) (s : KaplanMeierFitter.self)
         (event_times : list Q) (censorship : option (list bool))
         (timeline : option (list Q)),
    KaplanMeierFitter.fit inv_normal_cdf s event_times censorship timeline
                          (Some 0%R)
    = KaplanMeierFitter.fit inv_normal_cdf s event_times censorship timeline
                            None.
Proof.
  intros q s event_times censorship timeline.
  unfold KaplanMeierFitter.fit, KaplanMeierFitter.falsy.
  now rewrite (Rsign_zero (x := 0)) by reflexivity.
Qed.

(** ** Aalen's regression without an intercept *)

(** X11. [AalenAdditiveFitter.fit] on a fitter built with
    [fit_intercept=False] never completes when one label per covariate is
    given (by [columns], by the frame, or by default): the label
    ["baseline"] is appended all the same and the frames of [d] columns
    refuse [d + 1] labels. *)
Theorem Aalen_fit_without_intercept_fails :
  forall (inv : matrix -> option matrix) (inv_normal_cdf : R -> R)
         (s : AalenAdditiveFitter.self) (event_times : list Q)
         (X' : design) (timeline : option (list Q))
         (censorship : option (list bool)) (columns : option (list label)),
    AalenAdditiveFitter.fit_intercept s = false ->
    one_label_per_covariate X' columns ->
    exists e,
      AalenAdditiveFitter.fit inv inv_normal_cdf s event_times X' timeline
                              censorship columns = Err e.
Proof.
  intros inv q s event_times X' timeline censorship columns Hs Hl.
  unfold AalenAdditiveFitter.fit. rewrite Hs.
  destruct (negb _); [eexists; reflexivity|].
  destruct (AalenAdditiveFitter.observed_of _ _); [|eexists; reflexivity].
  cbn [bind]. destruct (with_origin _); [|eexists; reflexivity].
  cbn [bind].
  assert (E : labelled (length (hd [] (values_of X')) + 0)
                (AalenAdditiveFitter.column_labels
                   (length (hd [] (values_of X'))) X' columns)
              = Err ValueError).
  { unfold labelled.
    assert (Hlen : length (AalenAdditiveFitter.column_labels
                             (length (hd [] (values_of X'))) X' columns)
                   = S (length (hd [] (values_of X')))).
    { unfold AalenAdditiveFitter.column_labels, one_label_per_covariate in *.
      destruct columns as [c|], X' as [c' v | v];
        rewrite length_app, ?length_map, ?length_seq; simpl in *; lia. }
    rewrite Hlen.
    destruct (Nat.eqb_spec (S (length (hd [] (values_of X'))))
                (length (hd [] (values_of X')) + 0)); [lia|reflexivity]. }
  rewrite E. eexists. reflexivity.
Qed.

Lemma Aalen_fit_without_intercept_fails_witness :
  exists e,
    AalenAdditiveFitter.fit linalg_inv logistic_quantile
      (AalenAdditiveFitter.__init__ false (95 / 100) 0)
      two_subjects (Array [[1%R]; [2%R]]) None None None = Err e.
Proof.
  apply Aalen_fit_without_intercept_fails; [reflexivity|exact I].
Defined.

(** ** What Aalen's fitter holds after [fit] *)

Section AalenFitted.

Variable inv : matrix -> option matrix.
Variable inv_normal_cdf : R -> R.

Local Abbreviation fit := (AalenAdditiveFitter.fit inv inv_normal_cdf).
Local Abbreviation loop_body := (AalenAdditiveFitter.loop_body inv).

(** A property of the loop variables that every completed step keeps holds
    after the loop. *)
Lemma Aalen_loop_invariant (I : AalenAdditiveFitter.locals -> Prop)
    (n p : nat) (penalizer_ : matrix) (observed : list bool)
    (steps : list (nat * Q)) :
  (forall s step s1,
      In step steps -> I s ->
      loop_body n p penalizer_ observed (Ok s) step = Ok s1 -> I s1) ->
  forall s0 st,
    I s0 ->
    fold_left (loop_body n p penalizer_ observed) steps (Ok s0) = Ok st ->
    I st.
Proof.
  induction steps as [|step steps IH]; intros Hstep s0 st H0 Hfold.
  - now injection Hfold as <-.
  - cbn [fold_left] in Hfold.
    destruct (loop_body n p penalizer_ observed (Ok s0) step) as [s1|e]
      eqn:E.
    + apply (IH (fun s step' s1' Hin => Hstep s step' s1' (or_intror Hin))
                s1 st); trivial.
      apply (Hstep s0 step s1); trivial. now left.
    + exfalso. revert Hfold. clear.
      induction steps as [|x steps IH]; [discriminate|]. exact IH.
Qed.

(** The steps of a completed [fit], laid out. *)
Lemma Aalen_fit_inversion (s : AalenAdditiveFitter.self)
    (event_times : list Q) (X' : design) (timeline : option (list Q))
    (censorship : option (list bool)) (columns : option (list label))
    (s' : AalenAdditiveFitter.self) (r : returned AalenAdditiveFitter.self) :
  fit s event_times X' timeline censorship columns = Ok (s', r) ->
  let n := length (values_of X') in
  let p := coefficients s X' in
  let sorted := sorted_event_times event_times in
  exists observed tl s0 st V_ cum var,
    with_origin (match timeline with
                 | None => sorted
                 | Some t => t
                 end) = Ok tl /\
    sorted <> [] /\
    length (AalenAdditiveFitter.column_labels
              (length (hd [] (values_of X'))) X' columns) = p /\
    AalenAdditiveFitter.cumulative s0 = map (fun x => (x, repeat 0%R p)) tl /\
    AalenAdditiveFitter.variance s0 = map (fun x => (x, repeat 0%R p)) tl /\
    AalenAdditiveFitter.hazards s0
    = map (fun x => (x, repeat 0%R p)) sorted /\
    AalenAdditiveFitter.t_0 s0 = hd 0 sorted /\
    fold_left (loop_body n p
                 (scaled_eye (AalenAdditiveFitter.penalizer s) p) observed)
              (AalenAdditiveFitter.enumerate sorted) (Ok s0) = Ok st /\
    AalenAdditiveFitter.V st = Some V_ /\
    r = PySelf s' /\
    AalenAdditiveFitter.fit_intercept s'
    = AalenAdditiveFitter.fit_intercept s /\
    AalenAdditiveFitter.alpha s' = AalenAdditiveFitter.alpha s /\
    AalenAdditiveFitter.penalizer s' = AalenAdditiveFitter.penalizer s /\
    AalenAdditiveFitter.timeline s' = Some tl /\
    AalenAdditiveFitter.X s' = Some X' /\
    AalenAdditiveFitter.censorship s' = Some censorship /\
    AalenAdditiveFitter.columns_ s'
    = Some (AalenAdditiveFitter.column_labels
              (length (hd [] (values_of X'))) X' columns) /\
    cum = AalenAdditiveFitter.put (fun x => Qltb (last sorted 0) x)
            (AalenAdditiveFitter.cum_v st)
            (AalenAdditiveFitter.cumulative st) /\
    var = AalenAdditiveFitter.put (fun x => Qltb (last sorted 0) x)
            (outer_diagonal (col (n - 1) V_))
            (AalenAdditiveFitter.variance st) /\
    AalenAdditiveFitter.cumulative_hazards_ s' = Some cum /\
    AalenAdditiveFitter.hazards_ s'
    = Some (AalenAdditiveFitter.put_at (n - 1) (AalenAdditiveFitter.v st)
              (AalenAdditiveFitter.hazards st)) /\
    AalenAdditiveFitter._variance s' = Some var /\
    AalenAdditiveFitter.confidence_intervals_ s'
    = Some {| AalenAdditiveFitter.upper_ :=
                AalenAdditiveFitter.interval_rows fadd
                  (inv_normal_cdf
                     (1 - (1 - AalenAdditiveFitter.alpha s) / 2)%R)
                  cum var;
              AalenAdditiveFitter.lower_ :=
                AalenAdditiveFitter.interval_rows fsub
                  (inv_normal_cdf
                     (1 - (1 - AalenAdditiveFitter.alpha s) / 2)%R)
                  cum var |}.
Proof.
  intros H n p sorted. unfold AalenAdditiveFitter.fit, bind in H.
  fold n in H. fold (sorted_event_times event_times) in H. fold sorted in H.
  fold (coefficients s X') in H. fold p in H.
  destruct_matches H. injection H as <- <-.
  match goal with
  | Hl : labelled _ _ = Ok _ |- _ =>
      unfold labelled in Hl;
      destruct (Nat.eqb_spec
                  (length (AalenAdditiveFitter.column_labels
                             (length (hd [] (values_of X'))) X' columns)) p)
        as [Hp | Hp]; [injection Hl as <- | discriminate Hl]
  end.
  match goal with
  | Hc : AalenAdditiveFitter._compute_confidence_intervals _ _ = Ok _ |- _ =>
      unfold AalenAdditiveFitter._compute_confidence_intervals in Hc;
      cbn [AalenAdditiveFitter.cumulative_hazards_
           AalenAdditiveFitter._variance AalenAdditiveFitter.alpha] in Hc;
      injection Hc as <-
  end.
  match goal with
  | Hf : fold_left _ _ (Ok ?s0) = Ok ?st,
    HV : AalenAdditiveFitter.V _ = Some ?V |- _ =>
      eexists; eexists; exists s0, st, V; eexists; eexists
  end.
  split; [reflexivity|]. split; [discriminate|]. split; [exact Hp|].
  cbn [AalenAdditiveFitter.cumulative AalenAdditiveFitter.variance
       AalenAdditiveFitter.hazards AalenAdditiveFitter.t_0 hd].
  do 4 (split; [reflexivity|]).
  split; [eassumption|]. split; [assumption|].
  cbn. repeat split; reflexivity.
Qed.

Lemma put_index (mask : Q -> bool) (row : vec)
    (df : AalenAdditiveFitter.frames) :
  map fst (AalenAdditiveFitter.put mask row df) = map fst df.
Proof.
  unfold AalenAdditiveFitter.put. rewrite map_map. apply map_ext.
  intros r. now destruct (mask (fst r)).
Qed.

Lemma accumulate_index (mask : Q -> bool) (row : vec)
    (df : AalenAdditiveFitter.frames) :
  map fst (AalenAdditiveFitter.accumulate mask row df) = map fst df.
Proof.
  unfold AalenAdditiveFitter.accumulate. rewrite map_map. apply map_ext.
  intros r. now destruct (mask (fst r)).
Qed.

Lemma put_at_index (i : nat) (row : vec) (df : AalenAdditiveFitter.frames) :
  map fst (AalenAdditiveFitter.put_at i row df) = map fst df.
Proof.
  unfold AalenAdditiveFitter.put_at.
  destruct (nth_error df i) as [r|] eqn:E; [|reflexivity].
  revert i E. induction df as [|r0 df IH]; intros [|i] E; try discriminate.
  - simpl in E. injection E as ->. reflexivity.
  - simpl in E. simpl. f_equal. now apply IH.
Qed.

Lemma interval_rows_index (op : float -> float -> float) (z : R)
    (cum var : AalenAdditiveFitter.frames) :
  length cum = length var ->
  map fst (AalenAdditiveFitter.interval_rows op z cum var) = map fst cum.
Proof.
  unfold AalenAdditiveFitter.interval_rows. rewrite map_map. cbn [fst].
  revert var. induction cum as [|c cum IH]; intros [|v var] H;
    try discriminate; trivial.
  simpl. f_equal. apply IH. now injection H.
Qed.

Lemma Aalen_fit_holds :
  forall (s : AalenAdditiveFitter.self) (event_times : list Q)
         (X' : design) (timeline : option (list Q))
         (censorship : option (list bool)) (columns : option (list label))
         (s' : AalenAdditiveFitter.self)
         (r : returned AalenAdditiveFitter.self),
    fit s event_times X' timeline censorship columns = Ok (s', r) ->
    r = PySelf s' /\
    Aalen_fitted s event_times X' timeline censorship columns s'.
Proof.
  intros s event_times X' timeline censorship columns s' r H.
  destruct (Aalen_fit_inversion _ _ _ _ _ _ H)
    as (observed & tl & s0 & st & V_ & cum & var & Htl & _ & Hp & Hc0 & Hv0
        & Hh0 & Ht0 & Hfold & HV & Hr & Hfi & Ha & Hpen & Htl' & HX & Hcens
        & Hcols & Ecum & Evar & Hcum & Hhz & Hvar & Hci).
  split; [exact Hr|].
  assert (Hinv : (map fst (AalenAdditiveFitter.cumulative st) = tl /\
                  map fst (AalenAdditiveFitter.variance st) = tl /\
                  map fst (AalenAdditiveFitter.hazards st)
                  = sorted_event_times event_times) /\
                 nonneg_frame (AalenAdditiveFitter.variance st)).
  { revert Hfold.
    apply (Aalen_loop_invariant
             (fun s1 =>
                (map fst (AalenAdditiveFitter.cumulative s1) = tl /\
                 map fst (AalenAdditiveFitter.variance s1) = tl /\
                 map fst (AalenAdditiveFitter.hazards s1)
                 = sorted_event_times event_times) /\
                nonneg_frame (AalenAdditiveFitter.variance s1))).
    - intros s1 [i time] s2 _ [(I1 & I2 & I3) I4] Hstep.
      unfold AalenAdditiveFitter.loop_body in Hstep.
      cbn [bind fst snd] in Hstep.
      destruct (inv _).
      + injection Hstep as <-.
        cbn [AalenAdditiveFitter.cumulative AalenAdditiveFitter.variance
             AalenAdditiveFitter.hazards].
        rewrite !accumulate_index, put_at_index.
        repeat split; trivial.
        apply accumulate_nonneg; trivial. apply outer_diagonal_nonneg.
      + destruct (AalenAdditiveFitter.V s1); [|discriminate].
        injection Hstep as <-.
        cbn [AalenAdditiveFitter.cumulative AalenAdditiveFitter.variance
             AalenAdditiveFitter.hazards].
        rewrite !put_index, put_at_index.
        repeat split; trivial.
        apply put_nonneg; trivial. apply outer_diagonal_nonneg.
    - rewrite Hc0, Hv0, Hh0, !map_map. cbn [fst]. rewrite !map_id.
      repeat split; trivial.
      unfold nonneg_frame. apply Forall_map, Forall_forall.
      intros x _. cbn [snd]. apply Forall_forall. intros y Hy.
      apply repeat_spec in Hy. lra. }
  destruct Hinv as [(I1 & I2 & I3) I4].
  assert (Ic : map fst cum = tl) by (now rewrite Ecum, put_index).
  assert (Iv : map fst var = tl) by (now rewrite Evar, put_index).
  assert (Hlen : length cum = length var).
  { rewrite <- (length_map fst cum), <- (length_map fst var).
    now rewrite Ic, Iv. }
  exists tl, cum. eexists. exists var. eexists.
  split; [exact Htl|]. split; [exact Hfi|]. split; [exact Ha|].
  split; [exact Hpen|]. split; [exact Htl'|]. split; [exact HX|].
  split; [exact Hcens|]. split; [exact Hcols|]. split; [exact Hcum|].
  split; [exact Ic|]. split; [exact Hhz|].
  split; [now rewrite put_at_index|]. split; [exact Hvar|].
  split; [exact Iv|].
  split; [rewrite Evar; apply put_nonneg; trivial;
          apply outer_diagonal_nonneg|].
  split; [exact Hci|].
  cbn [AalenAdditiveFitter.upper_ AalenAdditiveFitter.lower_].
  now rewrite !interval_rows_index.
Qed.

(** X12. Whenever [AalenAdditiveFitter.fit] completes it returns the
    fitter itself, which keeps its settings and holds the design and the
    censorship as given, the column labels with ["baseline"] appended, the
    timeline with time 0 in front when it starts after 0, and, indexed by
    that timeline, the cumulative hazards, a variance without a negative
    entry and the upper and lower confidence blocks; the hazards are
    indexed by the sorted event times. *)
Theorem Aalen_fit_postconditions :
  forall (s : AalenAdditiveFitter.self) (event_times : list Q)
         (X' : design) (timeline : option (list Q))
         (censorship : option (list bool)) (columns : option (list label))
         (s' : AalenAdditiveFitter.self)
         (r : returned AalenAdditiveFitter.self),
    fit s event_times X' timeline censorship columns = Ok (s', r) ->
    r = PySelf s' /\
    Aalen_fitted s event_times X' timeline censorship columns s'.
Proof.
  intros s event_times X' timeline censorship columns s' r H.
  exact (Aalen_fit_holds _ _ _ _ _ _ H).
Qed.

End AalenFitted.

Lemma Aalen_fit_postconditions_witness :
  exists s',
    Aalen_fitted (AalenAdditiveFitter.__init__ true (95 / 100) 0)
      two_subjects no_covariates None None None s'.
Proof.
  destruct two_subjects_fit as [s' H]. exists s'.
  exact (proj2 (Aalen_fit_postconditions _ _ _ _ _ _ _ _ H)).
Defined.

(** ** The order in which [fit] visits the subjects *)

Lemma insert_by_head (ts : list Q) (i : nat) (l : list nat) (j : nat) :
  nth j ts 0 <= nth i ts 0 ->
  HdRel (fun a b => nth a ts 0 <= nth b ts 0) j l ->
  HdRel (fun a b => nth a ts 0 <= nth b ts 0) j (insert_by ts i l).
Proof.
  intros Hji Hl. destruct l as [|k l]; simpl.
  - now constructor.
  - destruct (Qltb _ _); constructor; trivial. now inversion Hl.
Qed.

Lemma insert_by_sorted (ts : list Q) (i : nat) (l : list nat) :
  Sorted (fun a b => nth a ts 0 <= nth b ts 0) l ->
  Sorted (fun a b => nth a ts 0 <= nth b ts 0) (insert_by ts i l).
Proof.
  induction 1 as [|j l Hs IH Hd]; simpl.
  - repeat constructor.
  - destruct (Qltb (nth i ts 0) (nth j ts 0)) eqn:E.
    + constructor; [now constructor|]. constructor.
      apply Qlt_le_weak. now apply Qltb_lt.
    + constructor; [exact IH|]. apply insert_by_head; trivial.
      now apply Qltb_ge.
Qed.

Lemma insert_by_in (ts : list Q) (i : nat) (l : list nat) (j : nat) :
  In j (insert_by ts i l) <-> j = i \/ In j l.
Proof.
  induction l as [|k l IH]; simpl.
  - intuition.
  - destruct (Qltb _ _); simpl; rewrite ?IH; intuition.
Qed.

Lemma argsort_sorted (ts : list Q) :
  Sorted (fun a b => nth a ts 0 <= nth b ts 0) (argsort ts).
Proof.
  unfold argsort.
  assert (H : forall idx l0,
             Sorted (fun a b => nth a ts 0 <= nth b ts 0) l0 ->
             Sorted (fun a b => nth a ts 0 <= nth b ts 0)
                    (fold_left (fun l i => insert_by ts i l) idx l0)).
  { induction idx as [|i idx IH]; intros l0 H0; [exact H0|].
    simpl. apply IH. now apply insert_by_sorted. }
  apply H. constructor.
Qed.

Lemma argsort_in (ts : list Q) (j : nat) :
  In j (argsort ts) <-> (j < length ts)%nat.
Proof.
  unfold argsort.
  assert (H : forall idx l0,
             In j (fold_left (fun l i => insert_by ts i l) idx l0)
             <-> In j idx \/ In j l0).
  { induction idx as [|i idx IH]; intros l0; simpl; [intuition|].
    rewrite IH, insert_by_in. intuition. }
  rewrite H, in_seq. simpl. intuition. lia.
Qed.

(** The event times are visited in ascending order. *)
Lemma sorted_event_times_sorted (event_times : list Q) :
  Sorted Qle (sorted_event_times event_times).
Proof.
  unfold sorted_event_times.
  induction (argsort_sorted event_times) as [|j l Hs IH Hd]; simpl;
    constructor; trivial.
  destruct Hd; simpl; now constructor.
Qed.

Lemma sorted_event_times_in (event_times : list Q) (x : Q) :
  In x event_times -> In x (sorted_event_times event_times).
Proof.
  intros H. destruct (In_nth _ _ 0 H) as (i & Hi & <-).
  unfold sorted_event_times.
  apply (in_map (fun i => nth i event_times 0)). now apply argsort_in.
Qed.

(** The first time visited is the earliest event time. *)
Lemma first_event_time_earliest (event_times : list Q) :
  Forall (fun x => hd 0 (sorted_event_times event_times) <= x)
         (sorted_event_times event_times).
Proof.
  pose proof (sorted_event_times_sorted event_times) as Hs.
  destruct (sorted_event_times event_times) as [|t1 ts]; constructor.
  - apply Qle_refl.
  - now apply sorted_times_bound.
Qed.

(** ** The first event time in Aalen's frames *)

Lemma put_zero_until (mask : Q -> bool) (row : vec)
    (df : AalenAdditiveFitter.frames) (x : Q) :
  (forall y, y <= x -> mask y = false) ->
  zero_until x df -> zero_until x (AalenAdditiveFitter.put mask row df).
Proof.
  intros Hmask H y r Hin Hy. unfold AalenAdditiveFitter.put in Hin.
  apply in_map_iff in Hin. destruct Hin as ([y0 r0] & E & Hin).
  cbn [fst snd] in E. destruct (mask y0) eqn:Em.
  - injection E as -> <-. rewrite Hmask in Em by assumption. discriminate.
  - injection E as -> ->. eapply H; eauto.
Qed.

Lemma accumulate_zero_until (mask : Q -> bool) (row : vec)
    (df : AalenAdditiveFitter.frames) (x : Q) :
  (forall y, y <= x -> mask y = false) ->
  zero_until x df ->
  zero_until x (AalenAdditiveFitter.accumulate mask row df).
Proof.
  intros Hmask H y r Hin Hy. unfold AalenAdditiveFitter.accumulate in Hin.
  apply in_map_iff in Hin. destruct Hin as ([y0 r0] & E & Hin).
  cbn [fst snd] in E. destruct (mask y0) eqn:Em.
  - injection E as -> <-. rewrite Hmask in Em by assumption. discriminate.
  - injection E as -> ->. eapply H; eauto.
Qed.

Lemma zeros_zero_until (p : nat) (tl : list Q) (x : Q) :
  zero_until x (map (fun y => (y, repeat 0%R p)) tl).
Proof.
  intros y r Hin _. apply in_map_iff in Hin.
  destruct Hin as (y0 & E & _). injection E as _ <-.
  apply Forall_forall. intros c Hc. now apply repeat_spec in Hc.
Qed.

Lemma step_mask_after (t0 time x y : Q) :
  x <= t0 -> y <= x -> Qltb t0 y && Qle_bool y time = false.
Proof.
  intros H0 Hy. apply andb_false_intro1. apply Qltb_ge.
  eapply Qle_trans; eauto.
Qed.

Section AalenFirstEvent.

Variable inv : matrix -> option matrix.
Variable inv_normal_cdf : R -> R.

(** X13. Whenever [AalenAdditiveFitter.fit] completes, the cumulative
    hazards and the variance it holds are zero in every coefficient at
    every timeline point up to and including the earliest event time: the
    first step of the loop covers no timeline point, so the increment of
    the first event only shows after the first event time. *)
Theorem Aalen_fit_is_zero_until_first_event :
  forall (s : AalenAdditiveFitter.self) (event_times : list Q)
         (X' : design) (timeline : option (list Q))
         (censorship : option (list bool)) (columns : option (list label))
         (s' : AalenAdditiveFitter.self)
         (r : returned AalenAdditiveFitter.self),
    AalenAdditiveFitter.fit inv inv_normal_cdf s event_times X' timeline
                            censorship columns = Ok (s', r) ->
    exists first cum var,
      hd_error (sorted_event_times event_times) = Some first /\
      Forall (fun x => first <= x) event_times /\
      AalenAdditiveFitter.cumulative_hazards_ s' = Some cum /\
      AalenAdditiveFitter._variance s' = Some var /\
      zero_until first cum /\
      zero_until first var.
Proof.
  intros s event_times X' timeline censorship columns s' r H.
  destruct (Aalen_fit_inversion _ _ _ _ _ _ _ _ H)
    as (observed & tl & s0 & st & V_ & cum & var & Htl & Hsorted & Hp & Hc0
        & Hv0 & Hh0 & Ht0 & Hfold & HV & _ & _ & _ & _ & _ & _ & _ & _ & Ecum
        & Evar & Hcum & _ & Hvar & _).
  pose proof (first_event_time_earliest event_times) as Hmin.
  set (sorted := sorted_event_times event_times) in *.
  set (first := hd 0 sorted) in *.
  assert (Hne : hd_error sorted = Some first).
  { subst first. destruct sorted; [congruence|reflexivity]. }
  exists first, cum, var. split; [exact Hne|].
  split.
  { apply Forall_forall. intros x Hx. rewrite Forall_forall in Hmin.
    apply Hmin. now apply sorted_event_times_in. }
  split; [exact Hcum|]. split; [exact Hvar|].
  assert (Hinv : first <= AalenAdditiveFitter.t_0 st /\
                 zero_until first (AalenAdditiveFitter.cumulative st) /\
                 zero_until first (AalenAdditiveFitter.variance st)).
  { revert Hfold.
    apply (@Aalen_loop_invariant inv
             (fun s1 =>
                first <= AalenAdditiveFitter.t_0 s1 /\
                zero_until first (AalenAdditiveFitter.cumulative s1) /\
                zero_until first (AalenAdditiveFitter.variance s1))).
    - intros s1 [i time] s2 Hin (I0 & I1 & I2) Hstep.
      assert (Htime : first <= time).
      { rewrite Forall_forall in Hmin. apply Hmin.
        unfold AalenAdditiveFitter.enumerate in Hin.
        eapply in_combine_r; eauto. }
      unfold AalenAdditiveFitter.loop_body in Hstep.
      cbn [bind fst snd] in Hstep.
      destruct (inv _).
      + injection Hstep as <-.
        cbn [AalenAdditiveFitter.cumulative AalenAdditiveFitter.variance
             AalenAdditiveFitter.t_0].
        split; [exact Htime|].
        split; apply accumulate_zero_until; trivial;
          intros y Hy; now apply step_mask_after with (x := first).
      + destruct (AalenAdditiveFitter.V s1); [|discriminate].
        injection Hstep as <-.
        cbn [AalenAdditiveFitter.cumulative AalenAdditiveFitter.variance
             AalenAdditiveFitter.t_0].
        split; [exact Htime|].
        split; apply put_zero_until; trivial;
          intros y Hy; now apply step_mask_after with (x := first).
    - rewrite Hc0, Hv0, Ht0. split; [apply Qle_refl|].
      split; apply zeros_zero_until. }
  destruct Hinv as (_ & I1 & I2).
  assert (Hlast : first <= last sorted 0).
  { rewrite Forall_forall in Hmin. apply Hmin.
    destruct sorted as [|t1 ts]; [discriminate|]. apply last_in. }
  rewrite Ecum, Evar.
  split; apply put_zero_until; trivial; intros y Hy; apply Qltb_ge;
    eapply Qle_trans; eauto.
Qed.

End AalenFirstEvent.

Lemma Aalen_fit_is_zero_until_first_event_witness :
  exists s' first cum var,
    hd_error (sorted_event_times two_subjects) = Some first /\
    Forall (fun x => first <= x) two_subjects /\
    AalenAdditiveFitter.cumulative_hazards_ s' = Some cum /\
    AalenAdditiveFitter._variance s' = Some var /\
    zero_until first cum /\
    zero_until first var.
Proof.
  destruct two_subjects_fit as [s' H]. exists s'.
  exact (Aalen_fit_is_zero_until_first_event _ _ _ _ _ _ _ _ H).
Defined.

(** ** Predictions *)

Lemma combine_fst_index {A B : Type} (tl : list A) (rows : list B) :
  length tl = length rows -> map fst (combine tl rows) = tl.
Proof.
  revert rows. induction tl as [|x tl IH]; intros [|r rows] H;
    try discriminate; trivial.
  simpl. f_equal. apply IH. now injection H.
Qed.

Lemma traverse_length {A B : Type} (h : A -> result B) (l : list A)
    (v : list B) :
  traverse h l = Ok v -> length v = length l.
Proof.
  revert v. induction l as [|a l IH]; intros v H; simpl in H.
  - now injection H as <-.
  - destruct (h a); [|discriminate]. cbn [bind] in H.
    destruct (traverse h l); [|discriminate]. cbn [bind] in H.
    injection H as <-. simpl. f_equal. now apply IH.
Qed.

Section AalenPredictions.

Variable inv : matrix -> option matrix.
Variable inv_normal_cdf : R -> R.

(** X14. After a completed fit on [d] covariates, the three predictions
    ([predict_cumulative_hazard], [predict_survival_function] and
    [predict_median_lifetimes]) return a result exactly for a design of
    [d] columns and as many rows as the fit has coefficients ([d], plus
    one with an intercept): the frame is built with the coefficient labels
    as its columns, one of which it needs per row of the design.  The
    frames are then indexed by the timeline of the fitter and there is
    one median per row.  For every other design the three raise
    [ValueError]. *)
Theorem Aalen_predictions_need_as_many_rows_as_coefficients :
  forall (s : AalenAdditiveFitter.self) (event_times : list Q)
         (X' : design) (timeline : option (list Q))
         (censorship : option (list bool)) (columns : option (list label))
         (s' : AalenAdditiveFitter.self)
         (r : returned AalenAdditiveFitter.self) (X_new : design),
    AalenAdditiveFitter.fit inv inv_normal_cdf s event_times X' timeline
                            censorship columns = Ok (s', r) ->
    (predictable s X' X_new -> predictions s' X_new) /\
    (~ predictable s X' X_new -> no_predictions s' X_new).
Proof.
  intros s event_times X' timeline censorship columns s' r X_new H.
  destruct (Aalen_fit_holds _ _ _ _ _ _ _ _ H) as [_ Hfitted].
  destruct (Aalen_fit_inversion _ _ _ _ _ _ _ _ H)
    as (_ & tl0 & _ & _ & _ & _ & _ & Htl0 & _ & Hp & _).
  destruct Hfitted
    as (tl & cum & hz & var & ci & Htl & Hfi & _ & _ & Htl' & _ & _ & Hcols
        & Hcum & Ic & _).
  assert (Hne : tl <> []) by (eapply with_origin_not_nil; eauto).
  unfold predictable, predictions, no_predictions, coefficients in *.
  unfold AalenAdditiveFitter.predict_median_lifetimes,
    AalenAdditiveFitter.predict_survival_function,
    AalenAdditiveFitter.predict_cumulative_hazard.
  rewrite Hcum, Htl', Hcols, Hfi, Hp.
  set (d := length (hd [] (values_of X'))) in *.
  set (k := if AalenAdditiveFitter.fit_intercept s then 1%nat else 0%nat)
    in *.
  destruct (Nat.eqb_spec (d + k) (length (hd [] (values_of X_new)) + k))
    as [Ed | Ed]; cbn [negb].
  - destruct (Nat.eqb_spec (length (values_of X_new)) (d + k))
      as [En | En]; cbn [negb bind].
    + split; [intros _ | intros Hn; exfalso; apply Hn; split; lia].
      assert (Hlen : length tl = length (map snd cum)).
      { now rewrite length_map, <- (length_map fst cum), Ic. }
      unfold median_survival_times. rewrite qth_in_range by lra.
      match goal with
      | |- context [traverse ?h ?l] =>
          destruct (@traverse_Forall2 _ _ h (fun _ _ => True) l)
            as (v & Hv & _)
      end.
      { apply Forall_forall. intros c Hc. apply in_map_iff in Hc.
        destruct Hc as (j & <- & _). unfold idxmax_or_sentinel.
        rewrite !map_map. cbn [fst snd].
        destruct (combine tl (map snd cum)) as [|c0 cs] eqn:Ec.
        - apply (f_equal (@length (Q * vec))) in Ec.
          rewrite length_combine, <- Hlen, Nat.min_id in Ec.
          destruct tl; [congruence|discriminate].
        - cbn [map below]. eexists. split; [reflexivity|exact I]. }
      rewrite Hv. cbn [bind].
      exists tl. eexists. eexists. eexists. exists v.
      split; [reflexivity|]. split; [reflexivity|].
      split; [rewrite map_map; cbn [fst]; now apply combine_fst_index|].
      split.
      { apply Forall_map, Forall_forall. intros x _. cbn [snd].
        now rewrite !length_map. }
      split; [reflexivity|].
      split; [rewrite !map_map; cbn [fst]; now apply combine_fst_index|].
      split; [reflexivity|].
      apply traverse_length in Hv. rewrite Hv, length_map, length_seq.
      now rewrite Hp.
    + split; [intros [_ Hn]; lia|intros _]. repeat split; reflexivity.
  - split; [intros [Hd _]; lia|intros _]. repeat split; reflexivity.
Qed.

End AalenPredictions.

Lemma Aalen_predictions_need_as_many_rows_as_coefficients_witness :
  exists s', predictions s' (Array [[]]) /\ no_predictions s' no_covariates.
Proof.
  destruct two_subjects_fit as [s' H]. exists s'. split.
  - apply (@Aalen_predictions_need_as_many_rows_as_coefficients
             _ _ _ _ _ _ _ _ _ _ (Array [[]]) H).
    split; reflexivity.
  - apply (@Aalen_predictions_need_as_many_rows_as_coefficients
             _ _ _ _ _ _ _ _ _ _ no_covariates H).
    intros [_ E]. discriminate E.
Defined.

(** ** The end of the Kaplan-Meier curve *)

Lemma risk_sets_removed_positive (event_times : list Q)
    (censorship : option (list bool)) :
  Forall (fun r => (0 < removed r)%Z) (risk_sets event_times censorship).
Proof.
  unfold risk_sets. apply aggregate_invariant; [|constructor].
  intros [t1 o] rows _ Hrows. simpl. apply tally_rows; trivial.
  - simpl. lia.
  - intros r _ Hr. simpl. lia.
Qed.

Lemma total_removed_positive (rows : table) :
  rows <> [] -> Forall (fun r => (0 < removed r)%Z) rows ->
  (0 < total_removed rows)%Z.
Proof.
  intros Hne H. destruct H as [|r rs Hr Hrs]; [congruence|].
  rewrite total_removed_cons.
  assert (0 <= total_removed rs)%Z; [|lia].
  clear Hne Hr. induction Hrs as [|r' rs' Hr' _ IH].
  - unfold total_removed. simpl. lia.
  - rewrite total_removed_cons. lia.
Qed.

(** While subjects remain after the rows, the log-survival is finite. *)
Lemma KaplanMeier_finite_before_end (rows : table) :
  Forall valid_row rows ->
  forall (N : Z) (x : R),
    (total_removed rows < N)%Z ->
    exists x',
      accumulated fadd KaplanMeierFitter._additive_f rows N (Fin x) = Fin x'.
Proof.
  induction 1 as [|r rs Hr Hrs IH]; intros N x HN.
  - now exists x.
  - rewrite total_removed_cons in HN.
    pose proof (total_removed_nonneg Hrs) as H0.
    destruct Hr as (H1 & H2 & H3). cbn [accumulated].
    destruct (@KaplanMeier_additive_f_nonpos (N - missing r)
                (observed_deaths r)) as (z & -> & _); [lia|].
    cbn [fadd]. apply IH. lia.
Qed.

(** X15. For every sample the fitter accepts, the fitted Kaplan-Meier
    survival is positive before the last time of the risk-set table the
    fitter holds; from the last time on it is 0 when the last row counts an
    observed death (subjects censored at that time have left the risk set
    before), and it is positive at every timeline point when the last row
    counts none. *)
Theorem KaplanMeier_survival_at_the_end :
  forall (inv_normal_cdf : R -> R) (s : KaplanMeierFitter.self)
         (event_times : list Q) (censorship : option (list bool))
         (timeline : option (list Q)) (alpha : option R),
    fittable event_times censorship timeline ->
    survival_at_the_end inv_normal_cdf s event_times censorship timeline
                        alpha.
Proof.
  intros q s event_times censorship timeline alpha Hin.
  destruct (KaplanMeier_fit_attributes q s alpha Hin)
    as (s' & _ & _ & _ & _ & Hfit & _ & _ & Hrows & _).
  destruct (KaplanMeier_fit_spec q s alpha Hin)
    as (tl & s2 & a2 & Htl & Hfit' & HS & _).
  assert (Es : s2 = s') by congruence. subst s2.
  pose proof (risk_sets_valid event_times censorship) as Hvt.
  pose proof (risk_sets_removed_positive event_times censorship) as Hpos.
  pose proof (risk_sets_nonempty Hin) as Hne.
  set (rows := risk_sets event_times censorship) in *.
  destruct (exists_last Hne) as (front & last_row & Erows).
  pose proof Hvt as [Hs Hv]. apply sorted_lt_le in Hs.
  assert (Hvf : Forall valid_row front).
  { rewrite Erows in Hv. now apply Forall_app_l in Hv. }
  assert (Hvl : valid_row last_row).
  { rewrite Erows in Hv. apply Forall_app_r in Hv. now inversion Hv. }
  assert (Hpl : (0 < removed last_row)%Z).
  { rewrite Erows in Hpos. apply Forall_app_r in Hpos. now inversion Hpos. }
  assert (Htot : total_removed rows
                 = (total_removed front + removed last_row)%Z).
  { rewrite Erows, total_removed_app. unfold total_removed at 2.
    simpl. reflexivity. }
  assert (Hlast : last (map time rows) 0 = time last_row).
  { rewrite Erows, map_app. cbn [map].
    generalize (map time front). intros l.
    induction l as [|a l IH]; [reflexivity|].
    simpl. destruct (l ++ [time last_row]) eqn:E; [|exact IH].
    destruct l; discriminate. }
  (* the value at a point before the last time *)
  assert (Hbefore : forall x, x < time last_row ->
            exists a, accumulated fadd KaplanMeierFitter._additive_f
                        (upto x rows) (total_removed rows) (Fin 0)
                      = Fin a).
  { intros x Hx. destruct (upto_prefix x rows Hs) as [rest Hrest].
    destruct (upto_valid x Hvt) as [Hv1 _].
    apply KaplanMeier_finite_before_end; trivial.
    assert (Hrne : rest <> []).
    { intros ->. rewrite app_nil_r in Hrest.
      assert (Hin' : In last_row (upto x rows)).
      { rewrite <- Hrest, Erows. apply in_or_app. right. now left. }
      apply filter_In in Hin'. destruct Hin' as [_ Hle].
      apply Qle_bool_iff in Hle.
      apply (Qlt_irrefl x). eapply Qlt_le_trans; eauto. }
    assert (Hprest : Forall (fun r => (0 < removed r)%Z) rest).
    { rewrite Hrest in Hpos. now apply Forall_app_r in Hpos. }
    pose proof (total_removed_positive Hrne Hprest).
    rewrite Hrest at 2. rewrite total_removed_app. lia. }
  (* the value at a point at or after the last time *)
  assert (Hend : forall x, time last_row <= x ->
            accumulated fadd KaplanMeierFitter._additive_f
              (upto x rows) (total_removed rows) (Fin 0)
            = fadd (accumulated fadd KaplanMeierFitter._additive_f front
                      (total_removed rows) (Fin 0))
                   (KaplanMeierFitter._additive_f
                      (observed_deaths last_row)
                      (observed_deaths last_row))).
  { intros x Hx. rewrite (@upto_all rows x Hs).
    - rewrite Erows at 1. rewrite accumulated_app, (risk_after _ Hvf).
      cbn [accumulated]. do 2 f_equal.
      destruct Hvl as (_ & _ & E). lia.
    - assert (E : last (map time rows) x = time last_row).
      { rewrite <- Hlast. destruct (map time rows) eqn:Em.
        - destruct rows; [congruence|discriminate].
        - now rewrite !last_cons. }
      now rewrite E. }
  destruct (@KaplanMeier_finite_before_end front Hvf (total_removed rows)
              0%R) as (a & Ea); [lia|].
  exists s', (PySelf s'), front, last_row. eexists.
  split; [exact Hfit|]. split; [now rewrite Hrows, Erows|].
  split; [exact HS|].
  assert (Hval : forall x y,
             In (x, y)
                (map (fun row => (fst row, fexp (snd row)))
                     (curve_of (Fin 0) fadd KaplanMeierFitter._additive_f
                               rows tl)) ->
             y = fexp (accumulated fadd KaplanMeierFitter._additive_f
                         (upto x rows) (total_removed rows) (Fin 0))).
  { intros x y Hxy. apply in_map_iff in Hxy.
    destruct Hxy as ([x0 y0] & E & Hxy). cbn [fst snd] in E.
    injection E as -> <-. apply in_curve_of in Hxy. now rewrite Hxy. }
  split; [|split].
  - intros x y Hxy Hx. rewrite (Hval x y Hxy).
    destruct (Hbefore x Hx) as (b & ->). simpl. apply exp_pos.
  - intros Hd x y Hxy Hx. rewrite (Hval x y Hxy), (Hend x Hx), Ea.
    now rewrite KaplanMeier_additive_f_all.
  - intros Hd x y Hxy. rewrite (Hval x y Hxy).
    destruct (Qlt_le_dec x (time last_row)) as [Hx | Hx].
    + destruct (Hbefore x Hx) as (b & ->). simpl. apply exp_pos.
    + rewrite (Hend x Hx), Ea, Hd.
      change (KaplanMeierFitter._additive_f 0 0) with (Fin 0).
      simpl. apply exp_pos.
Qed.

Lemma KaplanMeier_survival_at_the_end_witness :
  survival_at_the_end logistic_quantile
    (KaplanMeierFitter.__init__ (95 / 100))
    example_times (Some example_censorship) None None.
Proof.
  apply KaplanMeier_survival_at_the_end. exact example_fittable.
Defined.

(** ** The range of the confidence bands *)

Lemma NelsonAalen_band_nonneg (z h s : R) (x : Q) :
  (0 < h)%R -> (0 <= s)%R ->
  nonneg_band (NelsonAalenFitter.bounds_row z (x, Fin h) (Fin s)).
Proof.
  intros Hh Hs. unfold nonneg_band, NelsonAalenFitter.bounds_row.
  cbn [lower upper snd fst]. rewrite fsqrt_nonneg by assumption.
  cbn [fmul]. rewrite !fdiv_nonzero by lra. cbn [fexp fmul fle].
  split; left; apply Rmult_lt_0_compat; trivial; apply exp_pos.
Qed.

Lemma exp_minus_exp (u : R) : (0 <= exp (- exp u) <= 1)%R.
Proof.
  split; [left; apply exp_pos|]. rewrite <- exp_0.
  apply exp_monotone. pose proof (exp_pos u). lra.
Qed.

Lemma KaplanMeier_band_probability (z sigma s : R) (x : Q) :
  (0 < sigma < 1)%R -> (0 <= s)%R ->
  probability_band (KaplanMeierFitter.bounds_row z (x, Fin sigma) (Fin s)).
Proof.
  intros Hsig Hs. unfold probability_band, KaplanMeierFitter.bounds_row.
  cbn [lower upper snd fst flog]. rewrite Rsign_pos by lra.
  cbn [fneg flog].
  assert (Hv : (ln sigma < 0)%R).
  { rewrite <- ln_1. apply ln_increasing; lra. }
  rewrite Rsign_pos by lra. rewrite fsqrt_nonneg by assumption.
  cbn [fmul]. rewrite !fdiv_nonzero by lra.
  cbn [fsub fneg fadd fexp fle].
  split; apply exp_minus_exp.
Qed.

Lemma reindex_where (where_ : float -> Prop) (within : band -> Prop)
    (G : (Q * float) * float -> band) (pairs : list ((Q * float) * float))
    (timeline : list Q) (estimate : frame float) :
  (forall x b, within b -> within (relabel x b)) ->
  (forall p, at_time (G p) = fst (fst p)) ->
  (forall p, In p pairs ->
             In (fst p) estimate /\ (where_ (snd (fst p)) -> within (G p))) ->
  (forall x, In x timeline -> exists p, In p pairs /\ fst (fst p) = x) ->
  bands_where where_ within timeline estimate
              (reindex timeline (map G pairs)).
Proof.
  intros Hrel Hat Hpairs Hcover. unfold bands_where.
  split; [apply reindex_index|]. unfold reindex.
  apply Forall_map, Forall_forall. intros x Hx.
  destruct (find (fun b => Qeq_bool (at_time b) x) (map G pairs))
    as [b|] eqn:E.
  - apply find_some in E. destruct E as [Hb Hq].
    apply in_map_iff in Hb. destruct Hb as (p & <- & Hp).
    destruct (Hpairs p Hp) as [Hin Hw].
    rewrite Hat in Hq. apply Qeq_bool_iff in Hq.
    destruct p as [[x' y] v]. cbn [fst snd] in *.
    exists x', y. split; [exact Hin|]. split; [exact Hq|].
    intros Hy. apply Hrel. now apply Hw.
  - exfalso. destruct (Hcover x Hx) as (p & Hp & Hpx).
    pose proof (find_none _ _ E (G p) (in_map G _ _ Hp)) as Hq.
    cbn beta in Hq. rewrite Hat, Hpx, Qeq_bool_refl in Hq. discriminate.
Qed.

Lemma copied_where (where_ : float -> Prop) (within : band -> Prop)
    (G : (Q * float) * float -> band) (estimate : frame float) :
  (forall x b, within b -> within (relabel x b)) ->
  (forall p, at_time (G p) = fst (fst p)) ->
  forall (pairs : list ((Q * float) * float)) (timeline : list Q),
    index_equals (map at_time (map G pairs)) timeline = true ->
    (forall p, In p pairs ->
               In (fst p) estimate /\
               (where_ (snd (fst p)) -> within (G p))) ->
    bands_where where_ within timeline estimate
      (map (fun p => relabel (fst p) (snd p))
           (combine timeline (map G pairs))).
Proof.
  intros Hrel Hat. unfold bands_where.
  induction pairs as [|p pairs IH]; intros [|x timeline] E Hpairs;
    try discriminate.
  - split; [reflexivity|constructor].
  - cbn [map index_equals] in E. apply andb_prop in E.
    destruct E as [Ex E]. rewrite Hat in Ex. apply Qeq_bool_iff in Ex.
    destruct (IH timeline E) as [IH1 IH2].
    { intros p' Hp'. apply Hpairs. now right. }
    cbn [map combine fst snd at_time relabel]. split.
    + now rewrite IH1.
    + constructor; [|exact IH2].
      destruct (Hpairs p (or_introl eq_refl)) as [Hin Hw].
      destruct p as [[x' y] v]. cbn [fst snd] in *.
      exists x', y. split; [exact Hin|]. split; [exact Ex|].
      intros Hy. apply (Hrel x). now apply Hw.
Qed.

Lemma set_column_where (where_ : float -> Prop) (within : band -> Prop)
    (G : (Q * float) * float -> band) (pairs : list ((Q * float) * float))
    (timeline : list Q) (estimate : frame float) (ci : list band) :
  (forall x b, within b -> within (relabel x b)) ->
  (forall p, at_time (G p) = fst (fst p)) ->
  (forall p, In p pairs ->
             In (fst p) estimate /\ (where_ (snd (fst p)) -> within (G p))) ->
  (forall x, In x timeline -> exists p, In p pairs /\ fst (fst p) = x) ->
  set_column timeline (map G pairs) = Ok ci ->
  bands_where where_ within timeline estimate ci.
Proof.
  intros Hrel Hat Hpairs Hcover. unfold set_column.
  destruct (index_equals _ _) eqn:E.
  - intros H. injection H as <-. now apply copied_where.
  - destruct (is_unique _); [|discriminate].
    intros H. injection H as <-. now apply reindex_where.
Qed.

(** X16. For every sample of fewer than 2^21 = 2097152 subjects the
    fitters accept and every level [alpha] in (0,1), the bands stay in the
    range of the estimate: at every timeline point where the cumulative
    hazard is positive neither Nelson-Aalen bound is [nan] or below 0, and
    at every timeline point where the survival is strictly between 0 and 1
    both Kaplan-Meier bounds lie between 0 and 1 (the ends included). *)
Theorem confidence_bands_stay_in_range :
  forall (inv_normal_cdf : R -> R) (na : NelsonAalenFitter.self)
         (km : KaplanMeierFitter.self) (event_times : list Q)
         (censorship : option (list bool)) (timeline : option (list Q))
         (alpha : option R),
    fittable event_times censorship timeline ->
    fits_int64 event_times ->
    (0 < NelsonAalen_level na alpha < 1)%R ->
    (0 < KaplanMeier_level km alpha < 1)%R ->
    bands_in_range inv_normal_cdf na km event_times censorship timeline
                   alpha.
Proof.
  intros q na km event_times censorship timeline alpha Hin Hsize _ _.
  pose proof (risk_sets_valid event_times censorship) as Hv.
  pose proof (risk_sets_removed event_times censorship) as Hrem.
  unfold fits_int64 in Hsize.
  split.
  - destruct (NelsonAalen_fit_spec q na alpha Hin)
      as (tl & s' & Htl & Hfit & HH & Hidx & ci & Hci & Hset).
    exists s', PyNone. eexists. eexists. exists ci.
    split; [exact Hfit|]. split; [exact Hidx|]. split; [exact HH|].
    split; [exact Hci|].
    rewrite combine_curves in Hset. revert Hset. apply set_column_where.
    + intros x b H. exact H.
    + now intros [[x y] v].
    + intros p Hp. apply in_map_iff in Hp. destruct Hp as (x & <- & Hx).
      cbn [fst snd]. split.
      * unfold curve_of.
        exact (in_map
                 (fun x0 =>
                    (x0, accumulated fadd (NelsonAalenFitter._additive_f na)
                           (upto x0 (risk_sets event_times censorship))
                           (total_removed (risk_sets event_times censorship))
                           (Fin 0)))
                 _ _ Hx).
      * intros Hpos. destruct (upto_valid x Hv) as [Hv1 HN].
        destruct (@accumulated_nonneg _ _ (additive_f_nonneg na) Hv1
                    (total_removed (risk_sets event_times censorship))
                    0%R HN) as (h & Eh & Hh).
        destruct (@accumulated_nonneg_below _ _ _ (variance_f_nonneg na) Hv1
                    (total_removed (risk_sets event_times censorship))
                    0%R HN) as (v & Ev & Hv2); [lia|].
        rewrite Eh, Ev in *.
        unfold positive in Hpos. simpl in Hpos.
        now apply NelsonAalen_band_nonneg.
    + intros x Hx. eexists. split.
      * apply in_map. eapply with_origin_incl; eauto.
      * reflexivity.
  - destruct (KaplanMeier_fit_spec q km alpha Hin)
      as (tl & s' & a2 & Htl & Hfit & HS & Ha2 & Hidx & ci & Hci & Hset).
    exists s', (PySelf s'). eexists. eexists. exists ci.
    split; [exact Hfit|]. split; [exact Hidx|]. split; [exact HS|].
    split; [exact Hci|].
    rewrite combine_map_l, combine_curves in Hset.
    revert Hset.
    match goal with
    | |- set_column _ ?L = _ -> _ =>
        replace L
          with (map (fun p =>
                       KaplanMeierFitter.bounds_row a2 (fst p) (snd p))
                    (map (fun x =>
                            ((x, fexp
                                   (accumulated fadd
                                      KaplanMeierFitter._additive_f
                                      (upto x (risk_sets event_times
                                                         censorship))
                                      (total_removed
                                         (risk_sets event_times censorship))
                                      (Fin 0))),
                             accumulated fadd KaplanMeierFitter._variance_f
                               (upto x (risk_sets event_times censorship))
                               (total_removed
                                  (risk_sets event_times censorship))
                               (Fin 0))) tl))
          by (rewrite !map_map; apply map_ext; intros; reflexivity)
    end.
    apply set_column_where.
    + intros x b H. exact H.
    + now intros [[x y] v].
    + intros p Hp. apply in_map_iff in Hp. destruct Hp as (x & <- & Hx).
      cbn [fst snd]. split.
      * unfold curve_of. rewrite map_map. cbn [fst snd].
        exact (in_map
                 (fun x0 =>
                    (x0, fexp
                           (accumulated fadd KaplanMeierFitter._additive_f
                              (upto x0 (risk_sets event_times censorship))
                              (total_removed
                                 (risk_sets event_times censorship))
                              (Fin 0))))
                 _ _ Hx).
      * intros [Hlo Hhi]. destruct (upto_valid x Hv) as [Hv1 HN].
        destruct (@KaplanMeier_accumulated _ Hv1
                    (total_removed (risk_sets event_times censorship))
                    0%R 0%R HN) as [E | (x' & v & Ex & Ev & Hx' & Hv2)];
          try lra; [lia|..].
        -- rewrite E in Hlo. simpl in Hlo. lra.
        -- rewrite Ex, Ev in *.
           simpl in Hlo, Hhi. cbn [fexp].
           now apply KaplanMeier_band_probability.
    + intros x Hx. eexists. split.
      * apply in_map. eapply with_origin_incl; eauto.
      * reflexivity.
Qed.

Lemma confidence_bands_stay_in_range_witness :
  bands_in_range logistic_quantile
    (NelsonAalenFitter.__init__ (95 / 100) true)
    (KaplanMeierFitter.__init__ (95 / 100))
    example_times (Some example_censorship) None None.
Proof.
  apply confidence_bands_stay_in_range.
  - exact example_fittable.
  - unfold fits_int64. simpl. lia.
  - simpl; lra.
  - simpl; lra.
Defined.

(** ** Singular steps after the first *)

(** X17. On every input [AalenAdditiveFitter.fit] accepts, the fit
    completes and returns the fitter as soon as the inversion of the first
    step succeeds, whatever the inversions of the later steps do: a later
    singular step reuses the [V] of the last successful step and the loop
    goes on. *)
Theorem Aalen_fit_completes_after_first_inversion :
  forall (inv : matrix -> option matrix) (inv_normal_cdf : R -> R)
         (s : AalenAdditiveFitter.self) (event_times : list Q)
         (X' : design) (timeline : option (list Q))
         (censorship : option (list bool)) (columns : option (list label)),
    regression_input s event_times X' timeline censorship columns ->
    inv (first_inversion s event_times X' censorship) <> None ->
    exists s',
      AalenAdditiveFitter.fit inv inv_normal_cdf s event_times X' timeline
                              censorship columns = Ok (s', PySelf s').
Proof.
  intros inv q s event_times X' timeline censorship columns Hin Hinv.
  pose proof (Aalen_fit_first_step inv q Hin) as H.
  destruct (inv (first_inversion s event_times X' censorship));
    [exact H|congruence].
Qed.

Lemma Aalen_fit_completes_after_first_inversion_witness :
  exists s',
    AalenAdditiveFitter.fit (fun m => match m with
                                      | [[x]] => if Rle_dec x 1 then None
                                                 else Some [[(/ x)%R]]
                                      | _ => None
                                      end)
      logistic_quantile
      (AalenAdditiveFitter.__init__ true (95 / 100) 0)
      two_subjects no_covariates None None None = Ok (s', PySelf s').
Proof.
  apply Aalen_fit_completes_after_first_inversion.
  - repeat split; discriminate.
  - cbv -[Rplus Rmult Rminus Rdiv IZR pow Rle_dec Rinv].
    destruct (Rle_dec _ _) as [H | H]; [exfalso; lra|discriminate].
Defined.
